(** * hpp-core: roadmap bookkeeping and kinodynamic steering

    A shallow embedding of [Roadmap] (roadmap.cc) and of
    [steeringMethod::Kinodynamic] (steering-kinodynamic.cc), with the
    properties of the roadmap core established on it, followed by the
    dump of a roadmap and by the problems and obstacles of
    [ChppPlanner] (hppPlanner.cpp).

    Conventions.
    - [double] values of the steering method are real numbers ([R]); the
      square root is [sqrt] of the reals.  Rounding, infinities and NaN
      are not modelled: the model is the code where it divides by
      non-zero values and takes roots of non-negative ones, as at the
      inputs evaluated below.  Distances and coordinates of the roadmap
      are rationals ([Q]), extended with [+infinity] where the code
      uses [std::numeric_limits<value_type>::infinity ()].
    - Objects created by [new] live in stores indexed by pointers
      ([positive]); a pointer-valued container holds pointers.
    - Text sent to [std::cout] is a list of the operands of [<<].
    - Sections, properties and scenarios cited in the comments are
      those of the specification of the roadmap core. *)

From Stdlib Require Import ZArith QArith Qabs Reals Lra Lqa Lia List String.
From stdpp Require Import base option list gmap fin_sets.

(** ** Output streams *)

Inductive token :=
| Str (s : string)
| Num (z : Z)
| Endl.

(* ===================================================================== *)
(** ** steering-kinodynamic.cc *)
(* ===================================================================== *)

Module Steering.

Local Open Scope R_scope.

(** What the constructor reads of [problem.robot ()]: two sizes, far
    below the bounds of [size_type]. *)
Record Device := mkDevice {
  configSize : Z;
  extraConfigSpace_dimension : Z
}.

Record Problem := mkProblem { robot : Device }.

Record Kinodynamic := mkKinodynamic {
  device_ : Device;
  aMax_ : R;
  vMax_ : R
}.

(** Outcome of a constructor call: the object, with what was written to
    [std::cout], or an exception leaving the constructor. *)
Inductive construction :=
| Constructed (sm : Kinodynamic) (out : list token)
| Rejected (what : string).

(** [Kinodynamic::Kinodynamic (const Problem& problem)].  The [hppDout]
    line is debug logging and writes nothing to the modelled stream. *)
Definition Kinodynamic_new (problem : Problem) : construction :=
  let extra := extraConfigSpace_dimension (robot problem) in
  let size := configSize (robot problem) in
  let out :=
    if (2 * extra <? size)%Z
    then [Str "Error : you need at least "; Num (size - extra);
          Str " extra DOF"; Endl]
    else [] in
  Constructed {| device_ := robot problem; aMax_ := 0.5; vMax_ := 1 |} out.

(** Modelled from the spec: [sgn] is a template of the class header,
    which is not part of the sources at hand; it is the sign of its
    argument as an [int], 1 or -1, and 0 for 0 as the usual
    [(0 < val) - (val < 0)]. *)
Definition sgn (val : R) : Z :=
  ((if Rlt_dec 0 val then 1 else 0) - (if Rlt_dec val 0 then 1 else 0))%Z.

Definition negative_determinant : list token :=
  [Str "Error : determinant of quadratic function negative"; Endl].

(** Values written through the pointer arguments of [computeMinTime],
    with the returned duration. *)
Record MinTime := mkMinTime {
  mt_T : R;
  mt_sigma : Z;
  mt_t1 : R;
  mt_tv : R;
  mt_t2 : R;
  mt_out : list token
}.

(** [Kinodynamic::computeMinTime]. *)
Definition computeMinTime (self : Kinodynamic) (p1 p2 v1 v2 : R) : MinTime :=
  let deltaPacc := 0.5 * (v1 - v2) * (Rabs (v2 - v1) / aMax_ self) in
  let sigma := sgn (p2 - p1 - deltaPacc) in
  let a1 := IZR sigma * aMax_ self in
  let a2 := - a1 in
  let vLim := IZR sigma * vMax_ self in
  let minT1 := Rmax 0 ((v2 - v1) / a2) in
  let delta :=
    4 * v1 * v1 - 4 * a1 * (((v2 * v2 - v1 * v1) / (2 * a2)) - (p2 - p1)) in
  let out := if Rlt_dec delta 0 then negative_determinant else [] in
  let x1 := (-2 * v1 + sqrt delta) / (2 * a1) in
  let x2 := (-2 * v1 - sqrt delta) / (2 * a1) in
  let x := Rmax x1 x2 in
  let twoSegment0 := if Rgt_dec x minT1 then true else false in
  let t1_0 := if twoSegment0 then x else minT1 in
  let twoSegment :=
    if twoSegment0
    then (if Rgt_dec (v1 + t1_0 * a1) vLim then false else true)
    else false in
  let '(t1, tv, t2) :=
    if twoSegment
    then (t1_0, 0, ((v2 - v1) / a2) + t1_0)
    else ((vLim - v1) / a1,
          (v1 * v1 + v2 * v2 - 2 * vLim * vLim) / (2 * vLim * a1)
            + (p2 - p1) / vLim,
          (v2 - vLim) / a2) in
  {| mt_T := t1 + tv + t2; mt_sigma := sigma;
     mt_t1 := t1; mt_tv := tv; mt_t2 := t2; mt_out := out |}.

(** The quantities [computeMinTime] tests before it settles on two or
    three segments: the sign, the lower bound of [t1], the larger root
    of the quadratic equation and the velocity reached at that root. *)
Definition sigma_of (self : Kinodynamic) (p1 p2 v1 v2 : R) : Z :=
  sgn (p2 - p1 - 0.5 * (v1 - v2) * (Rabs (v2 - v1) / aMax_ self)).

Definition minT1_of (self : Kinodynamic) (p1 p2 v1 v2 : R) : R :=
  let a1 := IZR (sigma_of self p1 p2 v1 v2) * aMax_ self in
  Rmax 0 ((v2 - v1) / (- a1)).

Definition larger_root (self : Kinodynamic) (p1 p2 v1 v2 : R) : R :=
  let a1 := IZR (sigma_of self p1 p2 v1 v2) * aMax_ self in
  let a2 := - a1 in
  let delta :=
    4 * v1 * v1 - 4 * a1 * (((v2 * v2 - v1 * v1) / (2 * a2)) - (p2 - p1)) in
  Rmax ((-2 * v1 + sqrt delta) / (2 * a1)) ((-2 * v1 - sqrt delta) / (2 * a1)).

Definition peak_velocity (self : Kinodynamic) (p1 p2 v1 v2 : R) : R :=
  v1 + larger_root self p1 p2 v1 v2
       * (IZR (sigma_of self p1 p2 v1 v2) * aMax_ self).

(** A steering method with unit bounds, and the one the constructor
    builds for a robot with one axis and its velocity. *)
Definition unit_bounds : Kinodynamic :=
  {| device_ := mkDevice 2 1; aMax_ := 1; vMax_ := 1 |}.

Definition default_bounds : Kinodynamic :=
  {| device_ := mkDevice 2 1; aMax_ := 0.5; vMax_ := 1 |}.

(** The bounds of scenario S5. *)
Definition fast_bounds : Kinodynamic :=
  {| device_ := mkDevice 2 1; aMax_ := 1; vMax_ := 10 |}.

(** Values written through the pointer arguments of
    [fixedTimeTrajectory]. *)
Record FixedTime := mkFixedTime {
  ft_a1 : R;
  ft_a2 : R;
  ft_t1 : R;
  ft_tv : R;
  ft_t2 : R;
  ft_out : list token
}.

(** [Kinodynamic::fixedTimeTrajectory]. *)
Definition fixedTimeTrajectory (self : Kinodynamic) (T p1 p2 v1 v2 : R)
  : FixedTime :=
  let v12 := v1 + v2 in
  let v2_1 := v2 - v1 in
  let p2_1 := p2 - p1 in
  let delta :=
    4 * T * T * (v12 * v12 * v2_1 * v2_1) - 16 * T * v12 * p2_1
      + 16 * p2_1 * p2_1 in
  let out := if Rlt_dec delta 0 then negative_determinant else [] in
  let b := 2 * T * v12 - 4 * p2_1 in
  let a_2 := 2 * T * T in
  let x1 := (- b - sqrt delta) / a_2 in
  let x2 := (- b + sqrt delta) / a_2 in
  let a1_0 := if Rgt_dec (Rabs x1) (Rabs x2) then x1 else x2 in
  let t1_0 := 0.5 * ((v2_1 / a1_0) + T) in
  let vLim := IZR (sgn a1_0) * vMax_ self in
  if Rlt_dec (v1 + t1_0 * a1_0) vLim
  then {| ft_a1 := a1_0; ft_a2 := - a1_0; ft_t1 := t1_0;
          ft_tv := 0; ft_t2 := T - t1_0; ft_out := out |}
  else
    let a1 :=
      ((vLim - v1) * (vLim - v1) + (vLim - v2) * (vLim - v2))
        / (2 * (vLim * T - p2_1)) in
    let a2 := - a1 in
    {| ft_a1 := a1; ft_a2 := a2;
       ft_t1 := (vLim - v1) / a1;
       ft_tv := (v1 * v1 + v2 * v2 - 2 * vLim * vLim) / (2 * vLim * a1)
                  + (p2 - p1) / vLim;
       ft_t2 := (v2 - vLim) / a2; ft_out := out |}.

End Steering.

(* ===================================================================== *)
(** ** roadmap.cc: data *)
(* ===================================================================== *)

Local Open Scope Q_scope.

Definition value_type := Q.

(** [Configuration_t]: a vector of coordinates. *)
Definition Configuration := list value_type.

(** [operator==] on configurations: same size, same coordinates. *)
Fixpoint config_eqb (a b : Configuration) : bool :=
  match a, b with
  | [], [] => true
  | x :: a', y :: b' => Qeq_bool x y && config_eqb a' b'
  | _, _ => false
  end.

(** [Distance]: an object called on two configurations. *)
Definition Distance := Configuration -> Configuration -> value_type.

(** A [value_type] that may be
    [std::numeric_limits<value_type>::infinity ()]. *)
Inductive distance_t :=
| Finite (d : value_type)
| Infinity.

(** [a < b] on such values. *)
Definition dist_lt (a b : distance_t) : bool :=
  match a, b with
  | Finite x, Finite y => if Qlt_le_dec x y then true else false
  | Finite _, Infinity => true
  | Infinity, _ => false
  end.

Abbreviation NodePtr_t := positive (only parsing).
Abbreviation EdgePtr_t := positive (only parsing).
Abbreviation ConnectedComponentPtr_t := positive (only parsing).

(** [new]: an address not in use in the store. *)
Definition new_ptr {A : Type} (store : gmap positive A) : positive :=
  fresh (dom store).

Module Node.

Record t := mk {
  configuration_ : Configuration;
  connectedComponent_ : ConnectedComponentPtr_t;
  outEdges_ : list EdgePtr_t;
  inEdges_ : list EdgePtr_t
}.

(** Modelled from the spec: node.cc is not part of the sources at
    hand.  A node owns its configuration, a back reference to its
    component and its incident edges, incoming and outgoing; a new
    node has no edge. *)
Definition create (q : Configuration) (cc : ConnectedComponentPtr_t) : t :=
  mk q cc [] [].

(** Modelled from the spec: [addOutEdge] of node.cc, the edge joins
    the outgoing edges. *)
Definition addOutEdge (edge : EdgePtr_t) (n : t) : t :=
  mk (configuration_ n) (connectedComponent_ n)
     (outEdges_ n ++ [edge]) (inEdges_ n).

(** Modelled from the spec: [addInEdge] of node.cc, the edge joins
    the incoming edges. *)
Definition addInEdge (edge : EdgePtr_t) (n : t) : t :=
  mk (configuration_ n) (connectedComponent_ n)
     (outEdges_ n) (inEdges_ n ++ [edge]).

(** Modelled from the spec: [connectedComponent (cc)] of node.cc, the
    setter of the back reference. *)
Definition set_connectedComponent (cc : ConnectedComponentPtr_t) (n : t) : t :=
  mk (configuration_ n) cc (outEdges_ n) (inEdges_ n).

End Node.

Module ConnectedComponent.

Record t := mk {
  nodes_ : list NodePtr_t;
  reachableTo_ : gset ConnectedComponentPtr_t;
  reachableFrom_ : gset ConnectedComponentPtr_t
}.

(** Modelled from the spec: connected-component.cc is not part of the
    sources at hand; the operations of this module follow section 4.2
    and the merge algorithm of section 4.1.  A new component has no
    node and reaches no other. *)
Definition create : t := mk [] ∅ ∅.

(** Modelled from the spec: [addNode] of connected-component.cc, the
    node joins the members. *)
Definition addNode (n : NodePtr_t) (c : t) : t :=
  mk (nodes_ c ++ [n]) (reachableTo_ c) (reachableFrom_ c).

(** [reachableTo_.insert (cc)], as [Roadmap::connect] does on the
    member of the component. *)
Definition insert_reachableTo (cc : ConnectedComponentPtr_t) (c : t) : t :=
  mk (nodes_ c) ({[cc]} ∪ reachableTo_ c) (reachableFrom_ c).

(** [reachableFrom_.insert (cc)]. *)
Definition insert_reachableFrom (cc : ConnectedComponentPtr_t) (c : t) : t :=
  mk (nodes_ c) (reachableTo_ c) ({[cc]} ∪ reachableFrom_ c).

(** Modelled from the spec: the components the [reachable_to] set of
    the component at [c] names; none where no component exists. *)
Definition successors (ccs : gmap ConnectedComponentPtr_t t)
    (c : ConnectedComponentPtr_t) : gset ConnectedComponentPtr_t :=
  match ccs !! c with
  | Some obj => reachableTo_ obj
  | None => ∅
  end.

(** One round of the traversal: the components visited so far and
    those their sets name. *)
Definition expand (ccs : gmap ConnectedComponentPtr_t t)
    (visited : gset ConnectedComponentPtr_t) : gset ConnectedComponentPtr_t :=
  visited ∪ set_bind (successors ccs) visited.

(** Modelled from the spec: the downward closure of section 4.1,
    [this], the components its [reachable_to] set names and those
    reached from them through their own sets.  One round at least
    visits a component not seen before, or none does any more, so as
    many rounds as there are components are enough.  [this] is the
    address of [self]. *)
Definition downward (ccs : gmap ConnectedComponentPtr_t t)
    (this : ConnectedComponentPtr_t) (self : t)
  : gset ConnectedComponentPtr_t :=
  Nat.iter (size ccs) (expand ccs) ({[this]} ∪ reachableTo_ self).

(** Modelled from the spec: [can_reach], whether [cc] is in the
    downward closure of [this]; reflexive reachability is implicit.
    Where the sets are transitively closed, as section 4.2 has them,
    this is membership in [reachable_to]. *)
Definition canReach (ccs : gmap ConnectedComponentPtr_t t)
    (this : ConnectedComponentPtr_t) (self : t)
    (cc : ConnectedComponentPtr_t) : bool :=
  bool_decide (cc ∈ downward ccs this self).

(** Modelled from the spec: [c] can reach [cc], for a component [c]
    that exists. *)
Definition reaches (ccs : gmap ConnectedComponentPtr_t t)
    (cc c : ConnectedComponentPtr_t) : bool :=
  match ccs !! c with
  | Some obj => canReach ccs c obj cc
  | None => false
  end.

(** Modelled from the spec: the set [R] of section 4.1, the
    components that [this] can reach and that can reach [cc]. *)
Definition between (ccs : gmap ConnectedComponentPtr_t t)
    (this : ConnectedComponentPtr_t) (self : t)
    (cc : ConnectedComponentPtr_t) : gset ConnectedComponentPtr_t :=
  filter (λ c, reaches ccs cc c = true) (downward ccs this self).

(** Modelled from the spec: [can_reach_collecting], same boolean
    result as [can_reach], with the set of components in between. *)
Definition canReach_collect (ccs : gmap ConnectedComponentPtr_t t)
    (this : ConnectedComponentPtr_t) (self : t)
    (cc : ConnectedComponentPtr_t)
  : bool * gset ConnectedComponentPtr_t :=
  (canReach ccs this self cc, between ccs this self cc).

(** Modelled from the spec: [old] replaced by [new] in a reachability
    set, the rewriting step of the merge algorithm. *)
Definition replace_cc (old new : ConnectedComponentPtr_t)
    (s : gset ConnectedComponentPtr_t) : gset ConnectedComponentPtr_t :=
  if decide (old ∈ s) then {[new]} ∪ (s ∖ {[old]}) else s.

(** Modelled from the spec: the rewriting step on the two sets of a
    component. *)
Definition rewrite_cc (old new : ConnectedComponentPtr_t) (c : t) : t :=
  mk (nodes_ c) (replace_cc old new (reachableTo_ c))
     (replace_cc old new (reachableFrom_ c)).

(** Modelled from the spec: absorbing [other] into [this].  The nodes
    of [other] move into [this] and point to it; the reachability
    sets are united, minus the two components; every other component
    has [other] replaced by [this] in its sets. *)
Definition merge (this other : ConnectedComponentPtr_t)
    (nodes : gmap NodePtr_t Node.t) (ccs : gmap ConnectedComponentPtr_t t)
  : option (gmap NodePtr_t Node.t * gmap ConnectedComponentPtr_t t) :=
  match ccs !! this, ccs !! other with
  | Some c, Some c' =>
      let nodes' :=
        foldr (λ n h, alter (Node.set_connectedComponent this) n h)
              nodes (nodes_ c') in
      let merged :=
        mk (nodes_ c ++ nodes_ c')
           ((reachableTo_ c ∪ reachableTo_ c') ∖ {[this; other]})
           ((reachableFrom_ c ∪ reachableFrom_ c') ∖ {[this; other]}) in
      let emptied := mk [] (reachableTo_ c') (reachableFrom_ c') in
      Some (nodes',
            <[this := merged]>
              (<[other := emptied]> (rewrite_cc other this <$> ccs)))
  | _, _ => None
  end.

End ConnectedComponent.

Module KDTree.

(** Modelled from the spec: k-d-tree.cc is not part of the sources at
    hand.  The tree is represented by the nodes passed to [addNode],
    in insertion order; [search] returns what section 4.3 and
    property 5 say the branch-and-bound search returns: the nearest
    node among those of the component, ties broken by insertion
    order. *)
Record t := mk {
  distance_ : Distance;
  bucketSize_ : nat;
  nodes_ : list NodePtr_t
}.

(** Modelled from the spec: [new (robot, distance, bucket_size)]. *)
Definition create (distance : Distance) (bucketSize : nat) : t :=
  mk distance bucketSize [].

(** Modelled from the spec: [add (node)]; every node added is found by
    the searches that include its component. *)
Definition addNode (n : NodePtr_t) (tree : t) : t :=
  mk (distance_ tree) (bucketSize_ tree) (nodes_ tree ++ [n]).

(** Modelled from the spec: [clear ()] drops the nodes. *)
Definition clear (tree : t) : t :=
  mk (distance_ tree) (bucketSize_ tree) [].

(** Modelled from the spec: one step of a scan, [n] replaces the best
    node so far when it is kept and is strictly nearer. *)
Definition scan (nodes : gmap NodePtr_t Node.t) (distance : Distance)
    (q : Configuration) (keep : Node.t -> bool)
    (best : option NodePtr_t * distance_t) (n : NodePtr_t)
  : option NodePtr_t * distance_t :=
  match nodes !! n with
  | Some obj =>
      if keep obj
      then
        let d := Finite (distance q (Node.configuration_ obj)) in
        if dist_lt d (snd best) then (Some n, d) else best
      else best
  | None => best
  end.

(** Modelled from the spec: the nodes a search restricted to [cc]
    looks at, those whose component is [cc]. *)
Definition in_component (cc : ConnectedComponentPtr_t) (obj : Node.t) : bool :=
  bool_decide (Node.connectedComponent_ obj = cc).

(** Modelled from the spec: [search (configuration,
    connectedComponent, minDistance)], the node found and the distance
    written to [minDistance].  For a component without node in the
    tree, which the precondition of section 4.1 excludes, the model
    answers the null pointer and infinity. *)
Definition search (nodes : gmap NodePtr_t Node.t) (tree : t)
    (q : Configuration) (cc : ConnectedComponentPtr_t)
  : option NodePtr_t * distance_t :=
  fold_left (scan nodes (distance_ tree) q (in_component cc)) (nodes_ tree)
            (None, Infinity).

End KDTree.

(** [Path]: an abstract class; the roadmap only calls [reverse]. *)
Class PathClass (Path : Type) := reverse : Path -> Path.

Record Edge (Path : Type) := mkEdge {
  from_ : NodePtr_t;
  to_ : NodePtr_t;
  path_ : Path
}.
Arguments mkEdge {Path}.
Arguments from_ {Path}.
Arguments to_ {Path}.
Arguments path_ {Path}.

Record Roadmap := mkRoadmap {
  distance_ : Distance;
  connectedComponents_ : gset ConnectedComponentPtr_t;
  nodes_ : list NodePtr_t;
  edges_ : list EdgePtr_t;
  initNode_ : option NodePtr_t;
  goalNodes_ : list NodePtr_t;
  kdTree_ : KDTree.t
}.

(** The roadmap and the objects its pointers refer to.  A component
    that [merge] erases from the roadmap stays in its store, out of
    use; [clear] deletes the nodes and the edges. *)
Record State (Path : Type) := mkState {
  roadmap : Roadmap;
  nodeHeap : gmap NodePtr_t Node.t;
  ccHeap : gmap ConnectedComponentPtr_t ConnectedComponent.t;
  edgeHeap : gmap EdgePtr_t (Edge Path)
}.
Arguments mkState {Path}.
Arguments roadmap {Path}.
Arguments nodeHeap {Path}.
Arguments ccHeap {Path}.
Arguments edgeHeap {Path}.

(* ===================================================================== *)
(** ** roadmap.cc: operations *)
(* ===================================================================== *)

Module Roadmap.

Section Operations.

Context {Path : Type} {PathOps : PathClass Path}.

(** A member function of [Roadmap] reads and writes the state and may
    stop the program (failed assertion, access through a null or
    dangling pointer). *)
Definition M (A : Type) : Type := State Path -> option (A * State Path).

Definition ret {A : Type} (a : A) : M A := λ s, Some (a, s).

Definition bind {A B : Type} (m : M A) (k : A -> M B) : M B :=
  λ s, match m s with
       | Some (a, s') => k a s'
       | None => None
       end.

Definition abort {A : Type} : M A := λ _, None.

Definition get : M (State Path) := λ s, Some (s, s).

Definition gets {A : Type} (f : State Path -> A) : M A := λ s, Some (f s, s).

Definition modify (f : State Path -> State Path) : M unit :=
  λ s, Some (tt, f s).

Notation "'let*' x ':=' m 'in' k" := (bind m (fun x => k))
  (at level 10, x pattern, m at level 100, k at level 200).

(** [assert (b)]. *)
Definition assert (b : bool) : M unit := if b then ret tt else abort.

(** Access through a pointer that may be null. *)
Definition nonnull {A : Type} (p : option A) : M A :=
  match p with
  | Some a => ret a
  | None => abort
  end.

(** [for (it = l.begin (); it != l.end (); ++it) body], with the local
    variables the body updates as accumulator. *)
Fixpoint for_each {A B : Type} (l : list A) (acc : B)
    (body : A -> B -> M B) : M B :=
  match l with
  | [] => ret acc
  | x :: l' => let* acc' := body x acc in for_each l' acc' body
  end.

(** *** Field updates *)

Definition with_roadmap (f : Roadmap -> Roadmap) (s : State Path) : State Path :=
  mkState (f (roadmap s)) (nodeHeap s) (ccHeap s) (edgeHeap s).

Definition with_nodeHeap (f : gmap NodePtr_t Node.t -> gmap NodePtr_t Node.t)
    (s : State Path) : State Path :=
  mkState (roadmap s) (f (nodeHeap s)) (ccHeap s) (edgeHeap s).

Definition with_ccHeap
    (f : gmap ConnectedComponentPtr_t ConnectedComponent.t
         -> gmap ConnectedComponentPtr_t ConnectedComponent.t)
    (s : State Path) : State Path :=
  mkState (roadmap s) (nodeHeap s) (f (ccHeap s)) (edgeHeap s).

Definition with_edgeHeap
    (f : gmap EdgePtr_t (Edge Path) -> gmap EdgePtr_t (Edge Path))
    (s : State Path) : State Path :=
  mkState (roadmap s) (nodeHeap s) (ccHeap s) (f (edgeHeap s)).

Definition set_connectedComponents (ccs : gset ConnectedComponentPtr_t)
    (r : Roadmap) : Roadmap :=
  mkRoadmap (distance_ r) ccs (nodes_ r) (edges_ r) (initNode_ r)
            (goalNodes_ r) (kdTree_ r).

Definition set_nodes (l : list NodePtr_t) (r : Roadmap) : Roadmap :=
  mkRoadmap (distance_ r) (connectedComponents_ r) l (edges_ r) (initNode_ r)
            (goalNodes_ r) (kdTree_ r).

Definition set_edges (l : list EdgePtr_t) (r : Roadmap) : Roadmap :=
  mkRoadmap (distance_ r) (connectedComponents_ r) (nodes_ r) l (initNode_ r)
            (goalNodes_ r) (kdTree_ r).

Definition set_initNode (n : option NodePtr_t) (r : Roadmap) : Roadmap :=
  mkRoadmap (distance_ r) (connectedComponents_ r) (nodes_ r) (edges_ r) n
            (goalNodes_ r) (kdTree_ r).

Definition set_goalNodes (l : list NodePtr_t) (r : Roadmap) : Roadmap :=
  mkRoadmap (distance_ r) (connectedComponents_ r) (nodes_ r) (edges_ r)
            (initNode_ r) l (kdTree_ r).

Definition set_kdTree (t : KDTree.t) (r : Roadmap) : Roadmap :=
  mkRoadmap (distance_ r) (connectedComponents_ r) (nodes_ r) (edges_ r)
            (initNode_ r) (goalNodes_ r) t.

(** *** Objects behind pointers *)

(** [*n], for a node pointer. *)
Definition node_at (n : NodePtr_t) : M Node.t :=
  let* s := get in nonnull (nodeHeap s !! n).

(** [*cc], for a connected component pointer. *)
Definition cc_at (cc : ConnectedComponentPtr_t) : M ConnectedComponent.t :=
  let* s := get in nonnull (ccHeap s !! cc).

(** [n->f (...)] for a member function [f] that updates the node. *)
Definition update_node (n : NodePtr_t) (f : Node.t -> Node.t) : M unit :=
  let* obj := node_at n in
  modify (with_nodeHeap (λ h, <[n := f obj]> h)).

(** [cc->f (...)] for a member function [f] that updates the component. *)
Definition update_cc (cc : ConnectedComponentPtr_t)
    (f : ConnectedComponent.t -> ConnectedComponent.t) : M unit :=
  let* obj := cc_at cc in
  modify (with_ccHeap (λ h, <[cc := f obj]> h)).

(** [new Node (configuration)]: the constructor creates a new connected
    component for the node. *)
Definition new_Node (configuration : Configuration) : M NodePtr_t :=
  let* s := get in
  let cc := new_ptr (ccHeap s) in
  let node := new_ptr (nodeHeap s) in
  let* _ := modify (with_ccHeap (λ h, <[cc := ConnectedComponent.create]> h)) in
  let* _ := modify (with_nodeHeap
                      (λ h, <[node := Node.create configuration cc]> h)) in
  ret node.

(** [new Node (configuration, connectedComponent)]. *)
Definition new_Node_in (configuration : Configuration)
    (connectedComponent : ConnectedComponentPtr_t) : M NodePtr_t :=
  let* s := get in
  let node := new_ptr (nodeHeap s) in
  let* _ := modify (with_nodeHeap
               (λ h, <[node := Node.create configuration connectedComponent]> h)) in
  ret node.

(** [new Edge (from, to, path)]. *)
Definition new_Edge (from to : NodePtr_t) (path : Path) : M EdgePtr_t :=
  let* s := get in
  let edge := new_ptr (edgeHeap s) in
  let* _ := modify (with_edgeHeap (λ h, <[edge := mkEdge from to path]> h)) in
  ret edge.

(** *** Member functions *)

(** [Roadmap::create] and the constructor: an empty roadmap, bucket
    size 30; the stores hold no object of this roadmap yet. *)
Definition create (distance : Distance) : State Path :=
  mkState (mkRoadmap distance ∅ [] [] None [] (KDTree.create distance 30))
          ∅ ∅ ∅.

(** [Roadmap::clear]. *)
Definition clear : M unit :=
  let* s := get in
  let* _ := modify (with_roadmap (set_connectedComponents ∅)) in
  let* _ := modify (with_nodeHeap
               (λ h, foldr (λ n h', delete n h') h (nodes_ (roadmap s)))) in
  let* _ := modify (with_roadmap (set_nodes [])) in
  let* _ := modify (with_edgeHeap
               (λ h, foldr (λ e h', delete e h') h (edges_ (roadmap s)))) in
  let* _ := modify (with_roadmap (set_edges [])) in
  let* _ := modify (with_roadmap (set_goalNodes [])) in
  let* _ := modify (with_roadmap (set_initNode None)) in
  modify (with_roadmap (λ r, set_kdTree (KDTree.clear (kdTree_ r)) r)).

(** [kdTree_.search (configuration, cc, distance)]. *)
Definition kdTree_search (configuration : Configuration)
    (cc : ConnectedComponentPtr_t) : M (option NodePtr_t * distance_t) :=
  gets (λ s, KDTree.search (nodeHeap s) (kdTree_ (roadmap s)) configuration cc).

(** [kdTree_.addNode (node)]. *)
Definition kdTree_addNode (node : NodePtr_t) : M unit :=
  modify (with_roadmap (λ r, set_kdTree (KDTree.addNode node (kdTree_ r)) r)).

(** [Roadmap::nearestNode (configuration, minDistance)]: the node
    returned and the value left in [minDistance].  The components are
    visited in the order of [elements], which stands for the order of
    the addresses in the [std::set]. *)
Definition nearestNode (configuration : Configuration)
  : M (option NodePtr_t * distance_t) :=
  let* s := get in
  for_each (elements (connectedComponents_ (roadmap s))) (None, Infinity)
    (fun itcc '(closest, minDistance) =>
       let* (node, distance) := kdTree_search configuration itcc in
       if dist_lt distance minDistance
       then ret (node, distance)
       else ret (closest, minDistance)).

(** [Roadmap::nearestNode (configuration, connectedComponent,
    minDistance)]. *)
Definition nearestNode_in (configuration : Configuration)
    (connectedComponent : ConnectedComponentPtr_t)
  : M (option NodePtr_t * distance_t) :=
  let* cc := cc_at connectedComponent in
  let* _ := assert (negb (length (ConnectedComponent.nodes_ cc) =? 0)%nat) in
  kdTree_search configuration connectedComponent.

(** [Roadmap::addConnectedComponent]. *)
Definition addConnectedComponent (node : NodePtr_t) : M unit :=
  let* obj := node_at node in
  let cc := Node.connectedComponent_ obj in
  let* _ := modify (with_roadmap
               (λ r, set_connectedComponents
                       ({[cc]} ∪ connectedComponents_ r) r)) in
  let* _ := update_cc cc (ConnectedComponent.addNode node) in
  kdTree_addNode node.

(** [Roadmap::addNode (configuration)]. *)
Definition addNode (configuration : Configuration) : M NodePtr_t :=
  let* s := get in
  let* found :=
    if negb (length (nodes_ (roadmap s)) =? 0)%nat
    then
      let* (nearest, distance) := nearestNode configuration in
      let* nearest_ptr := nonnull nearest in
      let* nearest_obj := node_at nearest_ptr in
      if config_eqb (Node.configuration_ nearest_obj) configuration
      then ret (Some nearest_ptr)
      else ret None
    else ret None in
  match found with
  | Some nearest => ret nearest
  | None =>
      let* node := new_Node configuration in
      let* _ := modify (with_roadmap (λ r, set_nodes (nodes_ r ++ [node]) r)) in
      let* _ := addConnectedComponent node in
      ret node
  end.

(** [Roadmap::addNode (configuration, connectedComponent)]. *)
Definition addNode_in (configuration : Configuration)
    (connectedComponent : ConnectedComponentPtr_t) : M NodePtr_t :=
  let* s := get in
  let* found :=
    if negb (length (nodes_ (roadmap s)) =? 0)%nat
    then
      let* (nearest, distance) :=
        nearestNode_in configuration connectedComponent in
      let* nearest_ptr := nonnull nearest in
      let* nearest_obj := node_at nearest_ptr in
      if config_eqb (Node.configuration_ nearest_obj) configuration
      then ret (Some nearest_ptr)
      else ret None
    else ret None in
  match found with
  | Some nearest => ret nearest
  | None =>
      let* node := new_Node_in configuration connectedComponent in
      let* _ := modify (with_roadmap (λ r, set_nodes (nodes_ r ++ [node]) r)) in
      let* _ := update_cc connectedComponent (ConnectedComponent.addNode node) in
      let* _ := kdTree_addNode node in
      ret node
  end.

Definition edges_push_back (edge : EdgePtr_t) : M unit :=
  modify (with_roadmap (λ r, set_edges (edges_ r ++ [edge]) r)).

(** [Roadmap::addEdges]. *)
Definition addEdges (from to : NodePtr_t) (path : Path) : M unit :=
  let* edge := new_Edge from to path in
  let* _ := update_node from (Node.addOutEdge edge) in
  let* _ := update_node to (Node.addInEdge edge) in
  let* _ := edges_push_back edge in
  let* edge := new_Edge to from (reverse path) in
  let* _ := update_node from (Node.addInEdge edge) in
  let* _ := update_node to (Node.addOutEdge edge) in
  edges_push_back edge.

(** [Roadmap::addNodeAndEdges]. *)
Definition addNodeAndEdges (from : NodePtr_t) (to : Configuration)
    (path : Path) : M NodePtr_t :=
  let* from_obj := node_at from in
  let* nodeTo := addNode_in to (Node.connectedComponent_ from_obj) in
  let* _ := addEdges from nodeTo path in
  ret nodeTo.

(** [cc1->canReach (cc2)]. *)
Definition canReach (cc1 cc2 : ConnectedComponentPtr_t) : M bool :=
  let* s := get in
  let* obj := cc_at cc1 in
  ret (ConnectedComponent.canReach (ccHeap s) cc1 obj cc2).

(** [cc2->canReach (cc1, cc2Tocc1)]: the result and the set filled. *)
Definition canReach_collect (cc2 cc1 : ConnectedComponentPtr_t)
  : M (bool * gset ConnectedComponentPtr_t) :=
  let* s := get in
  let* obj := cc_at cc2 in
  ret (ConnectedComponent.canReach_collect (ccHeap s) cc2 obj cc1).

(** [cc1->merge (other)]. *)
Definition cc_merge (cc1 other : ConnectedComponentPtr_t) : M unit :=
  let* s := get in
  let* (nodes, ccs) :=
    nonnull (ConnectedComponent.merge cc1 other (nodeHeap s) (ccHeap s)) in
  let* _ := modify (with_nodeHeap (λ _, nodes)) in
  modify (with_ccHeap (λ _, ccs)).

(** [connectedComponents_.erase (cc)]: the number of elements removed. *)
Definition connectedComponents_erase (cc : ConnectedComponentPtr_t) : M nat :=
  let* s := get in
  let nb := if bool_decide (cc ∈ connectedComponents_ (roadmap s))
            then 1%nat else 0%nat in
  let* _ := modify (with_roadmap
               (λ r, set_connectedComponents
                       (connectedComponents_ r ∖ {[cc]}) r)) in
  ret nb.

(** [Roadmap::merge]. *)
Definition merge (cc1 : ConnectedComponentPtr_t)
    (ccs : gset ConnectedComponentPtr_t) : M unit :=
  for_each (elements ccs) tt
    (λ itcc _,
       if negb (bool_decide (itcc = cc1))
       then
         let* _ := cc_merge cc1 itcc in
         let* nb := connectedComponents_erase itcc in
         assert (nb =? 1)%nat
       else ret tt).

(** [Roadmap::connect]. *)
Definition connect (cc1 cc2 : ConnectedComponentPtr_t) : M unit :=
  let* reached := canReach cc1 cc2 in
  if reached then ret tt
  else
    let* (back, cc2Tocc1) := canReach_collect cc2 cc1 in
    if back
    then merge cc1 cc2Tocc1
    else
      let* _ := update_cc cc1 (ConnectedComponent.insert_reachableTo cc2) in
      update_cc cc2 (ConnectedComponent.insert_reachableFrom cc1).

(** [Roadmap::addEdge]. *)
Definition addEdge (n1 n2 : NodePtr_t) (path : Path) : M EdgePtr_t :=
  let* edge := new_Edge n1 n2 path in
  let* _ := update_node n1 (Node.addOutEdge edge) in
  let* _ := update_node n2 (Node.addInEdge edge) in
  let* _ := edges_push_back edge in
  let* n1_obj := node_at n1 in
  let* n2_obj := node_at n2 in
  let cc1 := Node.connectedComponent_ n1_obj in
  let cc2 := Node.connectedComponent_ n2_obj in
  let* _ := connect cc1 cc2 in
  ret edge.

(** Modelled from the spec: [set_init (n)], bookkeeping; the function
    is declared in the class header, which is not part of the sources
    at hand. *)
Definition initNode (n : NodePtr_t) : M unit :=
  modify (with_roadmap (set_initNode (Some n))).

(** [Roadmap::addGoalNode]. *)
Definition addGoalNode (config : Configuration) : M unit :=
  let* node := addNode config in
  modify (with_roadmap (λ r, set_goalNodes (goalNodes_ r ++ [node]) r)).

(** [Roadmap::pathExists]: the loop returns at the first goal node the
    component of the init node can reach. *)
Definition pathExists : M bool :=
  let* s := get in
  let* init := nonnull (initNode_ (roadmap s)) in
  let* init_obj := node_at init in
  let ccInit := Node.connectedComponent_ init_obj in
  for_each (goalNodes_ (roadmap s)) false
    (λ itGoal found,
       if found then ret true
       else
         let* goal_obj := node_at itGoal in
         canReach ccInit (Node.connectedComponent_ goal_obj)).

(** *** States of a roadmap in use *)

(** What the member functions maintain: the tree indexes the nodes of
    the roadmap with the roadmap's distance; a node of the roadmap
    points to a component of the roadmap that lists it; the components
    of the roadmap exist and refer to components of the roadmap. *)
Record wf (s : State Path) : Prop := mk_wf {
  wf_kd_nodes : KDTree.nodes_ (kdTree_ (roadmap s)) = nodes_ (roadmap s);
  wf_kd_distance :
    KDTree.distance_ (kdTree_ (roadmap s)) = distance_ (roadmap s);
  wf_node : ∀ n, n ∈ nodes_ (roadmap s) ->
    ∃ obj cobj,
      nodeHeap s !! n = Some obj
      ∧ Node.connectedComponent_ obj ∈ connectedComponents_ (roadmap s)
      ∧ ccHeap s !! Node.connectedComponent_ obj = Some cobj
      ∧ n ∈ ConnectedComponent.nodes_ cobj;
  wf_cc : ∀ c, c ∈ connectedComponents_ (roadmap s) ->
    ∃ cobj,
      ccHeap s !! c = Some cobj
      ∧ ConnectedComponent.reachableTo_ cobj ⊆ connectedComponents_ (roadmap s)
      ∧ ConnectedComponent.reachableFrom_ cobj
          ⊆ connectedComponents_ (roadmap s)
}.

(** The states a client can bring a roadmap to: calls that return, on
    nodes and components of the roadmap. *)
Inductive reachable : State Path -> Prop :=
| reachable_create distance :
    reachable (create distance)
| reachable_clear s s' :
    reachable s -> clear s = Some (tt, s') -> reachable s'
| reachable_addNode s q n s' :
    reachable s -> addNode q s = Some (n, s') -> reachable s'
| reachable_addNode_in s q cc n s' :
    reachable s -> cc ∈ connectedComponents_ (roadmap s) ->
    addNode_in q cc s = Some (n, s') -> reachable s'
| reachable_addEdge s n1 n2 path e s' :
    reachable s -> n1 ∈ nodes_ (roadmap s) -> n2 ∈ nodes_ (roadmap s) ->
    addEdge n1 n2 path s = Some (e, s') -> reachable s'
| reachable_addEdges s from to path s' :
    reachable s -> from ∈ nodes_ (roadmap s) -> to ∈ nodes_ (roadmap s) ->
    addEdges from to path s = Some (tt, s') -> reachable s'
| reachable_addNodeAndEdges s from to path n s' :
    reachable s -> from ∈ nodes_ (roadmap s) ->
    addNodeAndEdges from to path s = Some (n, s') -> reachable s'
| reachable_addGoalNode s q s' :
    reachable s -> addGoalNode q s = Some (tt, s') -> reachable s'
| reachable_initNode s n s' :
    reachable s -> n ∈ nodes_ (roadmap s) ->
    initNode n s = Some (tt, s') -> reachable s'.

(** The distance of section 6: non-negative, zero exactly between
    equal configurations. *)
Definition metric (distance : Distance) : Prop :=
  (∀ a b, 0 <= distance a b)
  ∧ (∀ a b, distance a b == 0 <-> config_eqb a b = true).

(** [a <= b] on distances that may be infinite. *)
Definition dist_le (a b : distance_t) : Prop :=
  match a, b with
  | Finite x, Finite y => x <= y
  | _, Infinity => True
  | Infinity, Finite _ => False
  end.

(** The brute-force scan of property 5: every node of the roadmap in
    insertion order, the first nearest one kept. *)
Definition bruteForce (s : State Path) (q : Configuration)
  : option NodePtr_t * distance_t :=
  fold_left (KDTree.scan (nodeHeap s) (distance_ (roadmap s)) q (λ _, true))
            (nodes_ (roadmap s)) (None, Infinity).

(** What a scan has in hand: nothing yet, or one of the nodes seen
    that it keeps, with its distance. *)
Definition candidate (nodes : gmap NodePtr_t Node.t) (distance : Distance)
    (q : Configuration) (keep : Node.t -> bool) (l : list NodePtr_t)
    (r : option NodePtr_t * distance_t) : Prop :=
  r = (None, Infinity)
  ∨ ∃ n obj, r = (Some n, Finite (distance q (Node.configuration_ obj)))
             ∧ n ∈ l ∧ nodes !! n = Some obj ∧ keep obj = true.

(** The body of the loop of [nearestNode], on the local variables. *)
Definition nearest_step (s : State Path) (q : Configuration)
    (best : option NodePtr_t * distance_t) (itcc : ConnectedComponentPtr_t)
  : option NodePtr_t * distance_t :=
  let found := KDTree.search (nodeHeap s) (kdTree_ (roadmap s)) q itcc in
  if dist_lt (snd found) (snd best) then found else best.

(** The state [addNode] leaves when it creates a node for [q]. *)
Definition added (s : State Path) (q : Configuration) : State Path :=
  let cc := new_ptr (ccHeap s) in
  let node := new_ptr (nodeHeap s) in
  mkState
    (mkRoadmap (distance_ (roadmap s))
               ({[cc]} ∪ connectedComponents_ (roadmap s))
               (nodes_ (roadmap s) ++ [node])
               (edges_ (roadmap s)) (initNode_ (roadmap s))
               (goalNodes_ (roadmap s))
               (KDTree.addNode node (kdTree_ (roadmap s))))
    (<[node := Node.create q cc]> (nodeHeap s))
    (<[cc := ConnectedComponent.addNode node ConnectedComponent.create]>
       (<[cc := ConnectedComponent.create]> (ccHeap s)))
    (edgeHeap s).

(** The state one turn of the loop of [merge] leaves: [c] absorbed by
    [cc1] and erased from the components of the roadmap. *)
Definition absorb (cc1 : ConnectedComponentPtr_t) (s : State Path)
    (c : ConnectedComponentPtr_t) : State Path :=
  match ConnectedComponent.merge cc1 c (nodeHeap s) (ccHeap s) with
  | Some (nodes, ccs) =>
      mkState
        (set_connectedComponents
           (connectedComponents_ (roadmap s) ∖ {[c]}) (roadmap s))
        nodes ccs (edgeHeap s)
  | None => s
  end.

(** The state the loop of [merge] leaves. *)
Definition absorb_all (cc1 : ConnectedComponentPtr_t)
    (l : list ConnectedComponentPtr_t) (s : State Path) : State Path :=
  fold_left (λ s' c, if bool_decide (c = cc1) then s' else absorb cc1 s' c)
            l s.

(** The nodes listed by a component, and the component a node points
    to. *)
Definition nodes_of (s : State Path) (c : ConnectedComponentPtr_t)
  : list NodePtr_t :=
  match ccHeap s !! c with
  | Some cobj => ConnectedComponent.nodes_ cobj
  | None => []
  end.

Definition component_of (s : State Path) (n : NodePtr_t)
  : option ConnectedComponentPtr_t :=
  Node.connectedComponent_ <$> nodeHeap s !! n.

(** The state [addNode_in] leaves when it creates a node for [q] in
    the component at [cc]. *)
Definition added_in (s : State Path) (q : Configuration)
    (cc : ConnectedComponentPtr_t) (cobj : ConnectedComponent.t)
  : State Path :=
  let node := new_ptr (nodeHeap s) in
  mkState
    (mkRoadmap (distance_ (roadmap s)) (connectedComponents_ (roadmap s))
               (nodes_ (roadmap s) ++ [node])
               (edges_ (roadmap s)) (initNode_ (roadmap s))
               (goalNodes_ (roadmap s))
               (KDTree.addNode node (kdTree_ (roadmap s))))
    (<[node := Node.create q cc]> (nodeHeap s))
    (<[cc := ConnectedComponent.addNode node cobj]> (ccHeap s))
    (edgeHeap s).

(** What adding an edge keeps of a state: everything but the edges,
    their store and the edge lists of the nodes. *)
Definition same_nodes (s s' : State Path) : Prop :=
  ccHeap s' = ccHeap s
  ∧ connectedComponents_ (roadmap s') = connectedComponents_ (roadmap s)
  ∧ nodes_ (roadmap s') = nodes_ (roadmap s)
  ∧ kdTree_ (roadmap s') = kdTree_ (roadmap s)
  ∧ distance_ (roadmap s') = distance_ (roadmap s)
  ∧ ∀ n obj, nodeHeap s !! n = Some obj ->
      ∃ obj', nodeHeap s' !! n = Some obj'
              ∧ Node.connectedComponent_ obj' = Node.connectedComponent_ obj
              ∧ Node.configuration_ obj' = Node.configuration_ obj.

(** The components of the roadmap and their reachability sets. *)
Definition reachableTo (s : State Path) (c : ConnectedComponentPtr_t)
  : gset ConnectedComponentPtr_t :=
  match ccHeap s !! c with
  | Some cobj => ConnectedComponent.reachableTo_ cobj
  | None => ∅
  end.

Definition reachableFrom (s : State Path) (c : ConnectedComponentPtr_t)
  : gset ConnectedComponentPtr_t :=
  match ccHeap s !! c with
  | Some cobj => ConnectedComponent.reachableFrom_ cobj
  | None => ∅
  end.

(** Property 3 of section 8, on the components of the roadmap. *)
Definition transitively_closed (s : State Path) : Prop :=
  ∀ c1 c2 c3,
    c1 ∈ connectedComponents_ (roadmap s) ->
    c2 ∈ connectedComponents_ (roadmap s) ->
    c3 ∈ connectedComponents_ (roadmap s) ->
    c2 ∈ reachableTo s c1 -> c3 ∈ reachableTo s c2 -> c3 ∈ reachableTo s c1.

(** [c] names [c'] in its [reachable_to] set; a chain of such links,
    possibly empty, is what "[c] can reach [c']" means. *)
Definition link (s : State Path) (c c' : ConnectedComponentPtr_t) : Prop :=
  c' ∈ reachableTo s c.

Definition chain (s : State Path) : relation ConnectedComponentPtr_t :=
  rtc (link s).

(** No two components of the roadmap reach each other. *)
Definition acyclic (s : State Path) : Prop :=
  ∀ c c', c ∈ connectedComponents_ (roadmap s) ->
          c' ∈ connectedComponents_ (roadmap s) ->
          chain s c c' -> chain s c' c -> c = c'.

(** A chain from [a] to [b] that may pass along an edge from [cc1] to
    [cc2] that no link records. *)
Definition via (s : State Path) (cc1 cc2 a b : ConnectedComponentPtr_t)
  : Prop :=
  chain s a b ∨ (chain s a cc1 ∧ chain s cc2 b).

(** The set [R] of the connect algorithm, as [cc2->canReach (cc1,
    cc2Tocc1)] fills it. *)
Definition cycle_of (s : State Path) (cc1 cc2 : ConnectedComponentPtr_t)
  : gset ConnectedComponentPtr_t :=
  match ccHeap s !! cc2 with
  | Some obj => ConnectedComponent.between (ccHeap s) cc2 obj cc1
  | None => ∅
  end.

(** The edge created, attached to its nodes and appended: the part
    [addEdge] and [addEdges] share. *)
Definition attach (from to : NodePtr_t) (path : Path)
    (fa fb : EdgePtr_t -> Node.t -> Node.t) (a b : NodePtr_t) : M EdgePtr_t :=
  bind (new_Edge from to path)
    (λ edge, bind (update_node a (fa edge))
       (λ _, bind (update_node b (fb edge))
          (λ _, bind (edges_push_back edge) (λ _, ret edge)))).

(** The shorthand of section 4.1 for [addEdges]. *)
Definition addEdge_twice (from to : NodePtr_t) (path : Path) : M unit :=
  let* _ := addEdge from to path in
  let* _ := addEdge to from (reverse path) in
  ret tt.

End Operations.

End Roadmap.

(* ===================================================================== *)
(** ** Instances used in examples *)
(* ===================================================================== *)

(** A path that is known by its end configurations. *)
Record StraightPath := mkStraightPath {
  initial_ : Configuration;
  end_ : Configuration
}.

#[export] Instance StraightPath_reverse : PathClass StraightPath :=
  λ p, mkStraightPath (end_ p) (initial_ p).

(** Sum of the absolute differences of the coordinates; vectors of
    different sizes are kept apart. *)
Fixpoint manhattan (a b : Configuration) : value_type :=
  match a, b with
  | [], [] => 0
  | x :: a', y :: b' => Qabs (x - y) + manhattan a' b'
  | _, _ => 1
  end.

(** Roadmaps built by a client, with straight paths and the distance
    above: nodes at three configurations, then edges between them. *)
Module Examples.

Import Roadmap.

(** The state a call leaves, when it returns. *)
Definition after {A : Type} (m : M (Path := StraightPath) A)
    (s : State StraightPath) : State StraightPath :=
  match m s with
  | Some (_, s') => s'
  | None => s
  end.

Definition qA : Configuration := [0; 0].
Definition qB : Configuration := [1; 0].
Definition qC : Configuration := [2; 0].
Definition pAB : StraightPath := mkStraightPath qA qB.
Definition pBC : StraightPath := mkStraightPath qB qC.

Definition empty_roadmap : State StraightPath := create manhattan.
Definition one_node : State StraightPath := after (addNode qA) empty_roadmap.
Definition two_nodes : State StraightPath := after (addNode qB) one_node.
Definition three_nodes : State StraightPath := after (addNode qC) two_nodes.

(** [addEdge] from the first node to the second, then from the second
    to the third. *)
Definition one_edge : State StraightPath :=
  after (addEdge 1 2 pAB) three_nodes.
Definition two_edges : State StraightPath :=
  after (addEdge 2 3 pBC) one_edge.

(** Three nodes with an edge from the second to the third, then one
    from the third to the first: the second component reaches the
    first through the third. *)
Definition pCA : StraightPath := mkStraightPath qC qA.
Definition second_linked : State StraightPath :=
  after (addEdge 2 3 pBC) three_nodes.
Definition chained : State StraightPath :=
  after (addEdge 3 1 pCA) second_linked.

(** Four nodes with edges from the second to the third, from the third
    to the fourth and from the fourth to the first. *)
Definition qD : Configuration := [3; 0].
Definition pCD : StraightPath := mkStraightPath qC qD.
Definition pDA : StraightPath := mkStraightPath qD qA.
Definition four_nodes : State StraightPath := after (addNode qD) three_nodes.
Definition ring : State StraightPath :=
  after (addEdge 4 1 pDA)
    (after (addEdge 3 4 pCD) (after (addEdge 2 3 pBC) four_nodes)).

(** Two nodes joined by [addEdges], and by two calls of [addEdge]. *)
Definition joined_by_addEdges : State StraightPath :=
  after (addEdges 1 2 pAB) two_nodes.
Definition joined_by_addEdge_twice : State StraightPath :=
  after (addEdge_twice 1 2 pAB) two_nodes.

(** The query of property 7: from the first node to the configuration
    of the second. *)
Definition with_query (s : State StraightPath) : State StraightPath :=
  after (addGoalNode qB) (after (initNode 1) s).

End Examples.

(* ===================================================================== *)
(** ** steering-kinodynamic.cc: the motion the durations describe *)
(* ===================================================================== *)

Module Trajectory.
Import Steering.
Local Open Scope R_scope.

(** A motion along one axis in three phases, as the durations that
    [computeMinTime] and [fixedTimeTrajectory] return describe it:
    from velocity [v1], acceleration [a1] during [t1], no acceleration
    during [tv], acceleration [a2] during [t2].  The velocity at the
    end, and the position at the end for a start at [p1]. *)
Definition end_velocity (v1 a1 t1 a2 t2 : R) : R := v1 + a1 * t1 + a2 * t2.

Definition end_position (p1 v1 a1 t1 tv a2 t2 : R) : R :=
  let vc := v1 + a1 * t1 in
  p1 + (v1 * t1 + a1 * t1 * t1 / 2) + vc * tv + (vc * t2 + a2 * t2 * t2 / 2).

(** The determinant [delta] that [computeMinTime] tests. *)
Definition delta_of (self : Kinodynamic) (p1 p2 v1 v2 : R) : R :=
  let a1 := IZR (sigma_of self p1 p2 v1 v2) * aMax_ self in
  let a2 := - a1 in
  4 * v1 * v1 - 4 * a1 * (((v2 * v2 - v1 * v1) / (2 * a2)) - (p2 - p1)).

(** The root of the quadratic equation [fixedTimeTrajectory] keeps as
    first acceleration, and the velocity bound it signs with it. *)
Definition ft_root (T p1 p2 v1 v2 : R) : R :=
  let v12 := v1 + v2 in
  let v2_1 := v2 - v1 in
  let p2_1 := p2 - p1 in
  let delta :=
    4 * T * T * (v12 * v12 * v2_1 * v2_1) - 16 * T * v12 * p2_1
      + 16 * p2_1 * p2_1 in
  let b := 2 * T * v12 - 4 * p2_1 in
  let a_2 := 2 * T * T in
  let x1 := (- b - sqrt delta) / a_2 in
  let x2 := (- b + sqrt delta) / a_2 in
  if Rgt_dec (Rabs x1) (Rabs x2) then x1 else x2.

Definition ft_vLim (self : Kinodynamic) (T p1 p2 v1 v2 : R) : R :=
  IZR (sgn (ft_root T p1 p2 v1 v2)) * vMax_ self.

End Trajectory.
(* ===================================================================== *)
(** ** roadmap.cc: the graph and the components of a roadmap in use *)
(* ===================================================================== *)

Module Invariants.
Import Roadmap.

Section Invariants.

Context {Path : Type}.
Implicit Types (s : State Path).

(** What the member functions maintain of the graph: nodes and edges
    are listed once; the init node and the goal nodes are nodes of the
    roadmap; an edge of the roadmap exists and joins nodes of the
    roadmap; the outgoing edges of a node of the roadmap are the edges
    of the roadmap that leave it, its incoming edges those that reach
    it. *)
Record graph_wf (s : State Path) : Prop := mk_graph_wf {
  gw_nodes : NoDup (nodes_ (roadmap s));
  gw_edges : NoDup (edges_ (roadmap s));
  gw_init : ∀ n, initNode_ (roadmap s) = Some n -> n ∈ nodes_ (roadmap s);
  gw_goal : ∀ g, g ∈ goalNodes_ (roadmap s) -> g ∈ nodes_ (roadmap s);
  gw_edge : ∀ e, e ∈ edges_ (roadmap s) ->
    ∃ ed, edgeHeap s !! e = Some ed
          ∧ from_ ed ∈ nodes_ (roadmap s) ∧ to_ ed ∈ nodes_ (roadmap s);
  gw_out : ∀ n obj e, n ∈ nodes_ (roadmap s) -> nodeHeap s !! n = Some obj ->
    (e ∈ Node.outEdges_ obj
     <-> e ∈ edges_ (roadmap s) ∧ from_ <$> edgeHeap s !! e = Some n);
  gw_in : ∀ n obj e, n ∈ nodes_ (roadmap s) -> nodeHeap s !! n = Some obj ->
    (e ∈ Node.inEdges_ obj
     <-> e ∈ edges_ (roadmap s) ∧ to_ <$> edgeHeap s !! e = Some n)
}.

(** What the member functions maintain of the components: a
    component of the roadmap has a node; the nodes it lists, each
    once, are nodes of the roadmap that point to it; a component is
    among those another one reaches exactly when that one is among
    those that reach it, and is not among those it reaches itself. *)
Record components_wf (s : State Path) : Prop := mk_components_wf {
  cw_nonempty : ∀ c, c ∈ connectedComponents_ (roadmap s) -> nodes_of s c ≠ [];
  cw_listed : ∀ c n, c ∈ connectedComponents_ (roadmap s) -> n ∈ nodes_of s c ->
    n ∈ nodes_ (roadmap s) ∧ component_of s n = Some c;
  cw_nodup : ∀ c, c ∈ connectedComponents_ (roadmap s) -> NoDup (nodes_of s c);
  cw_sym : ∀ c1 c2,
    c1 ∈ connectedComponents_ (roadmap s) ->
    c2 ∈ connectedComponents_ (roadmap s) ->
    (c2 ∈ reachableTo s c1 <-> c1 ∈ reachableFrom s c2);
  cw_irrefl : ∀ c, c ∈ connectedComponents_ (roadmap s) ->
    (c ∉ reachableTo s c) ∧ (c ∉ reachableFrom s c)
}.

(** What a node keeps when its component changes. *)
Definition node_content (obj : Node.t)
  : Configuration * list EdgePtr_t * list EdgePtr_t :=
  (Node.configuration_ obj, Node.outEdges_ obj, Node.inEdges_ obj).

(** What [connect] keeps of a state: the edges and their store, the
    roadmap but for its components, the nodes but for the component
    they point to. *)
Definition same_graph (s s' : State Path) : Prop :=
  edgeHeap s' = edgeHeap s
  ∧ roadmap s'
    = set_connectedComponents (connectedComponents_ (roadmap s')) (roadmap s)
  ∧ ∀ n, node_content <$> nodeHeap s' !! n = node_content <$> nodeHeap s !! n.

End Invariants.

End Invariants.

(* ===================================================================== *)
(** ** roadmap.cc: the dump of a roadmap *)
(* ===================================================================== *)

Module Dump.
Import Roadmap.
Local Open Scope Z_scope.

(** An operand of [<<] in the dump of a roadmap: text, a number or the
    end of a line, or a node, which node.cc displays. *)
Inductive item :=
| Text (t : token)
| NodeDisplay (obj : Node.t).

(** A [std::map] from pointers to numbers, filled by a loop that gives
    each element of [l] the count of the elements before it. *)
Definition number (acc : gmap positive Z * Z) (x : positive)
  : gmap positive Z * Z :=
  (<[x := snd acc]> (fst acc), snd acc + 1).

Definition enumerate (l : list positive) : gmap positive Z :=
  fst (fold_left number l (∅, 0)).

(** [ids [x]]: zero for a key the map does not hold. *)
Definition id_of (ids : gmap positive Z) (x : positive) : Z :=
  default 0 (ids !! x).

Definition rule : list item :=
  [Text (Str "----------------------------------------------------------------------");
   Text Endl].

Definition numbers (ids : gmap positive Z) (l : list positive) : list item :=
  concat (map (λ x, [Text (Num (id_of ids x)); Text (Str ", ")]) l).

Section Dump.

Context {Path : Type}.

Definition nodeId (s : State Path) : gmap positive Z :=
  enumerate (nodes_ (roadmap s)).

Definition ccId (s : State Path) : gmap positive Z :=
  enumerate (elements (connectedComponents_ (roadmap s))).

Definition node_line (s : State Path) (node : NodePtr_t) : option (list item) :=
  obj ← nodeHeap s !! node;
  Some [Text (Str "Node "); Text (Num (id_of (nodeId s) node)); Text (Str ": ");
        NodeDisplay obj; Text Endl].

Definition edge_line (s : State Path) (edge : EdgePtr_t) : option (list item) :=
  obj ← edgeHeap s !! edge;
  Some [Text (Str "Edge: "); Text (Num (id_of (nodeId s) (from_ obj)));
        Text (Str " -> "); Text (Num (id_of (nodeId s) (to_ obj))); Text Endl].

Definition component_lines (s : State Path) (cc : ConnectedComponentPtr_t)
  : option (list item) :=
  obj ← ccHeap s !! cc;
  Some ([Text (Str "Connected component "); Text (Num (id_of (ccId s) cc));
         Text Endl; Text (Str "Nodes : ")]
        ++ numbers (nodeId s) (ConnectedComponent.nodes_ obj)
        ++ [Text Endl; Text (Str "Reachable to :")]
        ++ numbers (ccId s) (elements (ConnectedComponent.reachableTo_ obj))
        ++ [Text Endl; Text (Str "Reachable from :")]
        ++ numbers (ccId s) (elements (ConnectedComponent.reachableFrom_ obj))
        ++ [Text Endl]).

(** [operator<< (std::ostream&, const Roadmap&)]: what is sent to the
    stream, when every pointer the roadmap holds is valid. *)
Definition dump (s : State Path) : option (list item) :=
  node_lines ← mapM (node_line s) (nodes_ (roadmap s));
  edge_lines ← mapM (edge_line s) (edges_ (roadmap s));
  components ← mapM (component_lines s)
                 (elements (connectedComponents_ (roadmap s)));
  Some (rule ++ [Text (Str "Roadmap"); Text Endl] ++ rule
        ++ rule ++ [Text (Str "Nodes"); Text Endl] ++ rule
        ++ concat node_lines
        ++ rule ++ [Text (Str "Edges"); Text Endl] ++ rule
        ++ concat edge_lines
        ++ rule ++ [Text (Str "Connected components"); Text Endl] ++ rule
        ++ concat components
        ++ [Text Endl; Text (Str "----------------"); Text Endl]).

End Dump.

End Dump.

(* ===================================================================== *)
(** ** hppPlanner.cpp *)
(* ===================================================================== *)

Module Planner.

Inductive ktStatus := KD_OK | KD_ERROR.

(** [ChppProblem], a class of hppProblem.h: the planner builds
    problems, stores them by value and calls their member functions.
    A shared pointer is an [option], [None] when null. *)
Class ChppProblem (Problem Robot Config Obstacle KwsPath : Type) := {
  ChppProblem_new : option Robot -> list Obstacle -> Problem;
  getRobot : Problem -> option Robot;
  initConfig : Problem -> option Config;
  set_initConfig : option Config -> Problem -> Problem;
  goalConfig : Problem -> option Config;
  set_goalConfig : option Config -> Problem -> Problem;
  set_obstacleList : list Obstacle -> Problem -> Problem;
  problem_addObstacle : Obstacle -> Problem -> Problem;
  getNbPaths : Problem -> nat;
  getIthPath : nat -> Problem -> option KwsPath;
  problem_addPath : option KwsPath -> Problem -> Problem
}.

(** What [attNotificator] is asked to notify: the identifier and the
    attribute set on the notification. *)
Inductive notification (Robot Obstacle : Type) :=
| ID_HPP_ADD_ROBOT (robot : option Robot)
| ID_HPP_REMOVE_OBSTACLES
| ID_HPP_SET_OBSTACLE_LIST (obstacles : list Obstacle)
| ID_HPP_ADD_OBSTACLE (obstacles : list Obstacle).
Arguments ID_HPP_ADD_ROBOT {Robot Obstacle}.
Arguments ID_HPP_REMOVE_OBSTACLES {Robot Obstacle}.
Arguments ID_HPP_SET_OBSTACLE_LIST {Robot Obstacle}.
Arguments ID_HPP_ADD_OBSTACLE {Robot Obstacle}.

(** The members the functions below use, with the notifications sent
    so far. *)
Record ChppPlanner (Problem Robot Obstacle : Type) := mkChppPlanner {
  hppProblemVector : list Problem;
  mObstacleList : list Obstacle;
  notified : list (notification Robot Obstacle)
}.
Arguments mkChppPlanner {Problem Robot Obstacle}.
Arguments hppProblemVector {Problem Robot Obstacle}.
Arguments mObstacleList {Problem Robot Obstacle}.
Arguments notified {Problem Robot Obstacle}.

Section Members.

Context {Problem Robot Config Obstacle KwsPath : Type}.
Context {ProblemOps : ChppProblem Problem Robot Config Obstacle KwsPath}.

Abbreviation planner := (ChppPlanner Problem Robot Obstacle).

(** [getNbHppProblems] is defined in the class header. *)
Variable getNbHppProblems : planner -> nat.

(** [ChppPlanner::ChppPlanner]. *)
Definition ChppPlanner_new : planner := mkChppPlanner [] [] [].

Definition notify (n : notification Robot Obstacle) (p : planner) : planner :=
  mkChppPlanner (hppProblemVector p) (mObstacleList p) (notified p ++ [n]).

Definition set_hppProblemVector (v : list Problem) (p : planner) : planner :=
  mkChppPlanner v (mObstacleList p) (notified p).

Definition set_mObstacleList (l : list Obstacle) (p : planner) : planner :=
  mkChppPlanner (hppProblemVector p) l (notified p).

(** [hppProblemVector[rank].f (...)] for a member function [f] that
    updates the problem; the callers check the rank. *)
Definition update_problem (rank : nat) (f : Problem -> Problem) (p : planner)
  : planner :=
  match hppProblemVector p !! rank with
  | Some problem => set_hppProblemVector (<[rank := f problem]> (hppProblemVector p)) p
  | None => p
  end.

(** [ChppPlanner::addHppProblem]. *)
Definition addHppProblem (robot : option Robot) (p : planner)
  : ktStatus * planner :=
  let hppProblem := ChppProblem_new robot (mObstacleList p) in
  let p := set_hppProblemVector (hppProblemVector p ++ [hppProblem]) p in
  (KD_OK, notify (ID_HPP_ADD_ROBOT robot) p).

(** [ChppPlanner::removeHppProblem]. *)
Definition removeHppProblem (p : planner) : ktStatus * planner :=
  if negb (length (hppProblemVector p) =? 0)
  then (KD_OK,
        set_mObstacleList []
          (set_hppProblemVector (removelast (hppProblemVector p)) p))
  else (KD_ERROR, p).

(** [ChppPlanner::addHppProblemAtBeginning]. *)
Definition addHppProblemAtBeginning (robot : option Robot) (p : planner)
  : ktStatus * planner :=
  let hppProblem := ChppProblem_new robot (mObstacleList p) in
  let p := set_hppProblemVector (hppProblem :: hppProblemVector p) p in
  (KD_OK, notify (ID_HPP_ADD_ROBOT robot) p).

(** [ChppPlanner::removeHppProblemAtBeginning]. *)
Definition removeHppProblemAtBeginning (p : planner) : ktStatus * planner :=
  if negb (length (hppProblemVector p) =? 0)
  then (KD_OK,
        set_mObstacleList [] (set_hppProblemVector (tail (hppProblemVector p)) p))
  else (KD_ERROR, p).

(** [ChppPlanner::robotIthProblem]. *)
Definition robotIthProblem (rank : nat) (p : planner) : option Robot :=
  if rank <? getNbHppProblems p
  then hppProblemVector p !! rank ≫= getRobot
  else None.

(** [ChppPlanner::initConfIthProblem (rank)]. *)
Definition initConfIthProblem (rank : nat) (p : planner) : option Config :=
  if rank <? getNbHppProblems p
  then hppProblemVector p !! rank ≫= initConfig
  else None.

(** [ChppPlanner::initConfIthProblem (rank, config)]. *)
Definition set_initConfIthProblem (rank : nat) (config : option Config)
    (p : planner) : ktStatus * planner :=
  if rank <? getNbHppProblems p
  then (KD_OK, update_problem rank (set_initConfig config) p)
  else (KD_ERROR, p).

(** [ChppPlanner::goalConfIthProblem (rank)]. *)
Definition goalConfIthProblem (rank : nat) (p : planner) : option Config :=
  if rank <? getNbHppProblems p
  then hppProblemVector p !! rank ≫= goalConfig
  else None.

(** [ChppPlanner::goalConfIthProblem (rank, config)]. *)
Definition set_goalConfIthProblem (rank : nat) (config : option Config)
    (p : planner) : ktStatus * planner :=
  if rank <? getNbHppProblems p
  then (KD_OK, update_problem rank (set_goalConfig config) p)
  else (KD_ERROR, p).

(** [for (iProblem = 0; iProblem < nProblem; iProblem++)
    hppProblemVector[iProblem].f (...)]. *)
Definition for_each_problem (nProblem : nat) (f : Problem -> Problem)
    (p : planner) : planner :=
  fold_left (λ p iProblem, update_problem iProblem f p) (seq 0 nProblem) p.

(** [ChppPlanner::obstacleList (collisionList)]. *)
Definition set_obstacleListOfPlanner (collisionList : list Obstacle)
    (p : planner) : ktStatus * planner :=
  let p := notify ID_HPP_REMOVE_OBSTACLES p in
  let p := set_mObstacleList collisionList p in
  let nProblem := getNbHppProblems p in
  let p := for_each_problem nProblem (set_obstacleList collisionList) p in
  (KD_OK, notify (ID_HPP_SET_OBSTACLE_LIST (mObstacleList p)) p).

(** [ChppPlanner::obstacleList ()]. *)
Definition obstacleList (p : planner) : list Obstacle := mObstacleList p.

(** [ChppPlanner::addObstacle]. *)
Definition addObstacle (object : Obstacle) (p : planner) : ktStatus * planner :=
  let p := set_mObstacleList (mObstacleList p ++ [object]) p in
  let nProblem := getNbHppProblems p in
  let p := for_each_problem nProblem (problem_addObstacle object) p in
  (KD_OK, notify (ID_HPP_ADD_OBSTACLE (mObstacleList p)) p).

(** [ChppPlanner::getNbPaths]. *)
Definition getNbPathsOfProblem (inProblemId : nat) (p : planner) : nat :=
  if inProblemId <? getNbHppProblems p
  then from_option getNbPaths 0%nat (hppProblemVector p !! inProblemId)
  else 0%nat.

(** [ChppPlanner::getPath]. *)
Definition getPath (inProblemId inPathId : nat) (p : planner) : option KwsPath :=
  if inProblemId <? getNbHppProblems p
  then
    problem ← hppProblemVector p !! inProblemId;
    if inPathId <? getNbPaths problem then getIthPath inPathId problem else None
  else None.

(** [ChppPlanner::addPath]: the test is on the size of the vector. *)
Definition addPath (inProblemId : nat) (kwsPath : option KwsPath) (p : planner)
  : ktStatus * planner :=
  if length (hppProblemVector p) <=? inProblemId
  then (KD_ERROR, p)
  else (KD_OK, update_problem inProblemId (problem_addPath kwsPath) p).

End Members.

End Planner.

(** A problem that stores what it is given. *)
Record StoredProblem := mkStoredProblem {
  sp_robot : option nat;
  sp_init : option (list Q);
  sp_goal : option (list Q);
  sp_obstacles : list nat;
  sp_paths : list (option (list (list Q)))
}.

#[export] Instance StoredProblem_ops
  : Planner.ChppProblem StoredProblem nat (list Q) nat (list (list Q)) := {|
  Planner.ChppProblem_new robot obstacles :=
    mkStoredProblem robot None None obstacles [];
  Planner.getRobot := sp_robot;
  Planner.initConfig := sp_init;
  Planner.set_initConfig c pb :=
    mkStoredProblem (sp_robot pb) c (sp_goal pb) (sp_obstacles pb) (sp_paths pb);
  Planner.goalConfig := sp_goal;
  Planner.set_goalConfig c pb :=
    mkStoredProblem (sp_robot pb) (sp_init pb) c (sp_obstacles pb) (sp_paths pb);
  Planner.set_obstacleList l pb :=
    mkStoredProblem (sp_robot pb) (sp_init pb) (sp_goal pb) l (sp_paths pb);
  Planner.problem_addObstacle o pb :=
    mkStoredProblem (sp_robot pb) (sp_init pb) (sp_goal pb)
                    (sp_obstacles pb ++ [o]) (sp_paths pb);
  Planner.getNbPaths pb := length (sp_paths pb);
  Planner.getIthPath i pb := mjoin (sp_paths pb !! i);
  Planner.problem_addPath path pb :=
    mkStoredProblem (sp_robot pb) (sp_init pb) (sp_goal pb) (sp_obstacles pb)
                    (sp_paths pb ++ [path])
|}.

Module PlannerExamples.
Import Planner.

Definition nbProblems (p : ChppPlanner StoredProblem nat nat) : nat :=
  length (hppProblemVector p).

(** Two robots added to a planner that holds one obstacle. *)
Definition two_problems : ChppPlanner StoredProblem nat nat :=
  (addHppProblem (Some 2%nat)
     (addHppProblem (Some 1%nat)
        (addObstacle nbProblems 7%nat ChppPlanner_new).2).2).2.

End PlannerExamples.

(** Case analysis on the comparisons of real numbers in a goal. *)
Ltac real_case :=
  match goal with
  | |- context [Rle_dec ?a ?b] => destruct (Rle_dec a b)
  | |- context [Rgt_dec ?a ?b] => destruct (Rgt_dec a b)
  | |- context [Rlt_dec ?a ?b] => destruct (Rlt_dec a b)
  end; try (exfalso; Lra.lra).

Set Warnings "-clear-no-such-hyp".

(* ===================================================================== *)
(** ** Properties of the steering method *)
(* ===================================================================== *)

Module SteeringFacts.
Import Steering.
Local Open Scope R_scope.

Lemma sgn_pos x : 0 < x -> sgn x = 1%Z.
Proof.
  intros Hx. unfold sgn.
  destruct (Rlt_dec 0 x); [|contradiction].
  destruct (Rlt_dec x 0); [Lra.lra | reflexivity].
Qed.

Lemma sgn_neg x : x < 0 -> sgn x = (-1)%Z.
Proof.
  intros Hx. unfold sgn.
  destruct (Rlt_dec 0 x); [Lra.lra|].
  destruct (Rlt_dec x 0); [reflexivity | contradiction].
Qed.

Lemma sqrt_of_square x y : 0 <= y -> x = y * y -> sqrt x = y.
Proof. intros Hy ->. apply sqrt_square, Hy. Qed.

Lemma half_inv : 0.5 = / 2.
Proof. Lra.lra. Qed.

(** What the code does with the two tests. *)
Lemma computeMinTime_two_segment self p1 p2 v1 v2 :
  larger_root self p1 p2 v1 v2 > minT1_of self p1 p2 v1 v2 ->
  ~ peak_velocity self p1 p2 v1 v2
    > IZR (sigma_of self p1 p2 v1 v2) * vMax_ self ->
  let r := computeMinTime self p1 p2 v1 v2 in
  mt_t1 r = larger_root self p1 p2 v1 v2
  /\ mt_tv r = 0
  /\ mt_t2 r = (v2 - v1) / (- (IZR (sigma_of self p1 p2 v1 v2) * aMax_ self))
               + larger_root self p1 p2 v1 v2.
Proof.
  unfold peak_velocity, larger_root, minT1_of, sigma_of, computeMinTime.
  cbv zeta. intros Hroot Hpeak.
  destruct (Rgt_dec _ _) as [_|Hno]; [|contradiction].
  destruct (Rgt_dec _ _) as [Hyes|_]; [contradiction|].
  cbn. auto.
Qed.

Lemma computeMinTime_three_segment self p1 p2 v1 v2 :
  ~ larger_root self p1 p2 v1 v2 > minT1_of self p1 p2 v1 v2
  \/ peak_velocity self p1 p2 v1 v2
     > IZR (sigma_of self p1 p2 v1 v2) * vMax_ self ->
  let r := computeMinTime self p1 p2 v1 v2 in
  let a1 := IZR (sigma_of self p1 p2 v1 v2) * aMax_ self in
  let vLim := IZR (sigma_of self p1 p2 v1 v2) * vMax_ self in
  mt_t1 r = (vLim - v1) / a1
  /\ mt_tv r = (v1 * v1 + v2 * v2 - 2 * vLim * vLim) / (2 * vLim * a1)
               + (p2 - p1) / vLim
  /\ mt_t2 r = (v2 - vLim) / (- a1).
Proof.
  unfold peak_velocity, larger_root, minT1_of, sigma_of, computeMinTime.
  cbv zeta. intros Hcase.
  destruct (Rgt_dec _ _) as [Hroot|_].
  - destruct (Rgt_dec _ _) as [_|Hno]; [cbn; auto|].
    destruct Hcase as [Hcase|Hcase]; contradiction.
  - cbn. auto.
Qed.

(** The returned duration is the sum of the three durations. *)
Lemma computeMinTime_total self p1 p2 v1 v2 :
  let r := computeMinTime self p1 p2 v1 v2 in
  mt_T r = mt_t1 r + mt_tv r + mt_t2 r.
Proof.
  unfold computeMinTime. cbv zeta.
  destruct (Rgt_dec _ _); [destruct (Rgt_dec _ _)|]; reflexivity.
Qed.

Lemma computeMinTime_sigma self p1 p2 v1 v2 :
  mt_sigma (computeMinTime self p1 p2 v1 v2) = sigma_of self p1 p2 v1 v2.
Proof.
  unfold computeMinTime, sigma_of. cbv zeta.
  destruct (Rgt_dec _ _); [destruct (Rgt_dec _ _)|]; reflexivity.
Qed.

(** The test values at the inputs used below. *)
Lemma unit_S6_values :
  sigma_of unit_bounds 0 100 0 0 = 1%Z
  /\ minT1_of unit_bounds 0 100 0 0 = 0
  /\ larger_root unit_bounds 0 100 0 0 = 10.
Proof.
  assert (Hs : sigma_of unit_bounds 0 100 0 0 = 1%Z).
  { unfold sigma_of. apply sgn_pos. cbn [aMax_ unit_bounds].
    replace (0 - 0) with 0 by Lra.lra. rewrite Rabs_R0. Lra.lra. }
  split; [done|]. unfold minT1_of, larger_root. rewrite Hs. cbn [aMax_ unit_bounds].
  split.
  - cbv zeta. rewrite Rmax_left; Lra.lra.
  - cbv zeta. rewrite (sqrt_of_square _ 20) by Lra.lra.
    rewrite Rmax_left; Lra.lra.
Qed.


Lemma unit_S6_result :
  computeMinTime unit_bounds 0 100 0 0
  = {| mt_T := 101; mt_sigma := 1; mt_t1 := 1; mt_tv := 99; mt_t2 := 1;
       mt_out := [] |}.
Proof.
  unfold computeMinTime. cbn [aMax_ vMax_ unit_bounds].
  replace (0 - 0) with 0 by Lra.lra. rewrite Rabs_R0.
  rewrite (sgn_pos (100 - 0 - _)) by Lra.lra.
  rewrite (sqrt_of_square _ 20) by Lra.lra.
  unfold Rmax. repeat real_case; lazy beta iota zeta.
  f_equal; first [Lra.lra | field; Lra.lra].
Qed.

(** Claim C8, as the code has it. With unit bounds, from rest at 0 to
    rest at 100, [computeMinTime] takes the three-segment form: one
    second of acceleration, 99 of cruise, one of deceleration, 101 in
    all. *)
Theorem computeMinTime_cruise_scenario :
  let r := computeMinTime unit_bounds 0 100 0 0 in
  mt_sigma r = 1%Z /\ mt_t1 r = 1 /\ mt_t2 r = 1 /\ mt_tv r = 99
  /\ mt_T r = 101 /\ mt_out r = [].
Proof. rewrite unit_S6_result. cbn. repeat split. Qed.

(** The durations of scenario S6 are not those the code computes. *)
Lemma computeMinTime_cruise_scenario_not_100 :
  ~ (let r := computeMinTime unit_bounds 0 100 0 0 in
     mt_t1 r = 1 /\ mt_t2 r = 1 /\ mt_tv r = 98 /\ mt_T r = 100).
Proof. rewrite unit_S6_result. cbn. intros (_ & _ & Htv & _). Lra.lra. Qed.

Lemma default_negative_values :
  sigma_of default_bounds 0.5 0 0 0 = (-1)%Z
  /\ minT1_of default_bounds 0.5 0 0 0 = 0
  /\ larger_root default_bounds 0.5 0 0 0 = 1.
Proof.
  assert (Hs : sigma_of default_bounds 0.5 0 0 0 = (-1)%Z).
  { unfold sigma_of. apply sgn_neg. cbn [aMax_ default_bounds].
    replace (0 - 0) with 0 by Lra.lra. rewrite Rabs_R0. Lra.lra. }
  split; [done|]. unfold minT1_of, larger_root. rewrite Hs.
  cbn [aMax_ default_bounds]. cbv zeta. split.
  - rewrite Rmax_left; [done|]. rewrite half_inv. apply Req_le. field.
  - rewrite (sqrt_of_square _ 1); [| Lra.lra | rewrite half_inv; field].
    replace ((-2 * 0 + 1) / (2 * (-1 * 0.5))) with (-1)
      by (rewrite half_inv; field).
    replace ((-2 * 0 - 1) / (2 * (-1 * 0.5))) with 1
      by (rewrite half_inv; field).
    rewrite Rmax_right; Lra.lra.
Qed.

(** Claim C7, at an input the code gets wrong. The steering method the
    constructor builds, asked to go from rest at 0.5 to rest at 0,
    picks the negative sign; the larger root is 1, above the lower
    bound 0, and the velocity reached there is -0.5, within the bound
    1 in magnitude. The two-segment solution is nevertheless dropped:
    the call returns the three-segment times 2, -1.5 and 2. *)
Theorem computeMinTime_negative_sign_drops_two_segment :
  let r := computeMinTime default_bounds 0.5 0 0 0 in
  Kinodynamic_new (mkProblem (mkDevice 2 1)) = Constructed default_bounds []
  /\ sigma_of default_bounds 0.5 0 0 0 = (-1)%Z
  /\ larger_root default_bounds 0.5 0 0 0 = 1
  /\ minT1_of default_bounds 0.5 0 0 0 = 0
  /\ Rabs (peak_velocity default_bounds 0.5 0 0 0) = 0.5
  /\ 0.5 <= vMax_ default_bounds
  /\ mt_t1 r = 2 /\ mt_tv r = -1.5 /\ mt_t2 r = 2 /\ mt_T r = 2.5.
Proof.
  destruct default_negative_values as (Hs & Hmin & Hroot).
  assert (Hpeak : peak_velocity default_bounds 0.5 0 0 0 = -0.5).
  { unfold peak_velocity. rewrite Hroot, Hs. cbn [aMax_ default_bounds]. Lra.lra. }
  destruct (computeMinTime_three_segment default_bounds 0.5 0 0 0)
    as (Ht1 & Htv & Ht2).
  { right. rewrite Hpeak, Hs. cbn [vMax_ default_bounds]. Lra.lra. }
  rewrite Hs in Ht1, Htv, Ht2. cbn [aMax_ vMax_ default_bounds] in Ht1, Htv, Ht2.
  assert (H1 : mt_t1 (computeMinTime default_bounds 0.5 0 0 0) = 2)
    by (rewrite Ht1, half_inv; field).
  assert (Hv : mt_tv (computeMinTime default_bounds 0.5 0 0 0) = -1.5).
  { rewrite Htv. replace (-1.5) with (-3/2) by Lra.lra. rewrite !half_inv. field. }
  assert (H2 : mt_t2 (computeMinTime default_bounds 0.5 0 0 0) = 2)
    by (rewrite Ht2, half_inv; field).
  cbv zeta. repeat split; try done.
  - rewrite Hpeak. rewrite Rabs_left; Lra.lra.
  - cbn. Lra.lra.
  - rewrite computeMinTime_total, H1, Hv, H2. Lra.lra.
Qed.

(** Claim C6, as the code has it. The constructor never fails: it
    returns a steering method for the robot of the problem, with the
    bounds 0.5 and 1; when twice the number of extra degrees of freedom
    is less than the configuration size it has written one error line
    to the standard output, and nothing otherwise. *)
Theorem Kinodynamic_new_constructs problem :
  let size := configSize (robot problem) in
  let extra := extraConfigSpace_dimension (robot problem) in
  exists sm out,
    Kinodynamic_new problem = Constructed sm out
    /\ device_ sm = robot problem /\ aMax_ sm = 0.5 /\ vMax_ sm = 1
    /\ ((2 * extra < size)%Z ->
        out = [Str "Error : you need at least "; Num (size - extra);
               Str " extra DOF"; Endl])
    /\ ((size <= 2 * extra)%Z -> out = []).
Proof.
  cbv zeta. unfold Kinodynamic_new. eexists _, _.
  split; [reflexivity|]. cbn [device_ aMax_ vMax_].
  split; [reflexivity|]. split; [reflexivity|]. split; [reflexivity|].
  destruct (Z.ltb_spec (2 * extraConfigSpace_dimension (robot problem))
              (configSize (robot problem))) as [Hlt|Hge].
  - split; [reflexivity|]. intros Hle. lia.
  - split; [|reflexivity]. intros Hlt. lia.
Qed.

(** A robot with three controlled axes and no extra degree of freedom:
    the steering method is constructed all the same. *)
Lemma Kinodynamic_new_not_rejected :
  let problem := mkProblem (mkDevice 3 0) in
  let extra := extraConfigSpace_dimension (robot problem) in
  let E := (configSize (robot problem) - extra)%Z in
  (extra < 2 * E)%Z
  /\ ~ (exists what, Kinodynamic_new problem = Rejected what).
Proof. split; [reflexivity|]. intros [what Hrej]. discriminate. Qed.

(** Claim C9. Whatever the problem, the constructed steering method
    has the acceleration bound 0.5 and the velocity bound 1, and
    [computeMinTime] and [fixedTimeTrajectory] return on it what they
    return with these bounds for any robot. *)
Theorem Kinodynamic_new_fixed_bounds problem :
  exists sm out,
    Kinodynamic_new problem = Constructed sm out
    /\ aMax_ sm = 0.5 /\ vMax_ sm = 1
    /\ (forall d p1 p2 v1 v2,
          computeMinTime sm p1 p2 v1 v2
          = computeMinTime {| device_ := d; aMax_ := 0.5; vMax_ := 1 |}
              p1 p2 v1 v2)
    /\ (forall d T p1 p2 v1 v2,
          fixedTimeTrajectory sm T p1 p2 v1 v2
          = fixedTimeTrajectory {| device_ := d; aMax_ := 0.5; vMax_ := 1 |}
              T p1 p2 v1 v2).
Proof.
  eexists _, _. split; [reflexivity|]. repeat split.
Qed.

(** Scenario S5: with the bounds 1 and 10, from rest at 0 to rest at 1,
    the two-segment form, one second each way. *)
Lemma computeMinTime_bang_bang_scenario :
  computeMinTime fast_bounds 0 1 0 0
  = {| mt_T := 2; mt_sigma := 1; mt_t1 := 1; mt_tv := 0; mt_t2 := 1;
       mt_out := [] |}.
Proof.
  unfold computeMinTime. cbn [aMax_ vMax_ fast_bounds].
  replace (0 - 0) with 0 by Lra.lra. rewrite Rabs_R0.
  rewrite (sgn_pos (1 - 0 - _)) by Lra.lra.
  rewrite (sqrt_of_square _ 2) by Lra.lra.
  unfold Rmax. repeat real_case; lazy beta iota zeta.
  f_equal; first [Lra.lra | field; Lra.lra].
Qed.

(** The same journey as in claim C8 with the bounds the constructor
    sets: two seconds of acceleration, 98 of cruise, two of
    deceleration. *)
Lemma computeMinTime_cruise_default_bounds :
  let r := computeMinTime default_bounds 0 100 0 0 in
  mt_sigma r = 1%Z /\ mt_t1 r = 2 /\ mt_tv r = 98 /\ mt_t2 r = 2
  /\ mt_T r = 102.
Proof.
  assert (Hs : sigma_of default_bounds 0 100 0 0 = 1%Z).
  { unfold sigma_of. apply sgn_pos. cbn [aMax_ default_bounds].
    replace (0 - 0) with 0 by Lra.lra. rewrite Rabs_R0. Lra.lra. }
  assert (Hsqrt : 2 < sqrt 200).
  { rewrite <- (sqrt_of_square 4 2) by Lra.lra. apply sqrt_lt_1; Lra.lra. }
  assert (Hroot : larger_root default_bounds 0 100 0 0 = sqrt 200).
  { unfold larger_root. rewrite Hs. cbn [aMax_ default_bounds]. cbv zeta.
    replace (4 * 0 * 0 - 4 * (1 * 0.5) * ((0 * 0 - 0 * 0) / (2 * - (1 * 0.5)) - (100 - 0)))
      with 200 by (rewrite half_inv; field).
    replace ((-2 * 0 + sqrt 200) / (2 * (1 * 0.5))) with (sqrt 200)
      by (rewrite half_inv; field).
    replace ((-2 * 0 - sqrt 200) / (2 * (1 * 0.5))) with (- sqrt 200)
      by (rewrite half_inv; field).
    rewrite Rmax_left; Lra.lra. }
  destruct (computeMinTime_three_segment default_bounds 0 100 0 0)
    as (Ht1 & Htv & Ht2).
  { right. unfold peak_velocity. rewrite Hroot, Hs.
    cbn [aMax_ vMax_ default_bounds]. Lra.lra. }
  rewrite Hs in Ht1, Htv, Ht2. cbn [aMax_ vMax_ default_bounds] in Ht1, Htv, Ht2.
  assert (H1 : mt_t1 (computeMinTime default_bounds 0 100 0 0) = 2)
    by (rewrite Ht1, half_inv; field).
  assert (Hv : mt_tv (computeMinTime default_bounds 0 100 0 0) = 98)
    by (rewrite Htv, half_inv; field).
  assert (H2 : mt_t2 (computeMinTime default_bounds 0 100 0 0) = 2)
    by (rewrite Ht2, half_inv; field).
  cbv zeta. repeat split; try done.
  - by rewrite computeMinTime_sigma.
  - rewrite computeMinTime_total, H1, Hv, H2. Lra.lra.
Qed.

End SteeringFacts.

(* ===================================================================== *)
(** ** Properties of the roadmap *)
(* ===================================================================== *)

Module RoadmapFacts.

Import Roadmap.
Local Open Scope Q_scope.

Section Facts.
Context {Path : Type} {PathOps : PathClass Path}.
Implicit Types (s : State Path) (q : Configuration).

Lemma bind_Some {A B} (m : M A) (k : A -> M B) s r :
  bind m k s = Some r <-> ∃ a s', m s = Some (a, s') ∧ k a s' = Some r.
Proof.
  unfold bind. destruct (m s) as [[a s']|]; split.
  - intros Hk. by exists a, s'.
  - by intros (a' & s'' & [= -> ->] & Hk).
  - discriminate.
  - by intros (a' & s'' & Hm & _).
Qed.

Lemma dist_lt_le a b : dist_lt a b = true -> dist_le a b.
Proof.
  destruct a as [x|], b as [y|]; simpl; try done.
  destruct (Qlt_le_dec x y); [intros _; by apply Qlt_le_weak | done].
Qed.

Lemma dist_lt_false_le a b : dist_lt a b = false -> dist_le b a.
Proof.
  destruct a as [x|], b as [y|]; simpl; try done.
  destruct (Qlt_le_dec x y); [done | by intros _].
Qed.

Lemma dist_le_refl a : dist_le a a.
Proof. destruct a; simpl; [apply Qle_refl | done]. Qed.

Lemma dist_le_trans a b c : dist_le a b -> dist_le b c -> dist_le a c.
Proof.
  destruct a, b, c; simpl; try done. apply Qle_trans.
Qed.

(** *** The scan of the tree *)

Lemma scan_le nodes distance q keep best n :
  dist_le (snd (KDTree.scan nodes distance q keep best n)) (snd best).
Proof.
  unfold KDTree.scan. destruct (nodes !! n) as [obj|]; [|apply dist_le_refl].
  destruct (keep obj); [|apply dist_le_refl].
  destruct (dist_lt _ _) eqn:Hlt; [by apply dist_lt_le | apply dist_le_refl].
Qed.

Lemma scan_fold nodes distance q keep l best :
  let r := fold_left (KDTree.scan nodes distance q keep) l best in
  dist_le (snd r) (snd best)
  ∧ (r = best ∨ candidate nodes distance q keep l r)
  ∧ ∀ m obj, m ∈ l -> nodes !! m = Some obj -> keep obj = true ->
      dist_le (snd r) (Finite (distance q (Node.configuration_ obj))).
Proof.
  revert best. induction l as [|n l IH]; intros best; simpl.
  - split; [apply dist_le_refl|]. split; [by left|].
    intros m obj Hm. by apply elem_of_nil in Hm.
  - destruct (IH (KDTree.scan nodes distance q keep best n)) as (Hle & Hcand & Hmin).
    pose proof (scan_le nodes distance q keep best n) as Hstep.
    split; [eapply dist_le_trans; eauto|].
    split.
    + destruct Hcand as [->|Hc].
      * unfold KDTree.scan. destruct (nodes !! n) as [obj|] eqn:Hn; [|by left].
        destruct (keep obj) eqn:Hk; [|by left].
        destruct (dist_lt _ _); [|by left].
        right. right. exists n, obj. repeat split; try done. apply elem_of_cons; by left.
      * right. destruct Hc as [->|(n' & obj & -> & Hin & Hl & Hc)]; [by left|].
        right. exists n', obj. repeat split; try done. apply elem_of_cons; by right.
    + intros m obj Hm Hl Hc. apply elem_of_cons in Hm as [->|Hm]; [|by eapply Hmin].
      eapply dist_le_trans; [apply Hle|].
      unfold KDTree.scan. rewrite Hl, Hc.
      destruct (dist_lt _ _) eqn:Hlt; [apply dist_le_refl | by apply dist_lt_false_le].
Qed.

(** A scan from scratch ends on a node or on [(null, infinity)]. *)
Lemma scan_from_scratch nodes distance q keep l :
  let r := fold_left (KDTree.scan nodes distance q keep) l (None, Infinity) in
  candidate nodes distance q keep l r
  ∧ ∀ m obj, m ∈ l -> nodes !! m = Some obj -> keep obj = true ->
      dist_le (snd r) (Finite (distance q (Node.configuration_ obj))).
Proof.
  destruct (scan_fold nodes distance q keep l (None, Infinity)) as (_ & Hc & Hmin).
  split; [|done]. destruct Hc as [->|Hc]; [by left | done].
Qed.

(** *** Loops that only read *)

Lemma for_each_read {A B} (l : list A) (body : A -> B -> M B)
    (g : B -> A -> B) acc s :
  (∀ x b, body x b s = Some (g b x, s)) ->
  for_each l acc body s = Some (fold_left g l acc, s).
Proof.
  intros Hbody. revert acc. induction l as [|x l IH]; intros acc; simpl; [done|].
  unfold bind. rewrite Hbody. apply IH.
Qed.

Lemma nearestNode_eq q s :
  nearestNode q s
  = Some (fold_left (nearest_step s q)
            (elements (connectedComponents_ (roadmap s))) (None, Infinity), s).
Proof.
  unfold nearestNode, bind, get.
  apply for_each_read. intros itcc [closest minDistance].
  unfold kdTree_search, gets, nearest_step.
  destruct (KDTree.search _ _ _ _) as [node distance]; simpl.
  by destruct (dist_lt distance minDistance).
Qed.

Lemma nearest_fold s q l best :
  let r := fold_left (nearest_step s q) l best in
  dist_le (snd r) (snd best)
  ∧ (r = best
     ∨ ∃ c, c ∈ l ∧ r = KDTree.search (nodeHeap s) (kdTree_ (roadmap s)) q c)
  ∧ ∀ c, c ∈ l ->
      dist_le (snd r) (snd (KDTree.search (nodeHeap s) (kdTree_ (roadmap s)) q c)).
Proof.
  revert best. induction l as [|c l IH]; intros best; simpl.
  - split; [apply dist_le_refl|]. split; [by left|].
    intros c Hc. by apply elem_of_nil in Hc.
  - destruct (IH (nearest_step s q best c)) as (Hle & Hcand & Hmin).
    assert (Hstep : dist_le (snd (nearest_step s q best c)) (snd best)).
    { unfold nearest_step. destruct (dist_lt _ _) eqn:Hlt;
        [by apply dist_lt_le | apply dist_le_refl]. }
    split; [eapply dist_le_trans; eauto|].
    split.
    + destruct Hcand as [->|(c' & Hc' & ->)].
      * unfold nearest_step. destruct (dist_lt _ _); [|by left].
        right. exists c. split; [apply elem_of_cons; by left | done].
      * right. exists c'. split; [apply elem_of_cons; by right | done].
    + intros c' Hc'. apply elem_of_cons in Hc' as [->|Hc']; [|by apply Hmin].
      eapply dist_le_trans; [apply Hle|].
      unfold nearest_step.
      destruct (dist_lt _ _) eqn:Hlt; [apply dist_le_refl | by apply dist_lt_false_le].
Qed.

(** What [nearestNode] returns on a roadmap with nodes. *)
Lemma nearestNode_found q s :
  wf s -> nodes_ (roadmap s) ≠ [] ->
  ∃ n obj,
    nearestNode q s
    = Some ((Some n, Finite (distance_ (roadmap s) q (Node.configuration_ obj))), s)
    ∧ n ∈ nodes_ (roadmap s)
    ∧ nodeHeap s !! n = Some obj
    ∧ ∀ m mobj, m ∈ nodes_ (roadmap s) -> nodeHeap s !! m = Some mobj ->
        distance_ (roadmap s) q (Node.configuration_ obj)
        <= distance_ (roadmap s) q (Node.configuration_ mobj).
Proof.
  intros Hwf Hne. rewrite nearestNode_eq.
  set (ccs := elements (connectedComponents_ (roadmap s))).
  destruct (nearest_fold s q ccs (None, Infinity)) as (_ & Hcand & Hmin).
  set (r := fold_left (nearest_step s q) ccs (None, Infinity)) in *.
  assert (Hall : ∀ m mobj, m ∈ nodes_ (roadmap s) -> nodeHeap s !! m = Some mobj ->
            dist_le (snd r) (Finite (distance_ (roadmap s) q (Node.configuration_ mobj)))).
  { intros m mobj Hm Hmobj.
    destruct (wf_node s Hwf m Hm) as (obj & cobj & Hobj & Hcc & _).
    rewrite Hmobj in Hobj; injection Hobj as <-.
    eapply dist_le_trans; [apply (Hmin (Node.connectedComponent_ mobj))|].
    { subst ccs. by apply elem_of_elements. }
    unfold KDTree.search.
    rewrite (wf_kd_nodes s Hwf), (wf_kd_distance s Hwf).
    eapply (scan_from_scratch (nodeHeap s)); eauto.
    unfold KDTree.in_component. by apply bool_decide_eq_true_2. }
  destruct (nodes_ (roadmap s)) as [|m0 l0] eqn:Hnodes; [done|].
  destruct (wf_node s Hwf m0) as (obj0 & cobj0 & Hobj0 & _).
  { rewrite Hnodes. apply elem_of_cons; by left. }
  assert (H0 := Hall m0 obj0 ltac:(apply elem_of_cons; by left) Hobj0).
  destruct Hcand as [Hr|(c & Hc & Hr)].
  { rewrite Hr in H0. done. }
  pose proof (scan_from_scratch (nodeHeap s) (KDTree.distance_ (kdTree_ (roadmap s)))
                q (KDTree.in_component c) (KDTree.nodes_ (kdTree_ (roadmap s)))) as [Hc' _].
  fold (KDTree.search (nodeHeap s) (kdTree_ (roadmap s)) q c) in Hc'.
  rewrite <- Hr in Hc'.
  destruct Hc' as [Hr'|(n & obj & Hr' & Hn & Hobj & _)].
  { rewrite Hr' in H0. done. }
  rewrite (wf_kd_nodes s Hwf), (wf_kd_distance s Hwf) in *.
  exists n, obj. rewrite Hr'. rewrite Hnodes in Hn. repeat split; try done.
  intros m mobj Hm Hmobj. specialize (Hall m mobj Hm Hmobj).
  by rewrite Hr' in Hall.
Qed.


(** *** Stepping through a member function *)

Lemma bind_eq {A B} (m : M A) (k : A -> M B) s a s' :
  m s = Some (a, s') -> bind m k s = k a s'.
Proof. intros Hm. unfold bind. by rewrite Hm. Qed.

Lemma bind_assoc {A B C} (m : M A) (f : A -> M B) (g : B -> M C) s :
  bind (bind m f) g s = bind m (λ a, bind (f a) g) s.
Proof. unfold bind. by destruct (m s) as [[a s']|]. Qed.

Lemma node_at_Some n s obj :
  nodeHeap s !! n = Some obj -> node_at n s = Some (obj, s).
Proof. intros Hn. unfold node_at, bind, get, nonnull. by rewrite Hn. Qed.

Lemma node_at_inv n s obj s' :
  node_at n s = Some (obj, s') -> nodeHeap s !! n = Some obj ∧ s' = s.
Proof.
  unfold node_at, bind, get, nonnull.
  destruct (nodeHeap s !! n); [|discriminate]. by intros [= -> ->].
Qed.

Lemma cc_at_Some c s cobj :
  ccHeap s !! c = Some cobj -> cc_at c s = Some (cobj, s).
Proof. intros Hc. unfold cc_at, bind, get, nonnull. by rewrite Hc. Qed.

Lemma cc_at_inv c s cobj s' :
  cc_at c s = Some (cobj, s') -> ccHeap s !! c = Some cobj ∧ s' = s.
Proof.
  unfold cc_at, bind, get, nonnull.
  destruct (ccHeap s !! c); [|discriminate]. by intros [= -> ->].
Qed.

Lemma update_node_Some n f s obj :
  nodeHeap s !! n = Some obj ->
  update_node n f s = Some (tt, with_nodeHeap (λ h, <[n := f obj]> h) s).
Proof.
  intros Hn. unfold update_node. by rewrite (bind_eq _ _ _ _ _ (node_at_Some _ _ _ Hn)).
Qed.

Lemma update_cc_Some c f s cobj :
  ccHeap s !! c = Some cobj ->
  update_cc c f s = Some (tt, with_ccHeap (λ h, <[c := f cobj]> h) s).
Proof.
  intros Hc. unfold update_cc. by rewrite (bind_eq _ _ _ _ _ (cc_at_Some _ _ _ Hc)).
Qed.

Lemma canReach_Some c1 c2 s cobj :
  ccHeap s !! c1 = Some cobj ->
  canReach c1 c2 s
  = Some (ConnectedComponent.canReach (ccHeap s) c1 cobj c2, s).
Proof.
  intros Hc. unfold canReach, bind, get. by rewrite (cc_at_Some _ _ _ Hc).
Qed.

Lemma canReach_inv c1 c2 s b s' :
  canReach c1 c2 s = Some (b, s') ->
  ∃ cobj, ccHeap s !! c1 = Some cobj
          ∧ b = ConnectedComponent.canReach (ccHeap s) c1 cobj c2 ∧ s' = s.
Proof.
  intros Hb. destruct (ccHeap s !! c1) as [cobj|] eqn:Hc.
  - rewrite (canReach_Some c1 c2 s cobj Hc) in Hb. injection Hb as <- <-.
    by exists cobj.
  - exfalso. unfold canReach, bind, get in Hb.
    destruct (cc_at c1 s) as [[o s1]|] eqn:Hat; [|done].
    apply cc_at_inv in Hat as [Hat _]. by rewrite Hat in Hc.
Qed.

(** *** nearestNode *)

(** Claim C10. On a roadmap without connected component, the loop of
    [nearestNode] is not entered: the call returns the null pointer,
    leaves infinity in [minDistance], and the state is untouched. *)
Theorem nearestNode_empty_roadmap q s :
  connectedComponents_ (roadmap s) = ∅ ->
  nearestNode q s = Some ((None, Infinity), s).
Proof.
  intros Hempty. rewrite nearestNode_eq, Hempty, elements_empty. done.
Qed.

(** Claim C5. On a roadmap with nodes, [nearestNode] returns a node of
    the roadmap with its distance to the configuration; no node of the
    roadmap is nearer; the result is the search result of one
    component and no component has a nearer search result; the
    brute-force scan finds the same distance. The state is untouched. *)
Theorem nearestNode_is_nearest q s :
  wf s -> nodes_ (roadmap s) ≠ [] ->
  ∃ n obj d,
    nearestNode q s = Some ((Some n, Finite d), s)
    ∧ n ∈ nodes_ (roadmap s)
    ∧ nodeHeap s !! n = Some obj
    ∧ d = distance_ (roadmap s) q (Node.configuration_ obj)
    ∧ (∀ m mobj, m ∈ nodes_ (roadmap s) -> nodeHeap s !! m = Some mobj ->
         d <= distance_ (roadmap s) q (Node.configuration_ mobj))
    ∧ (∃ c, c ∈ connectedComponents_ (roadmap s)
            ∧ KDTree.search (nodeHeap s) (kdTree_ (roadmap s)) q c
              = (Some n, Finite d))
    ∧ (∀ c, c ∈ connectedComponents_ (roadmap s) ->
         dist_le (Finite d)
           (snd (KDTree.search (nodeHeap s) (kdTree_ (roadmap s)) q c)))
    ∧ ∃ nb db, bruteForce s q = (Some nb, Finite db) ∧ db == d.
Proof.
  intros Hwf Hne.
  destruct (nearestNode_found q s Hwf Hne) as (n & obj & Hnear & Hn & Hobj & Hmin).
  exists n, obj, (distance_ (roadmap s) q (Node.configuration_ obj)).
  split; [done|]. split; [done|]. split; [done|]. split; [done|].
  split; [done|].
  pose proof Hnear as Hnear'. rewrite nearestNode_eq in Hnear'.
  injection Hnear' as Hfold.
  destruct (nearest_fold s q (elements (connectedComponents_ (roadmap s)))
              (None, Infinity)) as (_ & Hcand & Hcmin).
  rewrite Hfold in Hcand, Hcmin.
  split.
  { destruct Hcand as [?|(c & Hc & Hr)]; [done|].
    exists c. split; [by apply elem_of_elements in Hc | done]. }
  split.
  { intros c Hc. apply Hcmin. by apply elem_of_elements. }
  destruct (scan_from_scratch (nodeHeap s) (distance_ (roadmap s)) q (λ _, true)
              (nodes_ (roadmap s))) as [Hb Hbmin].
  fold (bruteForce s q) in Hb, Hbmin.
  specialize (Hbmin n obj Hn Hobj eq_refl).
  destruct Hb as [Hb|(nb & bobj & Hb & Hnb & Hbobj & _)].
  { rewrite Hb in Hbmin. done. }
  exists nb, (distance_ (roadmap s) q (Node.configuration_ bobj)).
  split; [done|]. rewrite Hb in Hbmin. simpl in Hbmin.
  apply Qle_antisym; [done|]. by eapply Hmin.
Qed.


(** *** addNode *)

Lemma bind_get {B} (k : State Path -> M B) s : bind get k s = k s s.
Proof. done. Qed.

Lemma bind_ret {A B} (a : A) (k : A -> M B) s : bind (ret a) k s = k a s.
Proof. done. Qed.

Lemma bind_modify {B} f (k : unit -> M B) s : bind (modify f) k s = k tt (f s).
Proof. done. Qed.

Lemma config_eqb_sym a b : config_eqb a b = config_eqb b a.
Proof.
  revert b. induction a as [|x a IH]; intros [|y b]; simpl; try done.
  rewrite IH. f_equal. apply eq_true_iff_eq.
  rewrite !Qeq_bool_iff. split; intros Hxy; by symmetry.
Qed.

Lemma config_eqb_refl a : config_eqb a a = true.
Proof.
  induction a as [|x a IH]; simpl; [done|].
  rewrite IH, andb_true_r. by apply Qeq_bool_iff.
Qed.

Lemma new_ptr_fresh {A} (h : gmap positive A) : h !! new_ptr h = None.
Proof. apply not_elem_of_dom. unfold new_ptr. apply is_fresh. Qed.

Lemma new_ptr_ne {A} (h : gmap positive A) p x : h !! p = Some x -> p ≠ new_ptr h.
Proof. intros Hp ->. by rewrite new_ptr_fresh in Hp. Qed.

(** The branch of [addNode] that creates a node. *)
Lemma addNode_create_branch q s :
  bind (new_Node q)
    (λ node,
       bind (modify (with_roadmap (λ r, set_nodes (nodes_ r ++ [node]) r)))
         (λ _, bind (addConnectedComponent node) (λ _, ret node))) s
  = Some (new_ptr (nodeHeap s), added s q).
Proof.
  unfold new_Node. rewrite bind_assoc, bind_get. cbv beta.
  rewrite bind_assoc, bind_modify. cbv beta.
  rewrite bind_assoc, bind_modify. cbv beta.
  rewrite bind_ret, bind_modify. cbv beta.
  unfold addConnectedComponent.
  rewrite bind_assoc.
  erewrite bind_eq; [|apply node_at_Some; cbn; apply lookup_insert_eq].
  cbv beta. rewrite bind_assoc, bind_modify. cbv beta.
  rewrite bind_assoc.
  erewrite bind_eq; [|apply update_cc_Some; cbn; apply lookup_insert_eq].
  cbv beta.
  unfold kdTree_addNode. rewrite bind_modify. reflexivity.
Qed.

(** The two ways [addNode] returns. *)
Lemma addNode_eq q s :
  wf s ->
  addNode q s
  = match nodes_ (roadmap s) with
    | [] => Some (new_ptr (nodeHeap s), added s q)
    | _ :: _ =>
        match fst (fold_left (nearest_step s q)
                     (elements (connectedComponents_ (roadmap s)))
                     (None, Infinity)) with
        | Some n =>
            match nodeHeap s !! n with
            | Some obj =>
                if config_eqb (Node.configuration_ obj) q
                then Some (n, s)
                else Some (new_ptr (nodeHeap s), added s q)
            | None => None
            end
        | None => None
        end
    end.
Proof.
  intros Hwf. unfold addNode. rewrite bind_get. cbv beta.
  destruct (nodes_ (roadmap s)) as [|m0 l0] eqn:Hnodes.
  - simpl negb. cbv iota. rewrite bind_ret. cbv beta iota.
    apply addNode_create_branch.
  - simpl negb. cbv iota.
    rewrite !bind_assoc.
    erewrite bind_eq; [|apply nearestNode_eq].
    destruct (fold_left _ _ _) as [[n|] d]; simpl fst; cbv beta iota.
    + rewrite bind_assoc. unfold nonnull at 1. rewrite bind_ret. cbv beta.
      rewrite bind_assoc.
      destruct (nodeHeap s !! n) as [obj|] eqn:Hobj.
      * erewrite bind_eq; [|by apply node_at_Some]. cbv beta.
        destruct (config_eqb _ _); rewrite bind_ret; cbv beta iota; [done|].
        apply addNode_create_branch.
      * unfold bind at 1. unfold node_at, bind, get, nonnull. by rewrite Hobj.
    + rewrite bind_assoc. done.
Qed.


Lemma wf_added s q : wf s -> wf (added s q).
Proof.
  intros Hwf. split; cbn.
  - by rewrite (wf_kd_nodes s Hwf).
  - apply (wf_kd_distance s Hwf).
  - intros n Hn. apply elem_of_app in Hn as [Hn|Hn].
    + destruct (wf_node s Hwf n Hn) as (obj & cobj & Hobj & Hcc & Hcobj & Hin).
      exists obj, cobj.
      rewrite lookup_insert_ne by (symmetry; by eapply new_ptr_ne).
      split; [done|]. split; [set_solver|].
      rewrite !lookup_insert_ne by (symmetry; by eapply new_ptr_ne). done.
    + apply list_elem_of_singleton in Hn as ->.
      eexists _, _. rewrite lookup_insert_eq. split; [done|]. cbn.
      split; [set_solver|]. rewrite lookup_insert_eq. split; [done|].
      cbn. set_solver.
  - intros c Hc. apply elem_of_union in Hc as [Hc|Hc].
    + apply elem_of_singleton in Hc as ->. eexists. rewrite lookup_insert_eq.
      split; [done|]. cbn. set_solver.
    + destruct (wf_cc s Hwf c Hc) as (cobj & Hcobj & Hto & Hfrom).
      exists cobj. rewrite !lookup_insert_ne by (symmetry; by eapply new_ptr_ne).
      split; [done|]. set_solver.
Qed.

(** A node with the configuration [q] makes the nearest node one with
    that configuration. *)
Lemma nearest_is_equal q s (m : NodePtr_t) mobj obj :
  metric (distance_ (roadmap s)) ->
  nodeHeap s !! m = Some mobj ->
  config_eqb (Node.configuration_ mobj) q = true ->
  distance_ (roadmap s) q (Node.configuration_ obj)
    <= distance_ (roadmap s) q (Node.configuration_ mobj) ->
  config_eqb (Node.configuration_ obj) q = true.
Proof.
  intros [Hpos Hzero] Hmobj Heq Hle.
  rewrite config_eqb_sym in Heq. apply Hzero in Heq.
  rewrite config_eqb_sym. apply Hzero.
  apply Qle_antisym; [|apply Hpos]. by rewrite <- Heq.
Qed.

Lemma addNode_present q s m mobj :
  wf s -> metric (distance_ (roadmap s)) ->
  m ∈ nodes_ (roadmap s) -> nodeHeap s !! m = Some mobj ->
  config_eqb (Node.configuration_ mobj) q = true ->
  ∃ n obj, addNode q s = Some (n, s)
           ∧ n ∈ nodes_ (roadmap s) ∧ nodeHeap s !! n = Some obj
           ∧ config_eqb (Node.configuration_ obj) q = true.
Proof.
  intros Hwf Hmetric Hm Hmobj Heq.
  assert (Hne : nodes_ (roadmap s) ≠ []).
  { intros Hnil. rewrite Hnil in Hm. by apply elem_of_nil in Hm. }
  destruct (nearestNode_found q s Hwf Hne) as (n & obj & Hnear & Hn & Hobj & Hmin).
  exists n, obj. rewrite nearestNode_eq in Hnear. injection Hnear as Hfold.
  assert (Hq : config_eqb (Node.configuration_ obj) q = true).
  { apply (nearest_is_equal q s m mobj obj); try done. by apply (Hmin m mobj). }
  rewrite addNode_eq by done.
  destruct (nodes_ (roadmap s)) as [|m0 l0] eqn:Hnodes; [done|].
  rewrite Hfold. cbn. rewrite Hobj, Hq. done.
Qed.

Lemma addNode_inv q s n s1 :
  wf s -> metric (distance_ (roadmap s)) ->
  addNode q s = Some (n, s1) ->
  (s1 = s ∧ n ∈ nodes_ (roadmap s)
   ∧ ∃ obj, nodeHeap s !! n = Some obj
            ∧ config_eqb (Node.configuration_ obj) q = true)
  ∨ (s1 = added s q ∧ n = new_ptr (nodeHeap s)
     ∧ ∀ m mobj, m ∈ nodes_ (roadmap s) -> nodeHeap s !! m = Some mobj ->
         config_eqb (Node.configuration_ mobj) q = false).
Proof.
  intros Hwf Hmetric. rewrite addNode_eq by done.
  destruct (nodes_ (roadmap s)) as [|m0 l0] eqn:Hnodes.
  { intros [= <- <-]. right. split; [done|]. split; [done|].
    intros m mobj Hm. by apply elem_of_nil in Hm. }
  assert (Hne : nodes_ (roadmap s) ≠ []) by (by rewrite Hnodes).
  destruct (nearestNode_found q s Hwf Hne) as (n0 & obj0 & Hnear & Hn0 & Hobj0 & Hmin).
  rewrite nearestNode_eq in Hnear. injection Hnear as Hfold.
  rewrite Hfold. cbn. rewrite Hobj0.
  destruct (config_eqb (Node.configuration_ obj0) q) eqn:Hq; intros [= <- <-].
  - left. rewrite Hnodes in Hn0. split; [done|]. split; [done|]. by exists obj0.
  - right. split; [done|]. split; [done|].
    intros m mobj Hm Hmobj.
    destruct (config_eqb (Node.configuration_ mobj) q) eqn:Hmq; [|done].
    rewrite <- Hq. symmetry. apply (nearest_is_equal q s m mobj obj0); try done.
    apply (Hmin m mobj); [by rewrite Hnodes | done].
Qed.

(** Claim C4. When a node of the roadmap has the configuration [q],
    [addNode q] returns a node of the roadmap with that configuration
    and the state is the one before the call: nodes, edges, connected
    components and tree are unchanged.  When a call of [addNode q]
    returns, a second call returns the same node and changes
    nothing. *)
Theorem addNode_idempotent q s :
  wf s -> metric (distance_ (roadmap s)) ->
  (∀ m mobj,
     m ∈ nodes_ (roadmap s) -> nodeHeap s !! m = Some mobj ->
     config_eqb (Node.configuration_ mobj) q = true ->
     ∃ n obj, addNode q s = Some (n, s)
              ∧ n ∈ nodes_ (roadmap s) ∧ nodeHeap s !! n = Some obj
              ∧ config_eqb (Node.configuration_ obj) q = true)
  ∧ (∀ n s1, addNode q s = Some (n, s1) -> addNode q s1 = Some (n, s1)).
Proof.
  intros Hwf Hmetric. split.
  { intros m mobj. by apply addNode_present. }
  intros n s1 Hfirst.
  destruct (addNode_inv q s n s1 Hwf Hmetric Hfirst)
    as [(-> & _)|(-> & -> & Hnone)]; [done|].
  set (n := new_ptr (nodeHeap s)).
  assert (Hobj : nodeHeap (added s q) !! n
                 = Some (Node.create q (new_ptr (ccHeap s))))
    by (cbn; apply lookup_insert_eq).
  destruct (addNode_present q (added s q) n
              (Node.create q (new_ptr (ccHeap s))) (wf_added s q Hwf) Hmetric)
    as (n' & obj' & Hsecond & Hn' & Hobj' & Hq'); try done.
  { cbn. set_solver. }
  { cbn. apply config_eqb_refl. }
  rewrite Hsecond. cbn in Hn'. apply elem_of_app in Hn' as [Hn'|Hn'].
  - destruct (wf_node s Hwf n' Hn') as (obj & cobj & Hobj2 & _).
    cbn in Hobj'. rewrite lookup_insert_ne in Hobj'
      by (symmetry; by eapply new_ptr_ne).
    rewrite Hobj2 in Hobj'. injection Hobj' as <-.
    by rewrite (Hnone n' obj Hn' Hobj2) in Hq'.
  - by apply list_elem_of_singleton in Hn' as ->.
Qed.


(** *** merge *)

Lemma repoint_lookup cc1 (l : list NodePtr_t) (h : gmap NodePtr_t Node.t) n :
  foldr (λ n h, alter (Node.set_connectedComponent cc1) n h) h l !! n
  = if bool_decide (n ∈ l)
    then Node.set_connectedComponent cc1 <$> h !! n
    else h !! n.
Proof.
  induction l as [|m l IH]; cbn [foldr].
  - by rewrite bool_decide_eq_false_2 by apply not_elem_of_nil.
  - destruct (decide (m = n)) as [->|Hne].
    + rewrite lookup_alter_eq, IH.
      rewrite (bool_decide_eq_true_2 (n ∈ n :: l)) by (apply elem_of_cons; by left).
      case_bool_decide; [|done].
      destruct (h !! n) as [obj|]; by simpl.
    + rewrite lookup_alter_ne by done. rewrite IH.
      rewrite (bool_decide_ext (n ∈ m :: l) (n ∈ l)); [done|].
      rewrite elem_of_cons. naive_solver.
Qed.

Lemma replace_cc_subseteq old new (x X : gset ConnectedComponentPtr_t) :
  x ⊆ X -> new ∈ X -> new ≠ old ->
  ConnectedComponent.replace_cc old new x ⊆ X ∖ {[old]}.
Proof.
  intros Hx Hnew Hne. unfold ConnectedComponent.replace_cc.
  case_decide; set_solver.
Qed.

Lemma merge_body_eq cc1 c s o1 oc :
  c ≠ cc1 -> ccHeap s !! cc1 = Some o1 -> ccHeap s !! c = Some oc ->
  c ∈ connectedComponents_ (roadmap s) ->
  (if negb (bool_decide (c = cc1))
   then bind (cc_merge cc1 c)
          (λ _, bind (connectedComponents_erase c) (λ nb, assert (nb =? 1)%nat))
   else ret tt) s
  = Some (tt, absorb cc1 s c).
Proof.
  intros Hne H1 Hc Hin. rewrite bool_decide_eq_false_2 by done. cbn [negb].
  unfold cc_merge, absorb. rewrite bind_assoc, bind_get. cbv beta.
  unfold ConnectedComponent.merge. rewrite H1, Hc.
  rewrite bind_assoc. unfold nonnull at 1. rewrite bind_ret. cbv beta iota.
  rewrite bind_assoc, bind_modify. cbv beta.
  rewrite bind_modify. cbv beta.
  unfold connectedComponents_erase. rewrite bind_assoc, bind_get. cbv beta.
  rewrite bind_assoc, bind_modify. cbv beta. rewrite bind_ret. cbv beta.
  cbn. rewrite bool_decide_eq_true_2 by done. reflexivity.
Qed.

Lemma wf_absorb cc1 c s :
  wf s -> cc1 ∈ connectedComponents_ (roadmap s) ->
  c ∈ connectedComponents_ (roadmap s) -> c ≠ cc1 ->
  wf (absorb cc1 s c).
Proof.
  intros Hwf H1 Hc Hne.
  destruct (wf_cc s Hwf cc1 H1) as (o1 & Ho1 & Hto1 & Hfrom1).
  destruct (wf_cc s Hwf c Hc) as (oc & Hoc & Htoc & Hfromc).
  unfold absorb, ConnectedComponent.merge. rewrite Ho1, Hoc.
  split; cbn.
  - apply (wf_kd_nodes s Hwf).
  - apply (wf_kd_distance s Hwf).
  - intros n Hn.
    destruct (wf_node s Hwf n Hn) as (obj & xobj & Hobj & Hx & Hxobj & Hin).
    rewrite repoint_lookup, Hobj.
    case_bool_decide as Hnc; simpl.
    + eexists _, _. split; [done|]. cbn. split; [set_solver|].
      rewrite lookup_insert_eq. split; [done|]. cbn. set_solver.
    + assert (Node.connectedComponent_ obj ≠ c) as Hxc.
      { intros Heq. rewrite Heq, Hoc in Hxobj. injection Hxobj as <-. done. }
      destruct (decide (Node.connectedComponent_ obj = cc1)) as [Heq|Hx1].
      * eexists _, _. split; [done|]. split; [set_solver|].
        rewrite Heq, lookup_insert_eq. split; [done|]. cbn.
        rewrite Heq, Ho1 in Hxobj. injection Hxobj as <-. set_solver.
      * eexists _, _. split; [done|]. split; [set_solver|].
        rewrite lookup_insert_ne by done. rewrite lookup_insert_ne by done.
        rewrite lookup_fmap, Hxobj. simpl. split; [done|]. done.
  - intros x Hx. apply elem_of_difference in Hx as [Hx Hxc].
    assert (x ≠ c) as Hxc' by set_solver.
    destruct (decide (x = cc1)) as [->|Hx1].
    + eexists. rewrite lookup_insert_eq. split; [done|]. cbn. set_solver.
    + destruct (wf_cc s Hwf x Hx) as (xobj & Hxobj & Htox & Hfromx).
      eexists. rewrite lookup_insert_ne by done. rewrite lookup_insert_ne by done.
      rewrite lookup_fmap, Hxobj. simpl. split; [done|]. cbn.
      split; apply replace_cc_subseteq; done.
Qed.

Lemma absorb_components cc1 c s :
  is_Some (ccHeap s !! cc1) -> is_Some (ccHeap s !! c) ->
  connectedComponents_ (roadmap (absorb cc1 s c))
  = connectedComponents_ (roadmap s) ∖ {[c]}.
Proof.
  intros [o1 Ho1] [oc Hoc]. unfold absorb, ConnectedComponent.merge.
  by rewrite Ho1, Hoc.
Qed.

(** The loop of [merge] runs to its end on components of the roadmap. *)
Lemma merge_eq cc1 (ccs : list ConnectedComponentPtr_t) s :
  wf s -> cc1 ∈ connectedComponents_ (roadmap s) ->
  NoDup ccs -> (∀ c, c ∈ ccs -> c ∈ connectedComponents_ (roadmap s)) ->
  for_each ccs tt
    (λ itcc _,
       if negb (bool_decide (itcc = cc1))
       then bind (cc_merge cc1 itcc)
              (λ _, bind (connectedComponents_erase itcc)
                      (λ nb, assert (nb =? 1)%nat))
       else ret tt) s
  = Some (tt, absorb_all cc1 ccs s)
  ∧ wf (absorb_all cc1 ccs s)
  ∧ connectedComponents_ (roadmap (absorb_all cc1 ccs s))
    = connectedComponents_ (roadmap s) ∖ (list_to_set ccs ∖ {[cc1]}).
Proof.
  intros Hwf H1 Hnd Hall. revert s Hwf H1 Hall.
  induction Hnd as [|c l Hc Hnd IH]; intros s Hwf H1 Hall.
  - simpl. split; [done|]. split; [done|]. set_solver.
  - cbn [for_each absorb_all fold_left].
    destruct (decide (c = cc1)) as [->|Hne].
    + rewrite !bool_decide_eq_true_2 by done. cbn [negb].
      rewrite bind_ret. cbv beta.
      destruct (IH s Hwf H1) as (Hrun & Hwf' & Hccs).
      { intros c' Hc'. apply Hall. apply elem_of_cons; by right. }
      split; [done|]. split; [done|].
      fold (absorb_all cc1 l s). rewrite Hccs. set_solver.
    + assert (c ∈ connectedComponents_ (roadmap s)) as Hcin
        by (apply Hall, elem_of_cons; by left).
      destruct (wf_cc s Hwf cc1 H1) as (o1 & Ho1 & _).
      destruct (wf_cc s Hwf c Hcin) as (oc & Hoc & _).
      erewrite bind_eq; [|by eapply merge_body_eq].
      rewrite (bool_decide_eq_false_2 (c = cc1)) by done.
      pose proof (absorb_components cc1 c s (mk_is_Some _ _ Ho1) (mk_is_Some _ _ Hoc)) as Hcs.
      destruct (IH (absorb cc1 s c)) as (Hrun & Hwf' & Hccs).
      { by apply wf_absorb. }
      { rewrite Hcs. set_solver. }
      { intros c' Hc'. rewrite Hcs. apply elem_of_difference. split.
        - apply Hall, elem_of_cons; by right.
        - intros ->%elem_of_singleton. done. }
      split; [done|]. split; [done|].
      fold (absorb_all cc1 l (absorb cc1 s c)). rewrite Hccs, Hcs.
      rewrite list_to_set_cons. set_solver.
Qed.


(** One turn of the loop, seen from the nodes. *)
Lemma absorb_nodes_of cc1 c s o1 oc :
  c ≠ cc1 -> ccHeap s !! cc1 = Some o1 -> ccHeap s !! c = Some oc ->
  nodes_of (absorb cc1 s c) cc1 = nodes_of s cc1 ++ nodes_of s c
  ∧ (∀ x, x ≠ cc1 -> x ≠ c -> nodes_of (absorb cc1 s c) x = nodes_of s x)
  ∧ (∀ n, component_of (absorb cc1 s c) n
          = if bool_decide (n ∈ nodes_of s c)
            then (λ _, cc1) <$> nodeHeap s !! n
            else component_of s n).
Proof.
  intros Hne Ho1 Hoc.
  unfold nodes_of, component_of, absorb, ConnectedComponent.merge.
  rewrite Ho1, Hoc. cbn. split; [|split].
  - by rewrite lookup_insert_eq.
  - intros x Hx1 Hxc. rewrite lookup_insert_ne by done.
    rewrite lookup_insert_ne by done. rewrite lookup_fmap.
    by destruct (ccHeap s !! x).
  - intros n. rewrite repoint_lookup. case_bool_decide; [|done].
    by destruct (nodeHeap s !! n).
Qed.

Lemma absorb_all_nodes cc1 (ccs : list ConnectedComponentPtr_t) s :
  wf s -> cc1 ∈ connectedComponents_ (roadmap s) ->
  NoDup ccs -> (∀ c, c ∈ ccs -> c ∈ connectedComponents_ (roadmap s)) ->
  (∀ n, n ∈ nodes_of s cc1 -> n ∈ nodes_of (absorb_all cc1 ccs s) cc1)
  ∧ (∀ n, component_of s n = Some cc1 ->
          component_of (absorb_all cc1 ccs s) n = Some cc1)
  ∧ (∀ c n, c ∈ ccs -> c ≠ cc1 -> n ∈ nodes_of s c ->
       n ∈ nodes_of (absorb_all cc1 ccs s) cc1
       ∧ (is_Some (nodeHeap s !! n) ->
          component_of (absorb_all cc1 ccs s) n = Some cc1)).
Proof.
  intros Hwf H1 Hnd Hall. revert s Hwf H1 Hall.
  induction Hnd as [|c l Hc Hnd IH]; intros s Hwf H1 Hall.
  - split; [done|]. split; [done|]. intros c n Hc. by apply elem_of_nil in Hc.
  - cbn [absorb_all fold_left].
    destruct (decide (c = cc1)) as [->|Hne].
    + rewrite bool_decide_eq_true_2 by done. fold (absorb_all cc1 l s).
      destruct (IH s Hwf H1) as (Hi & Hii & Hiii).
      { intros c' Hc'. apply Hall. apply elem_of_cons; by right. }
      split; [done|]. split; [done|].
      intros c n Hcin Hcne. apply elem_of_cons in Hcin as [->|Hcin]; [done|].
      by apply Hiii.
    + rewrite bool_decide_eq_false_2 by done.
      fold (absorb_all cc1 l (absorb cc1 s c)).
      assert (c ∈ connectedComponents_ (roadmap s)) as Hcin
        by (apply Hall, elem_of_cons; by left).
      destruct (wf_cc s Hwf cc1 H1) as (o1 & Ho1 & _).
      destruct (wf_cc s Hwf c Hcin) as (oc & Hoc & _).
      pose proof (absorb_components cc1 c s (mk_is_Some _ _ Ho1) (mk_is_Some _ _ Hoc)) as Hcs.
      destruct (absorb_nodes_of cc1 c s o1 oc Hne Ho1 Hoc) as (Ha & Hb & Hcomp).
      destruct (IH (absorb cc1 s c)) as (Hi & Hii & Hiii).
      { by apply wf_absorb. }
      { rewrite Hcs. set_solver. }
      { intros c' Hc'. rewrite Hcs. apply elem_of_difference. split.
        - apply Hall, elem_of_cons; by right.
        - intros ->%elem_of_singleton. done. }
      assert (Hkeep : ∀ n, component_of s n = Some cc1 ->
                component_of (absorb cc1 s c) n = Some cc1).
      { intros n Hn. rewrite Hcomp. case_bool_decide; [|done].
        unfold component_of in Hn. by destruct (nodeHeap s !! n). }
      split; [|split].
      * intros n Hn. apply Hi. rewrite Ha. apply elem_of_app; by left.
      * intros n Hn. by apply Hii, Hkeep.
      * intros c' n Hc' Hc'1 Hn. apply elem_of_cons in Hc' as [->|Hc'].
        -- split.
           ++ apply Hi. rewrite Ha. apply elem_of_app; by right.
           ++ intros [obj Hobj]. apply Hii. rewrite Hcomp.
              rewrite bool_decide_eq_true_2 by done. by rewrite Hobj.
        -- assert (c' ≠ c) as Hc'c by (intros ->; done).
           destruct (Hiii c' n Hc' Hc'1) as [Hin Hpt].
           { by rewrite Hb. }
           split; [done|]. intros [obj Hobj]. apply Hpt.
           specialize (Hcomp n). unfold component_of in Hcomp.
           rewrite Hobj in Hcomp.
           destruct (nodeHeap (absorb cc1 s c) !! n); [done|].
           by case_bool_decide.
Qed.

(** *** The traversal of [canReach] *)

Lemma expand_incl (ccs : gmap ConnectedComponentPtr_t ConnectedComponent.t)
    (X : gset ConnectedComponentPtr_t) :
  X ⊆ ConnectedComponent.expand ccs X.
Proof. unfold ConnectedComponent.expand. set_solver. Qed.

Lemma elem_of_expand (ccs : gmap ConnectedComponentPtr_t ConnectedComponent.t)
    (X : gset ConnectedComponentPtr_t) y :
  y ∈ ConnectedComponent.expand ccs X
  <-> y ∈ X ∨ ∃ x, x ∈ X ∧ y ∈ ConnectedComponent.successors ccs x.
Proof.
  unfold ConnectedComponent.expand.
  rewrite elem_of_union, elem_of_set_bind. naive_solver.
Qed.

Lemma iter_expand_incl (ccs : gmap ConnectedComponentPtr_t ConnectedComponent.t)
    n (X : gset ConnectedComponentPtr_t) :
  X ⊆ Nat.iter n (ConnectedComponent.expand ccs) X.
Proof.
  induction n as [|n IH]; [done|]. rewrite ?Nat.iter_succ.
  etrans; [exact IH|]. apply expand_incl.
Qed.

(** Rounds stay within a set that holds the start and the successors
    of its elements. *)
Lemma iter_expand_within (ccs : gmap ConnectedComponentPtr_t ConnectedComponent.t)
    n (X V : gset ConnectedComponentPtr_t) :
  X ⊆ V ->
  (∀ x, x ∈ V -> ConnectedComponent.successors ccs x ⊆ V) ->
  Nat.iter n (ConnectedComponent.expand ccs) X ⊆ V.
Proof.
  intros HX HV. induction n as [|n IH]; [done|]. rewrite ?Nat.iter_succ.
  intros y [Hy|(x & Hx & Hy)]%elem_of_expand; [by apply IH|].
  by apply (HV x (IH x Hx)).
Qed.

(** Each round visits a component not seen before, or the rounds have
    come to an end. *)
Lemma iter_expand_grows (ccs : gmap ConnectedComponentPtr_t ConnectedComponent.t)
    n (X : gset ConnectedComponentPtr_t) :
  ConnectedComponent.expand ccs (Nat.iter n (ConnectedComponent.expand ccs) X)
    ⊆ Nat.iter n (ConnectedComponent.expand ccs) X
  ∨ (n + size X <= size (Nat.iter n (ConnectedComponent.expand ccs) X))%nat.
Proof.
  induction n as [|n IH]; [right; cbn; lia|]. rewrite ?Nat.iter_succ.
  set (Y := Nat.iter n (ConnectedComponent.expand ccs) X) in *.
  destruct (decide (ConnectedComponent.expand ccs Y ⊆ Y)) as [Hfix|Hgrow].
  - left. assert (ConnectedComponent.expand ccs Y = Y) as ->; [|done].
    apply set_eq. intros y. split; [apply Hfix|apply expand_incl].
  - right. destruct IH as [Hfix|Hsize]; [done|].
    assert (Y ⊂ ConnectedComponent.expand ccs Y) as Hlt.
    { split; [apply expand_incl|done]. }
    apply subset_size in Hlt. lia.
Qed.

(** With as many rounds as a set that holds them has elements, the
    rounds from a start that is not empty have come to an end. *)
Lemma iter_expand_closed (ccs : gmap ConnectedComponentPtr_t ConnectedComponent.t)
    n (X V : gset ConnectedComponentPtr_t) x0 :
  x0 ∈ X -> X ⊆ V ->
  (∀ x, x ∈ V -> ConnectedComponent.successors ccs x ⊆ V) ->
  (size V <= n)%nat ->
  ConnectedComponent.expand ccs (Nat.iter n (ConnectedComponent.expand ccs) X)
    ⊆ Nat.iter n (ConnectedComponent.expand ccs) X.
Proof.
  intros Hx0 HX HV Hn.
  destruct (iter_expand_grows ccs n X) as [Hfix|Hsize]; [done|]. exfalso.
  pose proof (iter_expand_within ccs n X V HX HV) as Hin.
  apply subseteq_size in Hin.
  assert (size X ≠ 0%nat) as Hne.
  { intros H0%size_empty_inv. set_solver. }
  lia.
Qed.

Lemma downward_self (ccs : gmap ConnectedComponentPtr_t ConnectedComponent.t)
    c cobj :
  c ∈ ConnectedComponent.downward ccs c cobj.
Proof.
  unfold ConnectedComponent.downward. apply iter_expand_incl. set_solver.
Qed.

Lemma canReach_self (ccs : gmap ConnectedComponentPtr_t ConnectedComponent.t)
    c cobj :
  ConnectedComponent.canReach ccs c cobj c = true.
Proof.
  unfold ConnectedComponent.canReach. apply bool_decide_eq_true_2, downward_self.
Qed.

Lemma canReach_linked (ccs : gmap ConnectedComponentPtr_t ConnectedComponent.t)
    c cobj c' :
  c' ∈ ConnectedComponent.reachableTo_ cobj ->
  ConnectedComponent.canReach ccs c cobj c' = true.
Proof.
  intros Hc'. unfold ConnectedComponent.canReach, ConnectedComponent.downward.
  apply bool_decide_eq_true_2, iter_expand_incl. set_solver.
Qed.

(** What the traversal visits is reached by a chain of links. *)
Lemma downward_chain s c cobj c' :
  ccHeap s !! c = Some cobj ->
  c' ∈ ConnectedComponent.downward (ccHeap s) c cobj -> chain s c c'.
Proof.
  intros Hc. unfold ConnectedComponent.downward.
  generalize (size (ccHeap s)). intros n. revert c'.
  induction n as [|n IH]; intros c'; rewrite ?Nat.iter_succ.
  - cbn [Nat.iter nat_rect].
    intros [->%elem_of_singleton|Hc']%elem_of_union; [apply rtc_refl|].
    apply rtc_once. unfold link, reachableTo. by rewrite Hc.
  - intros [Hc'|(x & Hx & Hc')]%elem_of_expand; [by apply IH|].
    eapply rtc_r; [by apply IH|]. exact Hc'.
Qed.

Lemma wf_successors s x :
  wf s -> x ∈ connectedComponents_ (roadmap s) ->
  ConnectedComponent.successors (ccHeap s) x
    ⊆ connectedComponents_ (roadmap s).
Proof.
  intros Hwf Hx. destruct (wf_cc s Hwf x Hx) as (o & Ho & Hto & _).
  unfold ConnectedComponent.successors. by rewrite Ho.
Qed.

Lemma wf_size s :
  wf s -> (size (connectedComponents_ (roadmap s)) <= size (ccHeap s))%nat.
Proof.
  intros Hwf. rewrite <- size_dom. apply subseteq_size. intros c Hc.
  destruct (wf_cc s Hwf c Hc) as (o & Ho & _). apply elem_of_dom. by exists o.
Qed.

Lemma downward_subseteq s c cobj :
  wf s -> c ∈ connectedComponents_ (roadmap s) ->
  ccHeap s !! c = Some cobj ->
  ConnectedComponent.downward (ccHeap s) c cobj
    ⊆ connectedComponents_ (roadmap s).
Proof.
  intros Hwf Hc Ho. apply iter_expand_within.
  - pose proof (wf_successors s c Hwf Hc) as Hto.
    unfold ConnectedComponent.successors in Hto. rewrite Ho in Hto. set_solver.
  - intros x Hx. by apply wf_successors.
Qed.

(** On a component of the roadmap the traversal visits every component
    a chain of links leads to. *)
Lemma chain_downward s c cobj c' :
  wf s -> c ∈ connectedComponents_ (roadmap s) ->
  ccHeap s !! c = Some cobj ->
  chain s c c' -> c' ∈ ConnectedComponent.downward (ccHeap s) c cobj.
Proof.
  intros Hwf Hc Ho Hchain.
  assert (Hclosed :
    ConnectedComponent.expand (ccHeap s)
      (ConnectedComponent.downward (ccHeap s) c cobj)
    ⊆ ConnectedComponent.downward (ccHeap s) c cobj).
  { unfold ConnectedComponent.downward.
    apply (iter_expand_closed _ _ _ (connectedComponents_ (roadmap s)) c).
    - set_solver.
    - pose proof (wf_successors s c Hwf Hc) as Hto.
      unfold ConnectedComponent.successors in Hto. rewrite Ho in Hto. set_solver.
    - intros x Hx. by apply wf_successors.
    - by apply wf_size. }
  unfold chain in Hchain. revert c' Hchain. apply rtc_ind_r.
  - apply iter_expand_incl. set_solver.
  - intros x y _ Hxy IH.
    apply Hclosed, elem_of_expand. right. exists x. split; [done|]. exact Hxy.
Qed.

(** [canReach] on a component of the roadmap answers whether a chain
    of links leads from the first component to the second. *)
Lemma canReach_chain c1 c2 s b s' :
  wf s -> c1 ∈ connectedComponents_ (roadmap s) ->
  canReach c1 c2 s = Some (b, s') -> b = true <-> chain s c1 c2.
Proof.
  intros Hwf Hc Hrun. apply canReach_inv in Hrun as (o & Ho & -> & _).
  unfold ConnectedComponent.canReach. rewrite bool_decide_eq_true. split.
  - by apply downward_chain.
  - by apply chain_downward.
Qed.

(** Where the sets are transitively closed, [canReach] is membership
    in [reachableTo_], the component itself apart. *)
Lemma canReach_closed_membership c1 c2 s cobj :
  wf s -> transitively_closed s ->
  c1 ∈ connectedComponents_ (roadmap s) ->
  ccHeap s !! c1 = Some cobj ->
  ConnectedComponent.canReach (ccHeap s) c1 cobj c2
  = bool_decide (c2 = c1)
    || bool_decide (c2 ∈ ConnectedComponent.reachableTo_ cobj).
Proof.
  intros Hwf Hclosed Hc Ho.
  pose proof (wf_successors s c1 Hwf Hc) as Hto.
  unfold ConnectedComponent.successors in Hto. rewrite Ho in Hto.
  assert (Hstay : ∀ n,
    Nat.iter n (ConnectedComponent.expand (ccHeap s))
      ({[c1]} ∪ ConnectedComponent.reachableTo_ cobj)
    = {[c1]} ∪ ConnectedComponent.reachableTo_ cobj).
  { induction n as [|n IH]; [done|]. rewrite ?Nat.iter_succ. rewrite IH.
    apply set_eq. intros y. rewrite elem_of_expand. split; [|by left].
    intros [Hy|(x & Hx & Hy)]; [done|].
    apply elem_of_union in Hx as [->%elem_of_singleton|Hx].
    - unfold ConnectedComponent.successors in Hy. rewrite Ho in Hy. set_solver.
    - apply elem_of_union_r.
      pose proof (wf_successors s x Hwf (Hto x Hx) y Hy) as Hyc.
      pose proof (Hclosed c1 x y Hc (Hto x Hx) Hyc) as Hone.
      unfold reachableTo in Hone. rewrite Ho in Hone. apply Hone; [done|].
      exact Hy. }
  unfold ConnectedComponent.canReach, ConnectedComponent.downward.
  rewrite Hstay. apply eq_true_iff_eq.
  rewrite orb_true_iff, !bool_decide_eq_true, elem_of_union, elem_of_singleton.
  done.
Qed.

(** *** connect *)

Lemma connect_eq cc1 cc2 s o1 o2 :
  ccHeap s !! cc1 = Some o1 -> ccHeap s !! cc2 = Some o2 ->
  connect cc1 cc2 s
  = if ConnectedComponent.canReach (ccHeap s) cc1 o1 cc2 then Some (tt, s)
    else if ConnectedComponent.canReach (ccHeap s) cc2 o2 cc1
         then merge cc1 (ConnectedComponent.between (ccHeap s) cc2 o2 cc1) s
         else Some (tt,
                with_ccHeap
                  (λ h, <[cc2 := ConnectedComponent.insert_reachableFrom cc1 o2]>
                          (<[cc1 := ConnectedComponent.insert_reachableTo cc2 o1]> h))
                  s).
Proof.
  intros Ho1 Ho2. unfold connect.
  erewrite bind_eq; [|by apply canReach_Some].
  destruct (ConnectedComponent.canReach (ccHeap s) cc1 o1 cc2) eqn:Hreach; [done|].
  unfold canReach_collect. rewrite bind_assoc, bind_get. cbv beta.
  rewrite bind_assoc. erewrite bind_eq; [|by apply cc_at_Some].
  rewrite bind_ret. cbv beta. unfold ConnectedComponent.canReach_collect.
  destruct (ConnectedComponent.canReach (ccHeap s) cc2 o2 cc1) eqn:Hback; [done|].
  assert (cc1 ≠ cc2) as Hne.
  { intros ->. by rewrite canReach_self in Hreach. }
  erewrite bind_eq; [|by apply update_cc_Some].
  erewrite update_cc_Some; [done|].
  cbn. by rewrite lookup_insert_ne.
Qed.


(** Claim C2, as the code has it. When neither component can reach the
    other, [connect cc1 cc2] returns, adds [cc2] to the components
    reachable from [cc1] and [cc1] to those that reach [cc2], and
    changes nothing else: the sets of every other component, the
    components of the roadmap and the nodes are as before. *)
Theorem connect_links_the_two_components cc1 cc2 s :
  canReach cc1 cc2 s = Some (false, s) ->
  canReach cc2 cc1 s = Some (false, s) ->
  ∃ s', connect cc1 cc2 s = Some (tt, s')
        ∧ reachableTo s' cc1 = {[cc2]} ∪ reachableTo s cc1
        ∧ reachableFrom s' cc2 = {[cc1]} ∪ reachableFrom s cc2
        ∧ (∀ c, c ≠ cc1 -> reachableTo s' c = reachableTo s c)
        ∧ (∀ c, c ≠ cc2 -> reachableFrom s' c = reachableFrom s c)
        ∧ roadmap s' = roadmap s
        ∧ nodeHeap s' = nodeHeap s
        ∧ edgeHeap s' = edgeHeap s.
Proof.
  intros H12 H21.
  apply canReach_inv in H12 as (o1 & Ho1 & H12 & _).
  apply canReach_inv in H21 as (o2 & Ho2 & H21 & _).
  assert (cc1 ≠ cc2) as Hne.
  { intros ->. by rewrite canReach_self in H12. }
  eexists. rewrite (connect_eq cc1 cc2 s o1 o2 Ho1 Ho2), <- H12, <- H21.
  split; [done|]. unfold reachableTo, reachableFrom. cbn.
  rewrite lookup_insert_eq, Ho1, Ho2.
  rewrite lookup_insert_ne by done. rewrite lookup_insert_eq. cbn.
  split; [done|]. split; [done|]. split; [|split; [|done]].
  - intros c Hc. destruct (decide (c = cc2)) as [->|Hc2].
    + by rewrite lookup_insert_eq, Ho2.
    + rewrite lookup_insert_ne by done. by rewrite lookup_insert_ne by done.
  - intros c Hc. rewrite lookup_insert_ne by done.
    destruct (decide (c = cc1)) as [->|Hc1].
    + by rewrite lookup_insert_eq, Ho1.
    + by rewrite lookup_insert_ne by done.
Qed.

Lemma between_subseteq s cc1 cc2 o2 :
  wf s -> cc2 ∈ connectedComponents_ (roadmap s) ->
  ccHeap s !! cc2 = Some o2 ->
  ConnectedComponent.between (ccHeap s) cc2 o2 cc1
    ⊆ connectedComponents_ (roadmap s).
Proof.
  intros Hwf H2 Ho2. unfold ConnectedComponent.between. intros c Hc.
  apply elem_of_filter in Hc as [_ Hc].
  by apply (downward_subseteq s cc2 o2 Hwf H2 Ho2).
Qed.

(** The set that [connect] merges holds the components on the chains
    of links from [cc2] to [cc1], and no other. *)
Lemma cycle_of_chain s cc1 cc2 c :
  wf s -> cc2 ∈ connectedComponents_ (roadmap s) ->
  c ∈ cycle_of s cc1 cc2 <-> chain s cc2 c ∧ chain s c cc1.
Proof.
  intros Hwf H2. destruct (wf_cc s Hwf cc2 H2) as (o2 & Ho2 & _).
  unfold cycle_of, ConnectedComponent.between. rewrite Ho2, elem_of_filter.
  unfold ConnectedComponent.reaches. split.
  - intros [Hback Hc].
    pose proof (downward_subseteq s cc2 o2 Hwf H2 Ho2 c Hc) as Hin.
    destruct (wf_cc s Hwf c Hin) as (o & Ho & _). rewrite Ho in Hback.
    split; [by apply (downward_chain s cc2 o2)|].
    apply (downward_chain s c o); [done|].
    unfold ConnectedComponent.canReach in Hback.
    by apply bool_decide_eq_true in Hback.
  - intros [Hto Hback].
    pose proof (chain_downward s cc2 o2 c Hwf H2 Ho2 Hto) as Hc.
    pose proof (downward_subseteq s cc2 o2 Hwf H2 Ho2 c Hc) as Hin.
    destruct (wf_cc s Hwf c Hin) as (o & Ho & _). rewrite Ho.
    split; [|done]. unfold ConnectedComponent.canReach.
    by apply bool_decide_eq_true_2, chain_downward.
Qed.

(** When no chain of links leads from [cc1] to [cc2] and one leads
    from [cc2] to [cc1], [connect cc1 cc2] merges into [cc1] the
    components on the chains from [cc2] to [cc1]. *)
Lemma connect_cycle cc1 cc2 s :
  wf s ->
  cc1 ∈ connectedComponents_ (roadmap s) ->
  cc2 ∈ connectedComponents_ (roadmap s) ->
  ¬ chain s cc1 cc2 ->
  chain s cc2 cc1 ->
  ∃ s', connect cc1 cc2 s = Some (tt, s')
        ∧ canReach cc1 cc2 s = Some (false, s)
        ∧ canReach cc2 cc1 s = Some (true, s)
        ∧ connectedComponents_ (roadmap s')
          = connectedComponents_ (roadmap s) ∖ (cycle_of s cc1 cc2 ∖ {[cc1]})
        ∧ (∀ c, chain s cc2 c -> chain s c cc1 -> c ≠ cc1 ->
             c ∉ connectedComponents_ (roadmap s'))
        ∧ cc1 ∈ connectedComponents_ (roadmap s')
        ∧ (∀ c n, chain s cc2 c -> chain s c cc1 -> c ≠ cc1 ->
             n ∈ nodes_of s c ->
             n ∈ nodes_of s' cc1
             ∧ (n ∈ nodes_ (roadmap s) -> component_of s' n = Some cc1))
        ∧ wf s'.
Proof.
  intros Hwf H1 H2 Hno Hback.
  destruct (wf_cc s Hwf cc1 H1) as (o1 & Ho1 & _).
  destruct (wf_cc s Hwf cc2 H2) as (o2 & Ho2 & _).
  assert (H12 : ConnectedComponent.canReach (ccHeap s) cc1 o1 cc2 = false).
  { apply bool_decide_eq_false_2. intros Hin. apply Hno.
    by apply (downward_chain s cc1 o1). }
  assert (H21 : ConnectedComponent.canReach (ccHeap s) cc2 o2 cc1 = true).
  { by apply bool_decide_eq_true_2, chain_downward. }
  rewrite (connect_eq cc1 cc2 s o1 o2 Ho1 Ho2), H12, H21.
  rewrite (canReach_Some cc1 cc2 s o1 Ho1), (canReach_Some cc2 cc1 s o2 Ho2).
  rewrite H12, H21.
  pose proof (λ c, cycle_of_chain s cc1 cc2 c Hwf H2) as Hcycle.
  revert Hcycle. unfold cycle_of. rewrite Ho2.
  set (R := ConnectedComponent.between (ccHeap s) cc2 o2 cc1). intros Hcycle.
  assert (HR : R ⊆ connectedComponents_ (roadmap s)) by by apply between_subseteq.
  destruct (merge_eq cc1 (elements R) s Hwf H1) as (Hrun & Hwf' & Hccs).
  { apply NoDup_elements. }
  { intros c Hc%elem_of_elements. by apply HR. }
  destruct (absorb_all_nodes cc1 (elements R) s Hwf H1) as (_ & _ & Hnodes).
  { apply NoDup_elements. }
  { intros c Hc%elem_of_elements. by apply HR. }
  rewrite list_to_set_elements_L in Hccs.
  exists (absorb_all cc1 (elements R) s). unfold merge.
  split; [done|]. split; [done|]. split; [done|]. split; [done|]. rewrite Hccs.
  split.
  { intros c Hto Hfrom Hne. assert (c ∈ R) by by apply Hcycle. set_solver. }
  split; [set_solver|]. split; [|done].
  intros c n Hto Hfrom Hc1 Hn.
  assert (Hc : c ∈ R) by by apply Hcycle.
  destruct (Hnodes c n) as [Hin Hpt]; try done.
  { by apply elem_of_elements. }
  split; [done|]. intros Hroad. apply Hpt.
  destruct (wf_node s Hwf n Hroad) as (obj & _ & Hobj & _). by exists obj.
Qed.

(** [connect] returns on components of the roadmap and keeps the
    state well formed. *)
Lemma connect_wf cc1 cc2 s :
  wf s ->
  cc1 ∈ connectedComponents_ (roadmap s) ->
  cc2 ∈ connectedComponents_ (roadmap s) ->
  ∃ s', connect cc1 cc2 s = Some (tt, s') ∧ wf s'.
Proof.
  intros Hwf H1 H2.
  destruct (wf_cc s Hwf cc1 H1) as (o1 & Ho1 & Hto1 & Hfrom1).
  destruct (wf_cc s Hwf cc2 H2) as (o2 & Ho2 & Hto2 & Hfrom2).
  destruct (ConnectedComponent.canReach (ccHeap s) cc1 o1 cc2) eqn:H12.
  { exists s. by rewrite (connect_eq cc1 cc2 s o1 o2 Ho1 Ho2), H12. }
  destruct (ConnectedComponent.canReach (ccHeap s) cc2 o2 cc1) eqn:H21.
  { set (R := ConnectedComponent.between (ccHeap s) cc2 o2 cc1).
    destruct (merge_eq cc1 (elements R) s Hwf H1) as (Hrun & Hwf' & _).
    - apply NoDup_elements.
    - intros c Hc%elem_of_elements.
      by apply (between_subseteq s cc1 cc2 o2 Hwf H2 Ho2).
    - exists (absorb_all cc1 (elements R) s).
      by rewrite (connect_eq cc1 cc2 s o1 o2 Ho1 Ho2), H12, H21. }
  assert (cc1 ≠ cc2) as Hne.
  { intros ->. by rewrite canReach_self in H12. }
  eexists. rewrite (connect_eq cc1 cc2 s o1 o2 Ho1 Ho2), H12, H21.
  split; [done|]. split; cbn.
  - apply (wf_kd_nodes s Hwf).
  - apply (wf_kd_distance s Hwf).
  - intros n Hn.
    destruct (wf_node s Hwf n Hn) as (obj & cobj & Hobj & Hcc & Hcobj & Hin).
    exists obj. destruct (decide (Node.connectedComponent_ obj = cc2)) as [Heq|Hc2].
    + eexists. split; [done|]. split; [done|].
      rewrite Heq, lookup_insert_eq. split; [done|].
      cbn. rewrite Heq, Ho2 in Hcobj. by injection Hcobj as <-.
    + rewrite lookup_insert_ne by done.
      destruct (decide (Node.connectedComponent_ obj = cc1)) as [Heq|Hc1].
      * eexists. split; [done|]. split; [done|].
        rewrite Heq, lookup_insert_eq. split; [done|].
        cbn. rewrite Heq, Ho1 in Hcobj. by injection Hcobj as <-.
      * exists cobj. by rewrite lookup_insert_ne by done.
  - intros c Hc. destruct (decide (c = cc2)) as [->|Hc2].
    + eexists. rewrite lookup_insert_eq. split; [done|]. cbn. set_solver.
    + rewrite lookup_insert_ne by done.
      destruct (decide (c = cc1)) as [->|Hc1].
      * eexists. rewrite lookup_insert_eq. split; [done|]. cbn. set_solver.
      * rewrite lookup_insert_ne by done. by apply (wf_cc s Hwf).
Qed.


(** *** Adding edges *)

Lemma same_nodes_refl s : same_nodes s s.
Proof. repeat split; try done. intros n obj Hobj. by exists obj. Qed.

Lemma same_nodes_trans s1 s2 s3 :
  same_nodes s1 s2 -> same_nodes s2 s3 -> same_nodes s1 s3.
Proof.
  intros (Ha1 & Ha2 & Ha3 & Ha4 & Ha5 & Ha6) (Hb1 & Hb2 & Hb3 & Hb4 & Hb5 & Hb6).
  repeat split; try congruence.
  intros n obj Hobj. destruct (Ha6 n obj Hobj) as (obj' & Hobj' & Hc & Hq).
  destruct (Hb6 n obj' Hobj') as (obj'' & Hobj'' & Hc' & Hq').
  exists obj''. split; [done|]. split; congruence.
Qed.

Lemma wf_same_nodes s s' : same_nodes s s' -> wf s -> wf s'.
Proof.
  intros (Hcc & Hccs & Hnodes & Hkd & Hdist & Hobjs) Hwf. split.
  - rewrite Hkd, Hnodes. apply (wf_kd_nodes s Hwf).
  - rewrite Hkd, Hdist. apply (wf_kd_distance s Hwf).
  - intros n Hn. rewrite Hnodes in Hn.
    destruct (wf_node s Hwf n Hn) as (obj & cobj & Hobj & Hc & Hcobj & Hin).
    destruct (Hobjs n obj Hobj) as (obj' & Hobj' & Hc' & _).
    exists obj', cobj. rewrite Hc', Hccs, Hcc. done.
  - intros c Hc. rewrite Hccs in Hc |- *. rewrite Hcc. by apply (wf_cc s Hwf).
Qed.

Lemma update_node_same n f s u s' :
  (∀ obj, Node.connectedComponent_ (f obj) = Node.connectedComponent_ obj
          ∧ Node.configuration_ (f obj) = Node.configuration_ obj) ->
  update_node n f s = Some (u, s') -> same_nodes s s'.
Proof.
  intros Hf Hrun. unfold update_node in Hrun.
  apply bind_Some in Hrun as (obj & s1 & Hobj & Hrun).
  apply node_at_inv in Hobj as [Hobj ->]. injection Hrun as _ <-.
  repeat split; try done. cbn. intros m mobj Hm.
  destruct (decide (m = n)) as [->|Hne].
  - rewrite lookup_insert_eq. eexists. split; [done|].
    rewrite Hobj in Hm. injection Hm as <-. apply Hf.
  - rewrite lookup_insert_ne by done. by exists mobj.
Qed.

Lemma new_Edge_same from to (path : Path) s e s' :
  new_Edge from to path s = Some (e, s') -> same_nodes s s'.
Proof.
  unfold new_Edge. rewrite bind_get. cbv beta. rewrite bind_modify. cbv beta.
  intros [= _ <-]. repeat split; try done. intros n obj Hobj. by exists obj.
Qed.

Lemma edges_push_back_same e s u s' :
  edges_push_back e s = Some (u, s') -> same_nodes s s'.
Proof.
  intros [= _ <-]. repeat split; try done. intros n obj Hobj. by exists obj.
Qed.

Lemma addOutEdge_keeps e obj :
  Node.connectedComponent_ (Node.addOutEdge e obj) = Node.connectedComponent_ obj
  ∧ Node.configuration_ (Node.addOutEdge e obj) = Node.configuration_ obj.
Proof. done. Qed.

Lemma addInEdge_keeps e obj :
  Node.connectedComponent_ (Node.addInEdge e obj) = Node.connectedComponent_ obj
  ∧ Node.configuration_ (Node.addInEdge e obj) = Node.configuration_ obj.
Proof. done. Qed.

(** The edge, its registration in the two nodes and in the roadmap. *)
Lemma attach_edge_same from to (path : Path) {B} (k : EdgePtr_t -> M B)
    (fa fb : EdgePtr_t -> Node.t -> Node.t) a b s r s' :
  (∀ e obj, Node.connectedComponent_ (fa e obj) = Node.connectedComponent_ obj
            ∧ Node.configuration_ (fa e obj) = Node.configuration_ obj) ->
  (∀ e obj, Node.connectedComponent_ (fb e obj) = Node.connectedComponent_ obj
            ∧ Node.configuration_ (fb e obj) = Node.configuration_ obj) ->
  bind (new_Edge from to path)
    (λ edge, bind (update_node a (fa edge))
       (λ _, bind (update_node b (fb edge))
          (λ _, bind (edges_push_back edge) (λ _, k edge)))) s
  = Some (r, s') ->
  ∃ e s1, same_nodes s s1 ∧ k e s1 = Some (r, s').
Proof.
  intros Hfa Hfb Hrun.
  apply bind_Some in Hrun as (e & s1 & H1 & Hrun).
  apply bind_Some in Hrun as (u2 & s2 & H2 & Hrun).
  apply bind_Some in Hrun as (u3 & s3 & H3 & Hrun).
  apply bind_Some in Hrun as (u4 & s4 & H4 & Hrun).
  exists e, s4. split; [|done].
  eapply same_nodes_trans; [by eapply new_Edge_same|].
  eapply same_nodes_trans; [eapply update_node_same; [apply Hfa | done]|].
  eapply same_nodes_trans; [eapply update_node_same; [apply Hfb | done]|].
  by eapply edges_push_back_same.
Qed.

Lemma addEdges_same from to (path : Path) s u s' :
  addEdges from to path s = Some (u, s') -> same_nodes s s'.
Proof.
  unfold addEdges. intros Hrun.
  apply (attach_edge_same _ _ _ _ Node.addOutEdge Node.addInEdge) in Hrun
    as (e1 & s1 & Hs1 & Hrun); [|done..].
  apply bind_Some in Hrun as (e2 & t1 & H1 & Hrun).
  apply bind_Some in Hrun as (u2 & t2 & H2 & Hrun).
  apply bind_Some in Hrun as (u3 & t3 & H3 & Hrun).
  eapply same_nodes_trans; [done|].
  eapply same_nodes_trans; [by eapply new_Edge_same|].
  eapply same_nodes_trans;
    [eapply update_node_same; [apply addInEdge_keeps | done]|].
  eapply same_nodes_trans;
    [eapply update_node_same; [apply addOutEdge_keeps | done]|].
  by eapply edges_push_back_same.
Qed.

Lemma addEdges_wf from to (path : Path) s u s' :
  wf s -> addEdges from to path s = Some (u, s') -> wf s'.
Proof. intros Hwf Hrun. eapply wf_same_nodes; [by eapply addEdges_same | done]. Qed.

Lemma addEdge_wf n1 n2 (path : Path) s e s' :
  wf s -> n1 ∈ nodes_ (roadmap s) -> n2 ∈ nodes_ (roadmap s) ->
  addEdge n1 n2 path s = Some (e, s') -> wf s'.
Proof.
  intros Hwf Hn1 Hn2 Hrun. unfold addEdge in Hrun.
  apply (attach_edge_same _ _ _ _ Node.addOutEdge Node.addInEdge) in Hrun
    as (e1 & s1 & Hs1 & Hrun); [|done..].
  pose proof (wf_same_nodes s s1 Hs1 Hwf) as Hwf1.
  destruct Hs1 as (_ & Hccs & Hnodes & _).
  apply bind_Some in Hrun as (o1 & t1 & Ho1 & Hrun).
  apply node_at_inv in Ho1 as [Ho1 ->].
  apply bind_Some in Hrun as (o2 & t2 & Ho2 & Hrun).
  apply node_at_inv in Ho2 as [Ho2 ->].
  apply bind_Some in Hrun as (u & t3 & Hconn & Hrun).
  injection Hrun as _ <-.
  destruct (wf_node s1 Hwf1 n1) as (o1' & _ & Ho1' & Hc1 & _); [by rewrite Hnodes|].
  destruct (wf_node s1 Hwf1 n2) as (o2' & _ & Ho2' & Hc2 & _); [by rewrite Hnodes|].
  rewrite Ho1 in Ho1'. injection Ho1' as <-.
  rewrite Ho2 in Ho2'. injection Ho2' as <-.
  destruct (connect_wf _ _ s1 Hwf1 Hc1 Hc2) as (s'' & Hconn' & Hwf'').
  rewrite Hconn in Hconn'. by simplify_eq.
Qed.


(** *** addEdges and two calls of addEdge *)

Lemma attach_bind {B} from to (path : Path) fa fb a b (k : EdgePtr_t -> M B) s :
  bind (new_Edge from to path)
    (λ edge, bind (update_node a (fa edge))
       (λ _, bind (update_node b (fb edge))
          (λ _, bind (edges_push_back edge) (λ _, k edge)))) s
  = bind (attach from to path fa fb a b) k s.
Proof.
  unfold attach, bind.
  destruct (new_Edge from to path s) as [[e s1]|]; [|done].
  destruct (update_node a (fa e) s1) as [[u2 s2]|]; [|done].
  destruct (update_node b (fb e) s2) as [[u3 s3]|]; [|done].
  by destruct (edges_push_back e s3) as [[u4 s4]|].
Qed.

Lemma attach_same from to (path : Path) fa fb a b s e s' :
  (∀ e obj, Node.connectedComponent_ (fa e obj) = Node.connectedComponent_ obj
            ∧ Node.configuration_ (fa e obj) = Node.configuration_ obj) ->
  (∀ e obj, Node.connectedComponent_ (fb e obj) = Node.connectedComponent_ obj
            ∧ Node.configuration_ (fb e obj) = Node.configuration_ obj) ->
  attach from to path fa fb a b s = Some (e, s') -> same_nodes s s'.
Proof.
  intros Hfa Hfb Hrun. unfold attach in Hrun.
  apply (attach_edge_same _ _ _ _ fa fb) in Hrun as (e' & s1 & Hsame & Hret);
    [|done..].
  by injection Hret as _ <-.
Qed.

Lemma bind_ext {A B} (m : M A) (k k' : A -> M B) s :
  (∀ a s', m s = Some (a, s') -> k a s' = k' a s') ->
  bind m k s = bind m k' s.
Proof. intros Hk. unfold bind. destruct (m s) as [[a s']|]; auto. Qed.

Lemma bind_ret_r {A} (m : M A) s : bind m ret s = m s.
Proof. unfold bind, ret. by destruct (m s) as [[a s']|]. Qed.

(** Between two nodes of one component, [connect] has nothing to do. *)
Lemma connect_same_component (n1 n2 : NodePtr_t) c e s :
  wf s -> n1 ∈ nodes_ (roadmap s) -> n2 ∈ nodes_ (roadmap s) ->
  component_of s n1 = Some c -> component_of s n2 = Some c ->
  bind (node_at n1)
    (λ n1_obj, bind (node_at n2)
       (λ n2_obj, bind (connect (Node.connectedComponent_ n1_obj)
                                (Node.connectedComponent_ n2_obj))
                    (λ _, ret (A:=EdgePtr_t) e))) s
  = Some (e, s).
Proof.
  intros Hwf Hn1 Hn2 Hc1 Hc2.
  destruct (wf_node s Hwf n1 Hn1) as (o1 & cobj & Ho1 & _ & Hcobj & _).
  destruct (wf_node s Hwf n2 Hn2) as (o2 & _ & Ho2 & _).
  unfold component_of in Hc1, Hc2. rewrite Ho1 in Hc1. rewrite Ho2 in Hc2.
  injection Hc1 as Hc1. injection Hc2 as Hc2.
  rewrite (bind_eq _ _ _ _ _ (node_at_Some _ _ _ Ho1)).
  rewrite (bind_eq _ _ _ _ _ (node_at_Some _ _ _ Ho2)).
  rewrite Hc1, Hc2. rewrite Hc1 in Hcobj.
  erewrite bind_eq; [done|].
  rewrite (connect_eq c c s cobj cobj Hcobj Hcobj).
  by rewrite canReach_self.
Qed.

Lemma same_nodes_component s s' n c :
  same_nodes s s' -> component_of s n = Some c -> component_of s' n = Some c.
Proof.
  intros (_ & _ & _ & _ & _ & Hobjs). unfold component_of.
  destruct (nodeHeap s !! n) as [obj|] eqn:Hobj; [|done].
  destruct (Hobjs n obj Hobj) as (obj' & -> & Hc & _). simpl. by rewrite Hc.
Qed.

(** Between two nodes of one component, [addEdge] is the shared part. *)
Lemma addEdge_same_component n1 n2 (path : Path) c s :
  wf s -> n1 ∈ nodes_ (roadmap s) -> n2 ∈ nodes_ (roadmap s) ->
  component_of s n1 = Some c -> component_of s n2 = Some c ->
  addEdge n1 n2 path s
  = attach n1 n2 path Node.addOutEdge Node.addInEdge n1 n2 s.
Proof.
  intros Hwf Hn1 Hn2 Hc1 Hc2. unfold addEdge.
  rewrite attach_bind. rewrite <- (bind_ret_r (attach _ _ _ _ _ _ _)).
  apply bind_ext. intros e s1 Hrun.
  apply attach_same in Hrun; [|done..].
  pose proof Hrun as (_ & _ & Hnodes & _).
  apply connect_same_component with c.
  - by eapply wf_same_nodes.
  - by rewrite Hnodes.
  - by rewrite Hnodes.
  - by eapply same_nodes_component.
  - by eapply same_nodes_component.
Qed.

Lemma bind_cong_l {A B} (m m' : M A) (k : A -> M B) s :
  m s = m' s -> bind m k s = bind m' k s.
Proof. intros Hm. unfold bind. by rewrite Hm. Qed.

(** The two registrations of an edge can be made in either order. *)
Lemma update_node_swap a b (fa fb : Node.t -> Node.t) s :
  (∀ obj, fa (fb obj) = fb (fa obj)) ->
  bind (update_node a fa) (λ _, update_node b fb) s
  = bind (update_node b fb) (λ _, update_node a fa) s.
Proof.
  intros Hcomm. unfold update_node, node_at, bind, get, nonnull, modify, ret.
  destruct (nodeHeap s !! a) as [oa|] eqn:Ha;
    destruct (nodeHeap s !! b) as [ob|] eqn:Hb; cbn.
  - destruct (decide (a = b)) as [->|Hne].
    + rewrite !lookup_insert_eq. rewrite Ha in Hb. injection Hb as <-.
      unfold with_nodeHeap. cbn. by rewrite !insert_insert_eq, Hcomm.
    + rewrite !lookup_insert_ne by done. rewrite Ha, Hb.
      unfold with_nodeHeap. cbn. by rewrite insert_insert_ne.
  - destruct (decide (a = b)) as [->|Hne]; [congruence|].
    rewrite lookup_insert_ne by done. by rewrite Hb.
  - destruct (decide (a = b)) as [->|Hne]; [congruence|].
    rewrite lookup_insert_ne by done. by rewrite Ha.
  - done.
Qed.

Lemma attach_swap from to (path : Path) fa fb a b s :
  (∀ e obj, fa e (fb e obj) = fb e (fa e obj)) ->
  attach from to path fa fb a b s = attach from to path fb fa b a s.
Proof.
  intros Hcomm. unfold attach. apply bind_ext. intros e s1 _.
  rewrite <- (bind_assoc (update_node a (fa e)) (λ _, update_node b (fb e))
                (λ _, bind (edges_push_back e) (λ _, ret e)) s1).
  rewrite <- (bind_assoc (update_node b (fb e)) (λ _, update_node a (fa e))
                (λ _, bind (edges_push_back e) (λ _, ret e)) s1).
  apply (bind_cong_l
           (bind (update_node a (fa e)) (λ _, update_node b (fb e)))
           (bind (update_node b (fb e)) (λ _, update_node a (fa e)))).
  apply update_node_swap, Hcomm.
Qed.

(** Between two nodes of one component of a well-formed roadmap,
    [addEdges] does what two calls of [addEdge] do. *)
Lemma addEdges_same_component from to (path : Path) c s :
  wf s -> from ∈ nodes_ (roadmap s) -> to ∈ nodes_ (roadmap s) ->
  component_of s from = Some c -> component_of s to = Some c ->
  addEdges from to path s = addEdge_twice from to path s.
Proof.
  intros Hwf Hfrom Hto Hcf Hct. unfold addEdges, addEdge_twice.
  rewrite attach_bind.
  rewrite (bind_cong_l (addEdge from to path) _ _ s
             (addEdge_same_component from to path c s Hwf Hfrom Hto Hcf Hct)).
  apply bind_ext. intros e s1 Hrun.
  apply attach_same in Hrun; [|done..].
  pose proof Hrun as (_ & _ & Hnodes & _).
  rewrite (bind_cong_l (addEdge to from (reverse path)) _ _ s1
             (addEdge_same_component to from (reverse path) c s1
                ltac:(by eapply wf_same_nodes)
                ltac:(by rewrite Hnodes) ltac:(by rewrite Hnodes)
                ltac:(by eapply same_nodes_component)
                ltac:(by eapply same_nodes_component))).
  rewrite (bind_cong_l
             (attach to from (reverse path) Node.addOutEdge Node.addInEdge to from)
             (attach to from (reverse path) Node.addInEdge Node.addOutEdge from to)
             _ s1
             (attach_swap to from (reverse path) Node.addOutEdge Node.addInEdge
                to from s1 ltac:(done))).
  unfold attach, bind.
  destruct (new_Edge to from (reverse path) s1) as [[e2 t1]|]; [|done].
  destruct (update_node from (Node.addInEdge e2) t1) as [[u2 t2]|]; [|done].
  destruct (update_node to (Node.addOutEdge e2) t2) as [[u3 t3]|]; [|done].
  by destruct (edges_push_back e2 t3) as [[[] t4]|].
Qed.

(** *** The other member functions *)

Lemma addNode_cases q s n s1 :
  wf s -> addNode q s = Some (n, s1) -> s1 = s ∨ s1 = added s q.
Proof.
  intros Hwf. rewrite addNode_eq by done.
  destruct (nodes_ (roadmap s)); [intros [= _ <-]; by right|].
  destruct (fst _); [|done].
  destruct (nodeHeap s !! _); [|done].
  destruct (config_eqb _ _); intros [= _ <-]; [by left | by right].
Qed.

Lemma addNode_wf q s n s1 : wf s -> addNode q s = Some (n, s1) -> wf s1.
Proof.
  intros Hwf Hrun. destruct (addNode_cases q s n s1 Hwf Hrun) as [->| ->];
    [done | by apply wf_added].
Qed.

Lemma wf_added_in s q cc cobj :
  wf s -> cc ∈ connectedComponents_ (roadmap s) ->
  ccHeap s !! cc = Some cobj -> wf (added_in s q cc cobj).
Proof.
  intros Hwf Hcc Hcobj. split; cbn.
  - by rewrite (wf_kd_nodes s Hwf).
  - apply (wf_kd_distance s Hwf).
  - intros n Hn. apply elem_of_app in Hn as [Hn|Hn].
    + destruct (wf_node s Hwf n Hn) as (obj & xobj & Hobj & Hx & Hxobj & Hin).
      exists obj. rewrite lookup_insert_ne by (symmetry; by eapply new_ptr_ne).
      destruct (decide (Node.connectedComponent_ obj = cc)) as [Heq|Hne].
      * eexists. split; [done|]. split; [done|].
        rewrite Heq, lookup_insert_eq. split; [done|]. cbn.
        rewrite Heq, Hcobj in Hxobj. injection Hxobj as <-. set_solver.
      * exists xobj. by rewrite lookup_insert_ne.
    + apply list_elem_of_singleton in Hn as ->.
      eexists _, _. rewrite lookup_insert_eq. split; [done|]. cbn.
      split; [done|]. rewrite lookup_insert_eq. split; [done|]. cbn. set_solver.
  - intros c Hc. destruct (decide (c = cc)) as [->|Hne].
    + eexists. rewrite lookup_insert_eq. split; [done|]. cbn.
      destruct (wf_cc s Hwf cc Hc) as (o & Ho & Hto & Hfrom).
      rewrite Hcobj in Ho. by injection Ho as <-.
    + rewrite lookup_insert_ne by done. by apply (wf_cc s Hwf).
Qed.

Lemma nearestNode_in_reads q cc s r s' :
  nearestNode_in q cc s = Some (r, s') -> s' = s.
Proof.
  unfold nearestNode_in. intros Hrun.
  apply bind_Some in Hrun as (cobj & s1 & Hc & Hrun).
  apply cc_at_inv in Hc as [_ ->].
  apply bind_Some in Hrun as (u & s2 & Hassert & Hrun).
  unfold assert in Hassert. destruct (negb _); [|done].
  injection Hassert as _ <-. by injection Hrun as _ <-.
Qed.

Lemma addNode_in_wf q cc s n s1 :
  wf s -> cc ∈ connectedComponents_ (roadmap s) ->
  addNode_in q cc s = Some (n, s1) -> wf s1.
Proof.
  intros Hwf Hcc. unfold addNode_in. rewrite bind_get. cbv beta. intros Hrun.
  apply bind_Some in Hrun as (found & s0 & Hfound & Hrun).
  assert (s0 = s) as ->.
  { destruct (negb _); [|by injection Hfound as _ <-].
    apply bind_Some in Hfound as ([nearest d] & t1 & Hnear & Hfound).
    apply nearestNode_in_reads in Hnear as ->.
    apply bind_Some in Hfound as (p & t2 & Hp & Hfound).
    destruct nearest; [|done]. injection Hp as <- <-.
    apply bind_Some in Hfound as (obj & t3 & Hobj & Hfound).
    apply node_at_inv in Hobj as [_ ->].
    by destruct (config_eqb _ _); injection Hfound as _ <-. }
  destruct found as [m|]; [by injection Hrun as _ <-|].
  unfold new_Node_in in Hrun. rewrite bind_assoc, bind_get in Hrun.
  cbv beta in Hrun. rewrite bind_assoc, bind_modify in Hrun. cbv beta in Hrun.
  rewrite bind_ret, bind_modify in Hrun. cbv beta in Hrun.
  apply bind_Some in Hrun as (u & t1 & Hupd & Hrun).
  unfold update_cc in Hupd. apply bind_Some in Hupd as (cobj & t2 & Hc & Hupd).
  apply cc_at_inv in Hc as [Hc ->]. injection Hupd as _ <-.
  unfold kdTree_addNode in Hrun. rewrite bind_modify in Hrun.
  injection Hrun as _ <-. by apply (wf_added_in s q cc cobj).
Qed.

Lemma addNodeAndEdges_wf from q (path : Path) s n s1 :
  wf s -> from ∈ nodes_ (roadmap s) ->
  addNodeAndEdges from q path s = Some (n, s1) -> wf s1.
Proof.
  intros Hwf Hfrom. unfold addNodeAndEdges. intros Hrun.
  apply bind_Some in Hrun as (obj & t1 & Hobj & Hrun).
  apply node_at_inv in Hobj as [Hobj ->].
  apply bind_Some in Hrun as (nodeTo & t2 & Hadd & Hrun).
  apply bind_Some in Hrun as (u & t3 & Hedges & Hrun).
  injection Hrun as _ <-.
  eapply addEdges_wf; [|done].
  eapply addNode_in_wf; [done| |done].
  destruct (wf_node s Hwf from Hfrom) as (obj' & _ & Hobj' & Hc & _).
  rewrite Hobj in Hobj'. by injection Hobj' as <-.
Qed.

Lemma addGoalNode_wf q s u s1 :
  wf s -> addGoalNode q s = Some (u, s1) -> wf s1.
Proof.
  intros Hwf. unfold addGoalNode. intros Hrun.
  apply bind_Some in Hrun as (n & t1 & Hadd & Hrun).
  injection Hrun as _ <-. apply (addNode_wf q s n t1 Hwf) in Hadd.
  destruct Hadd as [H1 H2 H3 H4]. by split.
Qed.

Lemma initNode_wf n s u s1 : wf s -> initNode n s = Some (u, s1) -> wf s1.
Proof. intros [H1 H2 H3 H4] [= _ <-]. by split. Qed.

Lemma create_wf distance : wf (create (Path:=Path) distance).
Proof.
  split; cbn; try done. intros n Hn. by apply elem_of_nil in Hn.
Qed.

Lemma clear_wf s u s1 : wf s -> clear s = Some (u, s1) -> wf s1.
Proof.
  intros Hwf [= _ <-]. split; cbn; try done.
  - apply (wf_kd_distance s Hwf).
  - intros n Hn. by apply elem_of_nil in Hn.
Qed.

(** Every state a client can reach is well formed. *)
Lemma reachable_wf s : reachable s -> wf s.
Proof.
  induction 1 as
    [ distance
    | s s' _ IH Hrun
    | s q n s' _ IH Hrun
    | s q cc n s' _ IH Hcc Hrun
    | s n1 n2 path e s' _ IH Hn1 Hn2 Hrun
    | s from to path s' _ IH Hfrom Hto Hrun
    | s from to path n s' _ IH Hfrom Hrun
    | s q s' _ IH Hrun
    | s n s' _ IH Hn Hrun ].
  - apply create_wf.
  - exact (clear_wf s tt s' IH Hrun).
  - exact (addNode_wf q s n s' IH Hrun).
  - exact (addNode_in_wf q cc s n s' IH Hcc Hrun).
  - exact (addEdge_wf n1 n2 path s e s' IH Hn1 Hn2 Hrun).
  - exact (addEdges_wf from to path s tt s' IH Hrun).
  - exact (addNodeAndEdges_wf from to path s n s' IH Hfrom Hrun).
  - exact (addGoalNode_wf q s tt s' IH Hrun).
  - exact (initNode_wf n s tt s' IH Hrun).
Qed.

End Facts.

(** *** The distance of the examples *)

Lemma manhattan_nonneg a b : 0 <= manhattan a b.
Proof.
  revert b. induction a as [|x a IH]; intros [|y b]; cbn [manhattan];
    try Lqa.lra.
  specialize (IH b). pose proof (Qabs_nonneg (x - y)). Lqa.lra.
Qed.

Lemma manhattan_metric : metric manhattan.
Proof.
  split; [apply manhattan_nonneg|].
  intros a. induction a as [|x a IH]; intros [|y b];
    cbn [manhattan config_eqb].
  - done.
  - split; [intros Habs; Lqa.lra | done].
  - split; [intros Habs; Lqa.lra | done].
  - pose proof (Qabs_nonneg (x - y)) as Hx.
    pose proof (manhattan_nonneg a b) as Hab.
    rewrite andb_true_iff, Qeq_bool_iff, <- IH. split.
    + intros Hsum. assert (Qabs (x - y) == 0) as Hz by Lqa.lra.
      split; [|Lqa.lra].
      assert (Qabs (x - y) <= 0) as Hle by Lqa.lra.
      apply Qabs_Qle_condition in Hle. Lqa.lra.
    + intros [Hxy Hz]. rewrite Hz.
      assert (x - y == 0) as -> by Lqa.lra. reflexivity.
Qed.

(** *** The examples are states a client can reach *)

Import Examples.

Lemma in_gset (x : positive) (X : gset positive) :
  bool_decide (x ∈ X) = true -> x ∈ X.
Proof. apply bool_decide_eq_true_1. Qed.

Lemma not_in_gset (x : positive) (X : gset positive) :
  bool_decide (x ∈ X) = false -> x ∉ X.
Proof. apply bool_decide_eq_false_1. Qed.

Lemma in_list (x : positive) (l : list positive) :
  bool_decide (x ∈ l) = true -> x ∈ l.
Proof. apply bool_decide_eq_true_1. Qed.

Lemma reachable_two_nodes : reachable two_nodes.
Proof.
  apply (reachable_addNode one_node qB 2%positive).
  - apply (reachable_addNode empty_roadmap qA 1%positive).
    + apply reachable_create.
    + vm_compute. reflexivity.
  - vm_compute. reflexivity.
Qed.

Lemma reachable_three_nodes : reachable three_nodes.
Proof.
  apply (reachable_addNode two_nodes qC 3%positive).
  - apply reachable_two_nodes.
  - vm_compute. reflexivity.
Qed.

Lemma reachable_two_edges : reachable two_edges.
Proof.
  apply (reachable_addEdge one_edge 2%positive 3%positive pBC 2%positive).
  - apply (reachable_addEdge three_nodes 1%positive 2%positive pAB 1%positive).
    + apply reachable_three_nodes.
    + apply in_list. vm_compute. reflexivity.
    + apply in_list. vm_compute. reflexivity.
    + vm_compute. reflexivity.
  - apply in_list. vm_compute. reflexivity.
  - apply in_list. vm_compute. reflexivity.
  - vm_compute. reflexivity.
Qed.

Lemma reachable_chained : reachable chained.
Proof.
  apply (reachable_addEdge second_linked 3%positive 1%positive pCA 2%positive).
  - apply (reachable_addEdge three_nodes 2%positive 3%positive pBC 1%positive).
    + apply reachable_three_nodes.
    + apply in_list. vm_compute. reflexivity.
    + apply in_list. vm_compute. reflexivity.
    + vm_compute. reflexivity.
  - apply in_list. vm_compute. reflexivity.
  - apply in_list. vm_compute. reflexivity.
  - vm_compute. reflexivity.
Qed.

(** The answer of [canReach], computed, settles whether a chain of
    links exists. *)
Lemma chain_by_canReach (s : State StraightPath) c1 c2 b :
  reachable s -> bool_decide (c1 ∈ connectedComponents_ (roadmap s)) = true ->
  canReach c1 c2 s = Some (b, s) ->
  if b then chain s c1 c2 else ¬ chain s c1 c2.
Proof.
  intros Hreach Hc%bool_decide_eq_true_1 Hrun.
  pose proof (canReach_chain c1 c2 s b s (reachable_wf s Hreach) Hc Hrun) as Hiff.
  destruct b; [by apply Hiff|]. intros Hchain. by apply Hiff in Hchain.
Qed.

(** *** The claims on the examples *)

(** Claim C1, at an input where the two differ. On the roadmap with
    two nodes, each in its component, [addEdges] and two calls of
    [addEdge] append the same two edges and give the nodes the same
    edge lists; [addEdges] leaves the two components as they were, out
    of reach of each other, where the calls of [addEdge] have merged
    them into one. Asked for a path from the first node to the second,
    [pathExists] answers no after [addEdges] and yes after the two
    calls of [addEdge]. *)
Theorem addEdges_does_not_connect :
  reachable two_nodes
  ∧ 1%positive ∈ nodes_ (roadmap two_nodes)
  ∧ 2%positive ∈ nodes_ (roadmap two_nodes)
  ∧ addEdges 1 2 pAB two_nodes = Some (tt, joined_by_addEdges)
  ∧ addEdge_twice 1 2 pAB two_nodes = Some (tt, joined_by_addEdge_twice)
  ∧ edges_ (roadmap joined_by_addEdges)
    = edges_ (roadmap joined_by_addEdge_twice)
  ∧ edgeHeap joined_by_addEdges = edgeHeap joined_by_addEdge_twice
  ∧ (∀ n, Node.outEdges_ <$> nodeHeap joined_by_addEdges !! n
          = Node.outEdges_ <$> nodeHeap joined_by_addEdge_twice !! n)
  ∧ (∀ n, Node.inEdges_ <$> nodeHeap joined_by_addEdges !! n
          = Node.inEdges_ <$> nodeHeap joined_by_addEdge_twice !! n)
  ∧ connectedComponents_ (roadmap joined_by_addEdges) = {[1%positive; 2%positive]}
  ∧ reachableTo joined_by_addEdges 1 = ∅
  ∧ reachableTo joined_by_addEdges 2 = ∅
  ∧ connectedComponents_ (roadmap joined_by_addEdge_twice) = {[2%positive]}
  ∧ component_of joined_by_addEdge_twice 1 = Some 2%positive
  ∧ component_of joined_by_addEdge_twice 2 = Some 2%positive
  ∧ pathExists (with_query joined_by_addEdges)
    = Some (false, with_query joined_by_addEdges)
  ∧ pathExists (with_query joined_by_addEdge_twice)
    = Some (true, with_query joined_by_addEdge_twice).
Proof.
  split; [apply reachable_two_nodes|].
  split; [apply in_list; vm_compute; reflexivity|].
  split; [apply in_list; vm_compute; reflexivity|].
  split; [vm_compute; reflexivity|].
  split; [vm_compute; reflexivity|].
  split; [vm_compute; reflexivity|].
  split; [vm_compute; reflexivity|].
  split.
  { assert (Node.outEdges_ <$> nodeHeap joined_by_addEdges
            = Node.outEdges_ <$> nodeHeap joined_by_addEdge_twice) as Heq
      by (vm_compute; reflexivity).
    intros n. by rewrite <- !lookup_fmap, Heq. }
  split.
  { assert (Node.inEdges_ <$> nodeHeap joined_by_addEdges
            = Node.inEdges_ <$> nodeHeap joined_by_addEdge_twice) as Heq
      by (vm_compute; reflexivity).
    intros n. by rewrite <- !lookup_fmap, Heq. }
  repeat split; vm_compute; reflexivity.
Qed.

(** After [addEdge] from a first node to a second and from the second
    to a third, the third component is not in the set of the first. *)
Lemma reachability_not_closed :
  reachable two_edges ∧ ¬ transitively_closed two_edges.
Proof.
  split; [apply reachable_two_edges|].
  intros Hclosed.
  assert (3%positive ∈ reachableTo two_edges 1%positive) as Hin.
  { apply (Hclosed 1%positive 2%positive 3%positive);
      apply in_gset; vm_compute; reflexivity. }
  apply (not_in_gset 3%positive (reachableTo two_edges 1%positive));
    [vm_compute; reflexivity | exact Hin].
Qed.

(** On three nodes without edge, between the first two components. *)
Lemma connect_links_the_two_components_witness :
  ∃ s', connect 1 2 three_nodes = Some (tt, s')
        ∧ reachableTo s' 1 = {[2%positive]} ∪ reachableTo three_nodes 1
        ∧ reachableFrom s' 2 = {[1%positive]} ∪ reachableFrom three_nodes 2
        ∧ (∀ c, c ≠ 1%positive -> reachableTo s' c = reachableTo three_nodes c)
        ∧ (∀ c, c ≠ 2%positive ->
             reachableFrom s' c = reachableFrom three_nodes c)
        ∧ roadmap s' = roadmap three_nodes
        ∧ nodeHeap s' = nodeHeap three_nodes
        ∧ edgeHeap s' = edgeHeap three_nodes.
Proof.
  apply (connect_links_the_two_components 1 2 three_nodes);
    vm_compute; reflexivity.
Defined.


(** On two nodes, adding the configuration of the first again. *)
Lemma addNode_idempotent_witness :
  (∀ m mobj,
     m ∈ nodes_ (roadmap two_nodes) -> nodeHeap two_nodes !! m = Some mobj ->
     config_eqb (Node.configuration_ mobj) qA = true ->
     ∃ n obj, addNode qA two_nodes = Some (n, two_nodes)
              ∧ n ∈ nodes_ (roadmap two_nodes)
              ∧ nodeHeap two_nodes !! n = Some obj
              ∧ config_eqb (Node.configuration_ obj) qA = true)
  ∧ (∀ n s1, addNode qA two_nodes = Some (n, s1) ->
             addNode qA s1 = Some (n, s1)).
Proof.
  apply (addNode_idempotent qA two_nodes).
  - apply reachable_wf, reachable_two_nodes.
  - exact manhattan_metric.
Defined.

(** On three nodes, the node nearest to [(2, 1)]. *)
Lemma nearestNode_is_nearest_witness :
  ∃ n obj d,
    nearestNode [2; 1] three_nodes = Some ((Some n, Finite d), three_nodes)
    ∧ n ∈ nodes_ (roadmap three_nodes)
    ∧ nodeHeap three_nodes !! n = Some obj
    ∧ d = distance_ (roadmap three_nodes) [2; 1] (Node.configuration_ obj)
    ∧ (∀ m mobj, m ∈ nodes_ (roadmap three_nodes) ->
         nodeHeap three_nodes !! m = Some mobj ->
         d <= distance_ (roadmap three_nodes) [2; 1]
                (Node.configuration_ mobj))
    ∧ (∃ c, c ∈ connectedComponents_ (roadmap three_nodes)
            ∧ KDTree.search (nodeHeap three_nodes)
                (kdTree_ (roadmap three_nodes)) [2; 1] c
              = (Some n, Finite d))
    ∧ (∀ c, c ∈ connectedComponents_ (roadmap three_nodes) ->
         dist_le (Finite d)
           (snd (KDTree.search (nodeHeap three_nodes)
                   (kdTree_ (roadmap three_nodes)) [2; 1] c)))
    ∧ ∃ nb db, bruteForce three_nodes [2; 1] = (Some nb, Finite db) ∧ db == d.
Proof.
  apply (nearestNode_is_nearest [2; 1] three_nodes).
  - apply reachable_wf, reachable_three_nodes.
  - vm_compute. discriminate.
Defined.

(** On the roadmap just created. *)
Lemma nearestNode_empty_roadmap_witness :
  nearestNode qA empty_roadmap = Some ((None, Infinity), empty_roadmap).
Proof.
  apply (nearestNode_empty_roadmap qA empty_roadmap). reflexivity.
Defined.

End RoadmapFacts.

(* ===================================================================== *)
(** ** Further properties of the steering method *)
(* ===================================================================== *)

Module SteeringProperties.
Import Steering SteeringFacts Trajectory.
Local Open Scope R_scope.


Lemma computeMinTime_out self p1 p2 v1 v2 :
  mt_out (computeMinTime self p1 p2 v1 v2)
  = if Rlt_dec (delta_of self p1 p2 v1 v2) 0 then negative_determinant else [].
Proof.
  unfold computeMinTime, delta_of, sigma_of. cbv zeta.
  destruct (Rgt_dec _ _); [destruct (Rgt_dec _ _)|]; reflexivity.
Qed.

Lemma larger_root_cases self p1 p2 v1 v2 :
  let a1 := IZR (sigma_of self p1 p2 v1 v2) * aMax_ self in
  let sd := sqrt (delta_of self p1 p2 v1 v2) in
  larger_root self p1 p2 v1 v2 = (-2 * v1 + sd) / (2 * a1)
  \/ larger_root self p1 p2 v1 v2 = (-2 * v1 - sd) / (2 * a1).
Proof.
  unfold larger_root, delta_of. cbv zeta. unfold Rmax.
  destruct (Rle_dec _ _); auto.
Qed.

Lemma sigma_cases self p1 p2 v1 v2 :
  sigma_of self p1 p2 v1 v2 = 1%Z \/ sigma_of self p1 p2 v1 v2 = 0%Z
  \/ sigma_of self p1 p2 v1 v2 = (-1)%Z.
Proof.
  unfold sigma_of, sgn.
  destruct (Rlt_dec 0 _), (Rlt_dec _ 0); auto.
Qed.

(* position reached through a root of the quadratic equation *)
Lemma root_reaches_goal a1 p1 p2 v1 v2 sd x :
  a1 <> 0 ->
  sd * sd = 4 * v1 * v1 - 4 * a1 * (((v2 * v2 - v1 * v1) / (2 * - a1)) - (p2 - p1)) ->
  x = (-2 * v1 + sd) / (2 * a1) \/ x = (-2 * v1 - sd) / (2 * a1) ->
  end_position p1 v1 a1 x 0 (- a1) ((v2 - v1) / (- a1) + x) = p2.
Proof.
  intros Ha Hsd Hx.
  assert (Hp : p2 = p1 + (sd * sd - 2 * v1 * v1 - 2 * v2 * v2) / (4 * a1)).
  { rewrite Hsd. field. done. }
  rewrite Hp at 1. unfold end_position. cbv zeta.
  destruct Hx as [-> | ->]; field; done.
Qed.

(** Property X1.  The durations of [computeMinTime] describe a motion
    that ends where it is asked to: when the sign is not zero and no
    negative determinant is reported, accelerating at [sigma * aMax_]
    during [t1], keeping the velocity during [tv] and accelerating at
    the opposite during [t2] takes the axis from [p1] at velocity [v1]
    to [p2] at velocity [v2], whether the code settles on two segments
    or on three, and whatever the signs of the durations. *)
Theorem computeMinTime_reaches_goal self p1 p2 v1 v2 :
  aMax_ self <> 0 -> vMax_ self <> 0 ->
  let r := computeMinTime self p1 p2 v1 v2 in
  mt_sigma r <> 0%Z -> mt_out r = [] ->
  let a1 := IZR (mt_sigma r) * aMax_ self in
  end_velocity v1 a1 (mt_t1 r) (- a1) (mt_t2 r) = v2
  /\ end_position p1 v1 a1 (mt_t1 r) (mt_tv r) (- a1) (mt_t2 r) = p2.
Proof.
  intros Ha Hv r Hsigma Hout a1. subst r a1.
  rewrite computeMinTime_sigma in *. rewrite computeMinTime_out in Hout.
  destruct (Rlt_dec _ _) as [|Hdelta]; [discriminate|].
  apply Rnot_lt_le in Hdelta.
  set (sg := sigma_of self p1 p2 v1 v2) in *.
  assert (Hsg : IZR sg <> 0) by (by apply not_0_IZR).
  assert (Ha1 : IZR sg * aMax_ self <> 0) by (by apply Rmult_integral_contrapositive).
  assert (Hvl : IZR sg * vMax_ self <> 0) by (by apply Rmult_integral_contrapositive).
  destruct (Rgt_dec (larger_root self p1 p2 v1 v2) (minT1_of self p1 p2 v1 v2))
    as [Hroot|Hroot];
    [destruct (Rgt_dec (peak_velocity self p1 p2 v1 v2) (IZR sg * vMax_ self))
       as [Hpeak|Hpeak]|].
  2:{ destruct (computeMinTime_two_segment self p1 p2 v1 v2 Hroot Hpeak)
        as (-> & -> & ->). fold sg. split.
      - unfold end_velocity. field. done.
      - apply (root_reaches_goal _ _ _ _ _ (sqrt (delta_of self p1 p2 v1 v2))).
        + done.
        + rewrite sqrt_sqrt by done. reflexivity.
        + apply larger_root_cases. }
  all: destruct (computeMinTime_three_segment self p1 p2 v1 v2) as (-> & -> & ->);
    [auto|]; fold sg; split; unfold end_velocity, end_position; cbv zeta;
    field; auto.
Qed.


(** Property X2.  [computeMinTime] never reports a negative
    determinant when the two velocities do not have opposite signs
    ([0 <= v1 * v2]) and the sign it computes is not zero. *)
Theorem computeMinTime_same_direction_no_error self p1 p2 v1 v2 :
  0 < aMax_ self -> 0 <= v1 * v2 ->
  let r := computeMinTime self p1 p2 v1 v2 in
  mt_sigma r <> 0%Z -> mt_out r = [].
Proof.
  intros Ha Hv r Hsigma. subst r.
  rewrite computeMinTime_sigma in Hsigma. rewrite computeMinTime_out.
  destruct (Rlt_dec _ _) as [Hdelta|]; [exfalso|done].
  revert Hsigma Hdelta. unfold delta_of, sigma_of.
  set (D := p2 - p1 - 0.5 * (v1 - v2) * (Rabs (v2 - v1) / aMax_ self)).
  assert (HD : aMax_ self * D
               = aMax_ self * (p2 - p1) - 0.5 * (v1 - v2) * Rabs (v2 - v1)).
  { unfold D. field. Lra.lra. }
  clearbody D. cbv zeta.
  destruct (Rtotal_order D 0) as [Hneg | [Hzero | Hpos]].
  - rewrite (sgn_neg D Hneg). intros _.
    replace (4 * v1 * v1 - 4 * (-1 * aMax_ self)
             * ((v2 * v2 - v1 * v1) / (2 * - (-1 * aMax_ self)) - (p2 - p1)))
      with (2 * v1 * v1 + 2 * v2 * v2 - 4 * (aMax_ self * (p2 - p1)))
      by (field; Lra.lra).
    assert (aMax_ self * D < 0) by Lra.nra.
    intros Hdelta. unfold Rabs in HD. destruct (Rcase_abs _); Lra.nra.
  - intros Hsigma. exfalso. apply Hsigma. rewrite Hzero. unfold sgn.
    destruct (Rlt_dec 0 0); [Lra.lra|done].
  - rewrite (sgn_pos D Hpos). intros _.
    replace (4 * v1 * v1 - 4 * (1 * aMax_ self)
             * ((v2 * v2 - v1 * v1) / (2 * - (1 * aMax_ self)) - (p2 - p1)))
      with (2 * v1 * v1 + 2 * v2 * v2 + 4 * (aMax_ self * (p2 - p1)))
      by (field; Lra.lra).
    assert (0 < aMax_ self * D) by (by apply Rmult_lt_0_compat).
    intros Hdelta. unfold Rabs in HD. destruct (Rcase_abs _); Lra.nra.
Qed.

(* the cruise time of the three segment form *)
Lemma root_peak a1 p1 p2 v1 v2 sd x :
  a1 <> 0 ->
  sd * sd = 4 * v1 * v1 - 4 * a1 * (((v2 * v2 - v1 * v1) / (2 * - a1)) - (p2 - p1)) ->
  x = (-2 * v1 + sd) / (2 * a1) \/ x = (-2 * v1 - sd) / (2 * a1) ->
  2 * a1 * (p2 - p1) = 2 * (v1 + x * a1) * (v1 + x * a1) - v1 * v1 - v2 * v2.
Proof.
  intros Ha Hsd Hx.
  assert (Hp : 2 * a1 * (p2 - p1) = (sd * sd - 2 * v1 * v1 - 2 * v2 * v2) / 2).
  { rewrite Hsd. field. done. }
  rewrite Hp. destruct Hx as [-> | ->]; field; done.
Qed.

Lemma three_segment_cruise self p1 p2 v1 v2 :
  0 < aMax_ self -> 0 < vMax_ self ->
  sigma_of self p1 p2 v1 v2 <> 0%Z ->
  0 <= delta_of self p1 p2 v1 v2 ->
  let vp := peak_velocity self p1 p2 v1 v2 in
  let vLim := IZR (sigma_of self p1 p2 v1 v2) * vMax_ self in
  let a1 := IZR (sigma_of self p1 p2 v1 v2) * aMax_ self in
  (v1 * v1 + v2 * v2 - 2 * vLim * vLim) / (2 * vLim * a1) + (p2 - p1) / vLim
  = (vp * vp - vMax_ self * vMax_ self) / (aMax_ self * vMax_ self).
Proof.
  intros Ha Hv Hsigma Hdelta vp vLim a1.
  assert (Hsq : IZR (sigma_of self p1 p2 v1 v2) * IZR (sigma_of self p1 p2 v1 v2) = 1).
  { destruct (sigma_cases self p1 p2 v1 v2) as [H | [H | H]]; rewrite H;
      first [Lra.lra | congruence]. }
  assert (Hs0 : IZR (sigma_of self p1 p2 v1 v2) <> 0) by (by apply not_0_IZR).
  assert (Ha1 : a1 <> 0) by (apply Rmult_integral_contrapositive; split; [done|Lra.lra]).
  assert (HvL : vLim <> 0) by (apply Rmult_integral_contrapositive; split; [done|Lra.lra]).
  pose proof (root_peak a1 p1 p2 v1 v2 (sqrt (delta_of self p1 p2 v1 v2))
                (larger_root self p1 p2 v1 v2) Ha1) as Hroot.
  rewrite sqrt_sqrt in Hroot by done.
  specialize (Hroot eq_refl (larger_root_cases self p1 p2 v1 v2)).
  change (2 * a1 * (p2 - p1) = 2 * vp * vp - v1 * v1 - v2 * v2) in Hroot.
  set (sg := IZR (sigma_of self p1 p2 v1 v2)) in *.
  assert (HvL2 : vLim * vLim = vMax_ self * vMax_ self).
  { unfold vLim. transitivity (sg * sg * (vMax_ self * vMax_ self)); [ring|].
    rewrite Hsq. ring. }
  assert (Hva : vLim * a1 = aMax_ self * vMax_ self).
  { unfold vLim, a1. transitivity (sg * sg * (aMax_ self * vMax_ self)); [ring|].
    rewrite Hsq. ring. }
  transitivity ((v1 * v1 + v2 * v2 - 2 * (vLim * vLim) + 2 * a1 * (p2 - p1))
                / (2 * (vLim * a1))); [field; done|].
  rewrite Hroot, HvL2, Hva. field. Lra.lra.
Qed.

(** Property X3.  With a negative sign the test of the velocity bound
    compares the velocity with [- vMax_]: when the larger root
    passes the lower bound of [t1] and the velocity reached at it stays
    strictly within the bound, [computeMinTime] still settles on three
    segments, with [t1 = (vMax_ + v1) / aMax_] and a cruise duration
    [tv] that is negative. *)
Theorem computeMinTime_negative_sign_negative_cruise self p1 p2 v1 v2 :
  0 < aMax_ self -> 0 < vMax_ self ->
  let r := computeMinTime self p1 p2 v1 v2 in
  mt_sigma r = (-1)%Z -> mt_out r = [] ->
  larger_root self p1 p2 v1 v2 > minT1_of self p1 p2 v1 v2 ->
  Rabs (peak_velocity self p1 p2 v1 v2) < vMax_ self ->
  mt_tv r < 0 /\ mt_t1 r = (vMax_ self + v1) / aMax_ self.
Proof.
  intros Ha Hv r Hsigma Hout Hroot Hpeak. subst r.
  rewrite computeMinTime_sigma in Hsigma. rewrite computeMinTime_out in Hout.
  destruct (Rlt_dec _ _) as [|Hdelta]; [discriminate|].
  apply Rnot_lt_le in Hdelta.
  apply Rabs_def2 in Hpeak as [Hup Hlow].
  destruct (computeMinTime_three_segment self p1 p2 v1 v2) as (-> & -> & _).
  { right. rewrite Hsigma. Lra.lra. }
  split.
  - rewrite three_segment_cruise by (done || by rewrite Hsigma).
    apply Rmult_lt_reg_r with (aMax_ self * vMax_ self); [Lra.nra|].
    unfold Rdiv. rewrite Rmult_assoc, Rinv_l by Lra.nra. Lra.nra.
  - rewrite Hsigma. field. Lra.lra.
Qed.

(** Property X4.  With a positive sign, when the larger root passes the
    lower bound of [t1], the result of [computeMinTime] respects the
    velocity bound: the cruise duration is not negative, the velocity
    at the end of the first segment is at most [vMax_], and there is a
    cruise only at [vMax_]. *)
Theorem computeMinTime_positive_sign_within_bound self p1 p2 v1 v2 :
  0 < aMax_ self -> 0 < vMax_ self ->
  let r := computeMinTime self p1 p2 v1 v2 in
  mt_sigma r = 1%Z -> mt_out r = [] ->
  larger_root self p1 p2 v1 v2 > minT1_of self p1 p2 v1 v2 ->
  0 <= mt_tv r
  /\ v1 + aMax_ self * mt_t1 r <= vMax_ self
  /\ (mt_tv r = 0 \/ v1 + aMax_ self * mt_t1 r = vMax_ self).
Proof.
  intros Ha Hv r Hsigma Hout Hroot. subst r.
  rewrite computeMinTime_sigma in Hsigma. rewrite computeMinTime_out in Hout.
  destruct (Rlt_dec _ _) as [|Hdelta]; [discriminate|].
  apply Rnot_lt_le in Hdelta.
  destruct (Rgt_dec (peak_velocity self p1 p2 v1 v2)
              (IZR (sigma_of self p1 p2 v1 v2) * vMax_ self)) as [Hpeak|Hpeak].
  - destruct (computeMinTime_three_segment self p1 p2 v1 v2) as (-> & -> & _);
      [by right|].
    rewrite three_segment_cruise by (done || by rewrite Hsigma).
    rewrite Hsigma in *.
    assert (Ht1 : v1 + aMax_ self * ((1 * vMax_ self - v1) / (1 * aMax_ self))
                  = vMax_ self) by (field; Lra.lra).
    rewrite Ht1. split; [|split; [Lra.lra|by right]].
    apply Rmult_le_reg_r with (aMax_ self * vMax_ self); [Lra.nra|].
    unfold Rdiv. rewrite Rmult_assoc, Rinv_l by Lra.nra. Lra.nra.
  - destruct (computeMinTime_two_segment self p1 p2 v1 v2 Hroot Hpeak)
      as (-> & -> & _).
    unfold peak_velocity in Hpeak. rewrite Hsigma in Hpeak.
    split; [Lra.lra|]. split; [Lra.lra|by left].
Qed.

Lemma ft_a2_opp self T p1 p2 v1 v2 :
  ft_a2 (fixedTimeTrajectory self T p1 p2 v1 v2)
  = - ft_a1 (fixedTimeTrajectory self T p1 p2 v1 v2).
Proof. unfold fixedTimeTrajectory. cbv zeta. destruct (Rlt_dec _ _); reflexivity. Qed.

Lemma fixedTimeTrajectory_cases self T p1 p2 v1 v2 :
  let r := fixedTimeTrajectory self T p1 p2 v1 v2 in
  let a1_0 := ft_root T p1 p2 v1 v2 in
  let vLim := ft_vLim self T p1 p2 v1 v2 in
  (ft_a1 r = a1_0 /\ ft_t1 r = 0.5 * ((v2 - v1) / a1_0 + T)
   /\ ft_tv r = 0 /\ ft_t2 r = T - ft_t1 r)
  \/ (ft_a1 r = ((vLim - v1) * (vLim - v1) + (vLim - v2) * (vLim - v2))
                  / (2 * (vLim * T - (p2 - p1)))
      /\ ft_t1 r = (vLim - v1) / ft_a1 r
      /\ ft_tv r = (v1 * v1 + v2 * v2 - 2 * vLim * vLim) / (2 * vLim * ft_a1 r)
                    + (p2 - p1) / vLim
      /\ ft_t2 r = (v2 - vLim) / - ft_a1 r).
Proof.
  unfold fixedTimeTrajectory, ft_vLim, ft_root. cbv zeta.
  destruct (Rlt_dec _ _); [left|right]; cbn; auto.
Qed.

(** Property X5.  [fixedTimeTrajectory] fills the time it is given:
    where the determinant is not negative and no divisor of the code is
    zero (the duration [T], the acceleration written to [a1], the
    signed velocity bound and [vLim * T - (p2 - p1)]), the three
    durations it writes add up to [T], in the two-segment form and in
    the three-segment form alike. *)
Theorem fixedTimeTrajectory_lasts_T self T p1 p2 v1 v2 :
  let r := fixedTimeTrajectory self T p1 p2 v1 v2 in
  T <> 0 -> ft_out r = [] ->
  ft_vLim self T p1 p2 v1 v2 <> 0 ->
  ft_vLim self T p1 p2 v1 v2 * T - (p2 - p1) <> 0 ->
  ft_a1 r <> 0 ->
  ft_t1 r + ft_tv r + ft_t2 r = T.
Proof.
  intros r _ _ Hv _ Ha.
  destruct (fixedTimeTrajectory_cases self T p1 p2 v1 v2)
    as [(H1 & Ht1 & Htv & Ht2) | (H1 & Ht1 & Htv & Ht2)]; fold r in H1, Ht1, Htv, Ht2.
  - rewrite Ht2, Htv. Lra.lra.
  - set (vLim := ft_vLim self T p1 p2 v1 v2) in *.
    rewrite Ht1, Htv, Ht2.
    set (N := (vLim - v1) * (vLim - v1) + (vLim - v2) * (vLim - v2)) in *.
    set (D := vLim * T - (p2 - p1)) in *.
    assert (HD : D <> 0).
    { intros HD. apply Ha. rewrite H1, HD, Rmult_0_r. unfold Rdiv.
      rewrite Rinv_0. Lra.lra. }
    assert (HN : N <> 0).
    { intros HN. apply Ha. rewrite H1, HN. unfold Rdiv. Lra.lra. }
    rewrite H1.
    assert (HT : T = (D + (p2 - p1)) / vLim) by (unfold D; field; done).
    clearbody D. rewrite HT. unfold N. field. repeat split; try done.
Qed.

(** Property X6.  The accelerations [fixedTimeTrajectory] writes are
    opposite, and with the durations [t1] and [t2] it writes they take
    the velocity from [v1] to [v2], where the determinant is not
    negative and no divisor of the code is zero (the duration [T], the
    root kept as first acceleration, [vLim * T - (p2 - p1)] and the
    acceleration written to [a1]). *)
Theorem fixedTimeTrajectory_reaches_velocity self T p1 p2 v1 v2 :
  let r := fixedTimeTrajectory self T p1 p2 v1 v2 in
  T <> 0 -> ft_out r = [] ->
  ft_root T p1 p2 v1 v2 <> 0 ->
  ft_vLim self T p1 p2 v1 v2 * T - (p2 - p1) <> 0 ->
  ft_a1 r <> 0 ->
  ft_a2 r = - ft_a1 r
  /\ end_velocity v1 (ft_a1 r) (ft_t1 r) (ft_a2 r) (ft_t2 r) = v2.
Proof.
  intros r _ _ _ _ Ha. split; [apply ft_a2_opp|]. unfold r at 3. rewrite ft_a2_opp. fold r.
  destruct (fixedTimeTrajectory_cases self T p1 p2 v1 v2)
    as [(H1 & Ht1 & Htv & Ht2) | (H1 & Ht1 & Htv & Ht2)]; fold r in H1, Ht1, Htv, Ht2.
  - unfold end_velocity. rewrite Ht2, Ht1. rewrite <- H1. rewrite half_inv. field. done.
  - unfold end_velocity. rewrite Ht2, Ht1. field. done.
Qed.

(** *** At the inputs of the scenarios *)


Lemma default_negative_delta : delta_of default_bounds 0.5 0 0 0 = 1.
Proof.
  unfold delta_of. rewrite (proj1 default_negative_values).
  cbn [aMax_ default_bounds]. rewrite half_inv. field.
Qed.

Lemma default_negative_peak : peak_velocity default_bounds 0.5 0 0 0 = -0.5.
Proof.
  destruct default_negative_values as (Hs & _ & Hr).
  unfold peak_velocity. rewrite Hr, Hs. cbn [aMax_ default_bounds]. Lra.lra.
Qed.

Lemma fixedTime_example :
  fixedTimeTrajectory unit_bounds 2 0 1 0 0
  = {| ft_a1 := 1; ft_a2 := -1; ft_t1 := 1; ft_tv := 0; ft_t2 := 1;
       ft_out := [] |}.
Proof.
  unfold fixedTimeTrajectory. cbn [aMax_ vMax_ unit_bounds].
  rewrite (sqrt_of_square _ 4) by Lra.lra.
  replace ((- (2 * 2 * (0 + 0) - 4 * (1 - 0)) - 4) / (2 * 2 * 2)) with 0
    by (field; Lra.lra).
  replace ((- (2 * 2 * (0 + 0) - 4 * (1 - 0)) + 4) / (2 * 2 * 2)) with 1
    by (field; Lra.lra).
  rewrite Rabs_R0, Rabs_R1.
  destruct (Rgt_dec 0 1) as [Hgt|_]; [exfalso; Lra.lra|].
  rewrite (sgn_pos 1) by Lra.lra.
  repeat real_case; lazy beta iota zeta.
  f_equal; first [Lra.lra | field; Lra.lra].
Qed.

Lemma fixedTime_example_root : ft_root 2 0 1 0 0 = 1.
Proof.
  unfold ft_root. cbv zeta.
  rewrite (sqrt_of_square _ 4) by Lra.lra.
  replace ((- (2 * 2 * (0 + 0) - 4 * (1 - 0)) - 4) / (2 * 2 * 2)) with 0
    by (field; Lra.lra).
  replace ((- (2 * 2 * (0 + 0) - 4 * (1 - 0)) + 4) / (2 * 2 * 2)) with 1
    by (field; Lra.lra).
  rewrite Rabs_R0, Rabs_R1.
  destruct (Rgt_dec 0 1) as [Hgt|_]; [exfalso; Lra.lra|done].
Qed.

Lemma computeMinTime_reaches_goal_witness :
  let r := computeMinTime fast_bounds 0 1 0 0 in
  let a1 := IZR (mt_sigma r) * aMax_ fast_bounds in
  end_velocity 0 a1 (mt_t1 r) (- a1) (mt_t2 r) = 0
  /\ end_position 0 0 a1 (mt_t1 r) (mt_tv r) (- a1) (mt_t2 r) = 1.
Proof.
  apply (computeMinTime_reaches_goal fast_bounds 0 1 0 0).
  - cbn. Lra.lra.
  - cbn. Lra.lra.
  - rewrite computeMinTime_bang_bang_scenario. cbn. lia.
  - rewrite computeMinTime_bang_bang_scenario. reflexivity.
Defined.

Lemma computeMinTime_same_direction_no_error_witness :
  mt_out (computeMinTime fast_bounds 0 1 0 0) = [].
Proof.
  apply (computeMinTime_same_direction_no_error fast_bounds 0 1 0 0).
  - cbn. Lra.lra.
  - Lra.lra.
  - rewrite computeMinTime_bang_bang_scenario. cbn. lia.
Defined.

Lemma computeMinTime_negative_sign_negative_cruise_witness :
  let r := computeMinTime default_bounds 0.5 0 0 0 in
  mt_tv r < 0 /\ mt_t1 r = (vMax_ default_bounds + 0) / aMax_ default_bounds.
Proof.
  apply (computeMinTime_negative_sign_negative_cruise default_bounds 0.5 0 0 0).
  - cbn. Lra.lra.
  - cbn. Lra.lra.
  - rewrite computeMinTime_sigma. apply default_negative_values.
  - rewrite computeMinTime_out, default_negative_delta.
    destruct (Rlt_dec 1 0); [exfalso; Lra.lra | reflexivity].
  - destruct default_negative_values as (_ & -> & ->). Lra.lra.
  - rewrite default_negative_peak. cbn [vMax_ default_bounds].
    rewrite Rabs_left; Lra.lra.
Defined.

Lemma computeMinTime_positive_sign_within_bound_witness :
  let r := computeMinTime unit_bounds 0 100 0 0 in
  0 <= mt_tv r
  /\ 0 + aMax_ unit_bounds * mt_t1 r <= vMax_ unit_bounds
  /\ (mt_tv r = 0 \/ 0 + aMax_ unit_bounds * mt_t1 r = vMax_ unit_bounds).
Proof.
  apply (computeMinTime_positive_sign_within_bound unit_bounds 0 100 0 0).
  - cbn. Lra.lra.
  - cbn. Lra.lra.
  - rewrite unit_S6_result. reflexivity.
  - rewrite unit_S6_result. reflexivity.
  - destruct unit_S6_values as (_ & -> & ->). Lra.lra.
Defined.

Lemma unit_vLim_example : ft_vLim unit_bounds 2 0 1 0 0 = 1.
Proof.
  unfold ft_vLim. rewrite fixedTime_example_root, (sgn_pos 1) by Lra.lra.
  cbn. Lra.lra.
Qed.

Lemma fixedTimeTrajectory_lasts_T_witness :
  let r := fixedTimeTrajectory unit_bounds 2 0 1 0 0 in
  ft_t1 r + ft_tv r + ft_t2 r = 2.
Proof.
  apply (fixedTimeTrajectory_lasts_T unit_bounds 2 0 1 0 0).
  - Lra.lra.
  - by rewrite fixedTime_example.
  - rewrite unit_vLim_example. Lra.lra.
  - rewrite unit_vLim_example. Lra.lra.
  - rewrite fixedTime_example. cbn. Lra.lra.
Defined.

Lemma fixedTimeTrajectory_reaches_velocity_witness :
  let r := fixedTimeTrajectory unit_bounds 2 0 1 0 0 in
  ft_a2 r = - ft_a1 r
  /\ end_velocity 0 (ft_a1 r) (ft_t1 r) (ft_a2 r) (ft_t2 r) = 0.
Proof.
  apply (fixedTimeTrajectory_reaches_velocity unit_bounds 2 0 1 0 0).
  - Lra.lra.
  - by rewrite fixedTime_example.
  - rewrite fixedTime_example_root. Lra.lra.
  - rewrite unit_vLim_example. Lra.lra.
  - rewrite fixedTime_example. cbn. Lra.lra.
Defined.

End SteeringProperties.

(* ===================================================================== *)
(** ** Further properties of the roadmap *)
(* ===================================================================== *)

Module RoadmapProperties.
Import Roadmap RoadmapFacts Invariants.
Local Open Scope Q_scope.

Section Properties.
Context {Path : Type} {PathOps : PathClass Path}.
Implicit Types (s : State Path) (q : Configuration).

Lemma attach_eq from to (path : Path) fa fb a b s oa ob :
  let e := new_ptr (edgeHeap s) in
  nodeHeap s !! a = Some oa ->
  <[a := fa e oa]> (nodeHeap s) !! b = Some ob ->
  attach from to path fa fb a b s
  = Some (e, mkState (set_edges (edges_ (roadmap s) ++ [e]) (roadmap s))
                     (<[b := fb e ob]> (<[a := fa e oa]> (nodeHeap s)))
                     (ccHeap s)
                     (<[e := mkEdge from to path]> (edgeHeap s))).
Proof.
  intros e Ha Hb. unfold attach, new_Edge.
  rewrite bind_assoc, bind_get. cbv beta.
  rewrite bind_assoc, bind_modify. cbv beta. rewrite bind_ret. cbv beta.
  erewrite bind_eq; [|by apply update_node_Some].
  erewrite bind_eq; [|by apply update_node_Some].
  unfold edges_push_back. rewrite bind_modify. done.
Qed.

Lemma attach_inv from to (path : Path) fa fb a b s e s' :
  attach from to path fa fb a b s = Some (e, s') ->
  ∃ oa ob,
    nodeHeap s !! a = Some oa
    ∧ <[a := fa e oa]> (nodeHeap s) !! b = Some ob
    ∧ e = new_ptr (edgeHeap s)
    ∧ s' = mkState (set_edges (edges_ (roadmap s) ++ [e]) (roadmap s))
                   (<[b := fb e ob]> (<[a := fa e oa]> (nodeHeap s)))
                   (ccHeap s)
                   (<[e := mkEdge from to path]> (edgeHeap s)).
Proof.
  intros Hrun.
  destruct (nodeHeap s !! a) as [oa|] eqn:Ha.
  - destruct (<[a := fa (new_ptr (edgeHeap s)) oa]> (nodeHeap s) !! b) as [ob|] eqn:Hb.
    + rewrite (attach_eq from to path fa fb a b s oa ob Ha Hb) in Hrun.
      injection Hrun as <- <-. by exists oa, ob.
    + exfalso. revert Hrun. unfold attach, new_Edge.
      rewrite bind_assoc, bind_get. cbv beta.
      rewrite bind_assoc, bind_modify. cbv beta. rewrite bind_ret. cbv beta.
      erewrite bind_eq; [|by apply update_node_Some].
      unfold update_node at 1. rewrite bind_assoc. unfold node_at.
      rewrite bind_assoc, bind_get. cbv beta. cbn [nodeHeap with_nodeHeap with_edgeHeap].
      rewrite Hb. done.
  - exfalso. revert Hrun. unfold attach, new_Edge.
    rewrite bind_assoc, bind_get. cbv beta.
    rewrite bind_assoc, bind_modify. cbv beta. rewrite bind_ret. cbv beta.
    unfold update_node at 1. rewrite bind_assoc. unfold node_at.
    rewrite bind_assoc, bind_get. cbv beta. cbn [nodeHeap with_nodeHeap with_edgeHeap].
    rewrite Ha. done.
Qed.


Lemma same_graph_refl s : same_graph s s.
Proof. split; [done|]. split; [by destruct s as [[]]|done]. Qed.

Lemma same_graph_trans s1 s2 s3 :
  same_graph s1 s2 -> same_graph s2 s3 -> same_graph s1 s3.
Proof.
  intros (He & Hr & Hn) (He' & Hr' & Hn'). split; [congruence|].
  split; [|intros n; by rewrite Hn', Hn].
  rewrite Hr', Hr. done.
Qed.

Lemma same_graph_absorb cc1 c s : same_graph s (absorb cc1 s c).
Proof.
  unfold absorb. destruct (ConnectedComponent.merge _ _ _ _) as [[nodes ccs]|] eqn:Hm;
    [|apply same_graph_refl].
  split; [done|]. split; [done|]. cbn. intros n.
  unfold ConnectedComponent.merge in Hm.
  destruct (ccHeap s !! cc1); [|done]. destruct (ccHeap s !! c); [|done].
  injection Hm as <- _. rewrite repoint_lookup.
  case_bool_decide; [|done]. by destruct (nodeHeap s !! n).
Qed.

Lemma same_graph_absorb_all cc1 l s : same_graph s (absorb_all cc1 l s).
Proof.
  revert s. induction l as [|c l IH]; intros s; [apply same_graph_refl|].
  change (absorb_all cc1 (c :: l) s)
    with (absorb_all cc1 l (if bool_decide (c = cc1) then s else absorb cc1 s c)).
  case_bool_decide; [apply IH|].
  eapply same_graph_trans; [apply same_graph_absorb | apply IH].
Qed.

(** One turn of the loop of [merge], when it returns. *)
Lemma merge_body_inv cc1 c s u s' :
  (if negb (bool_decide (c = cc1))
   then bind (cc_merge cc1 c)
          (λ _, bind (connectedComponents_erase c) (λ nb, assert (nb =? 1)%nat))
   else ret tt) s = Some (u, s') ->
  s' = (if bool_decide (c = cc1) then s else absorb cc1 s c)
  ∧ (c ≠ cc1 -> c ∈ connectedComponents_ (roadmap s)
                ∧ is_Some (ConnectedComponent.merge cc1 c (nodeHeap s) (ccHeap s))).
Proof.
  case_bool_decide as Hc; cbn [negb].
  - intros [= _ <-]. done.
  - intros Hrun. apply bind_Some in Hrun as (u1 & s1 & Hm & Hrun).
    unfold cc_merge in Hm. rewrite bind_get in Hm. cbv beta in Hm.
    apply bind_Some in Hm as ([nodes ccs] & s0 & Hm & Hrest).
    destruct (ConnectedComponent.merge cc1 c (nodeHeap s) (ccHeap s))
      as [[nodes' ccs']|] eqn:Hmerge; [|done].
    injection Hm as <- <- <-. rewrite bind_modify in Hrest. injection Hrest as _ <-.
    unfold connectedComponents_erase in Hrun. rewrite bind_assoc, bind_get in Hrun.
    cbv beta in Hrun. rewrite bind_assoc, bind_modify in Hrun. cbv beta in Hrun.
    rewrite bind_ret in Hrun. cbn in Hrun.
    case_bool_decide as Hin; [|done]. injection Hrun as _ <-.
    split; [|done]. unfold absorb. by rewrite Hmerge.
Qed.

Lemma merge_loop_inv cc1 l s u s' :
  for_each l tt
    (λ itcc _,
       if negb (bool_decide (itcc = cc1))
       then bind (cc_merge cc1 itcc)
              (λ _, bind (connectedComponents_erase itcc)
                      (λ nb, assert (nb =? 1)%nat))
       else ret tt) s = Some (u, s') ->
  s' = absorb_all cc1 l s.
Proof.
  revert s. induction l as [|c l IH]; intros s; cbn [for_each].
  - by intros [= _ <-].
  - intros Hrun. apply bind_Some in Hrun as ([] & s1 & Hbody & Hrun).
    apply merge_body_inv in Hbody as [-> _]. by apply IH in Hrun as ->.
Qed.

Lemma connect_same_graph cc1 cc2 s u s' :
  connect cc1 cc2 s = Some (u, s') -> same_graph s s'.
Proof.
  unfold connect. intros Hrun.
  apply bind_Some in Hrun as (reached & s1 & Hreach & Hrun).
  apply canReach_inv in Hreach as (o1 & Ho1 & _ & ->).
  destruct reached; [injection Hrun as _ <-; apply same_graph_refl|].
  apply bind_Some in Hrun as ([back R] & s1 & Hback & Hrun).
  unfold canReach_collect in Hback. rewrite bind_get in Hback. cbv beta in Hback.
  apply bind_Some in Hback as (o2 & s2 & Ho2 & Hback).
  apply cc_at_inv in Ho2 as [Ho2 ->]. injection Hback as _ _ <-.
  destruct back.
  - apply merge_loop_inv in Hrun as ->. apply same_graph_absorb_all.
  - apply bind_Some in Hrun as (u1 & s1 & H1 & H2).
    unfold update_cc in H1, H2.
    apply bind_Some in H1 as (x1 & t1 & Hx1 & H1). apply cc_at_inv in Hx1 as [_ ->].
    injection H1 as _ <-.
    apply bind_Some in H2 as (x2 & t2 & Hx2 & H2). apply cc_at_inv in Hx2 as [_ ->].
    injection H2 as _ <-. split; [done|]. split; [by destruct s as [[]]|done].
Qed.


(** *** Queries *)

Lemma for_each_read_in {A B} (l : list A) (body : A -> B -> M B)
    (g : B -> A -> B) acc s :
  (∀ x b, x ∈ l -> body x b s = Some (g b x, s)) ->
  for_each l acc body s = Some (fold_left g l acc, s).
Proof.
  revert acc. induction l as [|x l IH]; intros acc Hbody; [done|].
  cbn [for_each fold_left]. erewrite bind_eq; [|apply Hbody; set_solver].
  apply IH. intros y b Hy. apply Hbody. set_solver.
Qed.

Lemma fold_left_found {A} (f : A -> bool) (l : list A) acc :
  fold_left (λ (found : bool) (x : A), if found then true else f x) l acc = true
  <-> acc = true ∨ ∃ x, x ∈ l ∧ f x = true.
Proof.
  revert acc. induction l as [|x l IH]; intros acc; cbn [fold_left].
  - split; [by left|]. intros [?|(x & Hx & _)]; [done|by apply elem_of_nil in Hx].
  - rewrite IH. split.
    + intros [Hacc|(y & Hy & Hfy)].
      * destruct acc; [by left|]. right. exists x. split; [set_solver|done].
      * right. exists y. split; [set_solver|done].
    + intros [->|(y & Hy & Hfy)]; [by left|].
      apply elem_of_cons in Hy as [->|Hy].
      * left. rewrite Hfy. by destruct acc.
      * right. by exists y.
Qed.

(** [pathExists] with an init node and goal nodes that are nodes of
    the roadmap. *)
Lemma pathExists_run s init :
  wf s -> initNode_ (roadmap s) = Some init -> init ∈ nodes_ (roadmap s) ->
  (∀ g, g ∈ goalNodes_ (roadmap s) -> g ∈ nodes_ (roadmap s)) ->
  ∃ b cI,
    pathExists s = Some (b, s)
    ∧ component_of s init = Some cI
    ∧ (b = true
       <-> ∃ g cg, g ∈ goalNodes_ (roadmap s) ∧ component_of s g = Some cg
                   ∧ canReach cI cg s = Some (true, s)).
Proof.
  intros Hwf Hinit Hin Hgoals.
  destruct (wf_node s Hwf init Hin) as (iobj & cobj & Hiobj & _ & Hcobj & _).
  set (cI := Node.connectedComponent_ iobj) in *.
  set (reach := λ g : NodePtr_t,
         match nodeHeap s !! g with
         | Some gobj =>
             ConnectedComponent.canReach (ccHeap s) cI cobj
               (Node.connectedComponent_ gobj)
         | None => false
         end).
  exists (fold_left (λ (found : bool) (g : NodePtr_t),
                      if found then true else reach g)
            (goalNodes_ (roadmap s)) false), cI.
  split.
  { unfold pathExists. rewrite bind_get. cbv beta. rewrite Hinit.
    cbn [nonnull]. rewrite bind_ret. cbv beta.
    erewrite bind_eq; [|by apply node_at_Some]. cbv beta. fold cI.
    apply for_each_read_in. intros g found Hgoal. destruct found; [done|].
    destruct (wf_node s Hwf g (Hgoals g Hgoal)) as (gobj & _ & Hgobj & _).
    erewrite bind_eq; [|by apply node_at_Some].
    rewrite (canReach_Some cI _ s cobj Hcobj). unfold reach. by rewrite Hgobj. }
  split; [unfold component_of; by rewrite Hiobj|].
  rewrite fold_left_found. split.
  - intros [?|(g & Hgoal & Hreachg)]; [done|]. unfold reach in Hreachg.
    destruct (nodeHeap s !! g) as [gobj|] eqn:Hgobj; [|done].
    exists g, (Node.connectedComponent_ gobj). split; [done|].
    split; [unfold component_of; by rewrite Hgobj|].
    by rewrite (canReach_Some cI _ s cobj Hcobj), Hreachg.
  - intros (g & cg & Hgoal & Hcg & Hreachg). right. exists g. split; [done|].
    unfold component_of in Hcg. unfold reach.
    destruct (nodeHeap s !! g) as [gobj|]; [|done]. injection Hcg as ->.
    rewrite (canReach_Some cI _ s cobj Hcobj) in Hreachg. by injection Hreachg.
Qed.

(** After [connect] the first component reaches the second, or has
    absorbed it. *)
Lemma connect_reaches (n1 n2 : NodePtr_t) c1 c2 s s' :
  wf s -> n1 ∈ nodes_ (roadmap s) -> n2 ∈ nodes_ (roadmap s) ->
  component_of s n1 = Some c1 -> component_of s n2 = Some c2 ->
  connect c1 c2 s = Some (tt, s') -> wf s' ->
  ∃ c1' c2', component_of s' n1 = Some c1' ∧ component_of s' n2 = Some c2'
             ∧ canReach c1' c2' s' = Some (true, s').
Proof.
  intros Hwf Hn1 Hn2 Hc1 Hc2 Hconn Hwf'.
  destruct (wf_node s Hwf n1 Hn1) as (o1 & oc1 & Ho1 & Hin1 & Hoc1 & Hl1).
  destruct (wf_node s Hwf n2 Hn2) as (o2 & oc2 & Ho2 & Hin2 & Hoc2 & Hl2).
  unfold component_of in Hc1, Hc2. rewrite Ho1 in Hc1. rewrite Ho2 in Hc2.
  cbn in Hc1, Hc2. injection Hc1 as Hc1. injection Hc2 as Hc2.
  rewrite Hc1 in Hin1, Hoc1. rewrite Hc2 in Hin2, Hoc2.
  rewrite (connect_eq c1 c2 s oc1 oc2 Hoc1 Hoc2) in Hconn.
  destruct (ConnectedComponent.canReach (ccHeap s) c1 oc1 c2) eqn:H12.
  { injection Hconn as <-. exists c1, c2. unfold component_of.
    rewrite Ho1, Ho2. cbn [fmap option_fmap option_map].
    rewrite Hc1, Hc2. split; [done|]. split; [done|].
    by rewrite (canReach_Some c1 c2 s oc1 Hoc1), H12. }
  assert (c1 ≠ c2) as Hne by (intros ->; by rewrite canReach_self in H12).
  destruct (ConnectedComponent.canReach (ccHeap s) c2 oc2 c1) eqn:H21.
  - set (R := ConnectedComponent.between (ccHeap s) c2 oc2 c1) in *.
    assert (HR : R ⊆ connectedComponents_ (roadmap s)) by by apply between_subseteq.
    apply merge_loop_inv in Hconn as ->.
    destruct (merge_eq c1 (elements R) s Hwf Hin1) as (_ & _ & Hccs).
    { apply NoDup_elements. }
    { intros c Hc%elem_of_elements. by apply HR. }
    destruct (absorb_all_nodes c1 (elements R) s Hwf Hin1) as (_ & Hkeep & Hmove).
    { apply NoDup_elements. }
    { intros c Hc%elem_of_elements. by apply HR. }
    exists c1, c1. split.
    { apply Hkeep. unfold component_of. by rewrite Ho1, <- Hc1. }
    split.
    { destruct (Hmove c2 n2) as [_ Hpt]; try done.
      - apply elem_of_elements. unfold R, ConnectedComponent.between.
        apply elem_of_filter. split; [|apply downward_self].
        unfold ConnectedComponent.reaches. by rewrite Hoc2.
      - unfold nodes_of. by rewrite Hoc2.
      - apply Hpt. by exists o2. }
    rewrite list_to_set_elements_L in Hccs.
    destruct (wf_cc _ Hwf' c1) as (o & Ho & _); [rewrite Hccs; set_solver|].
    by rewrite (canReach_Some c1 c1 _ o Ho), canReach_self.
  - injection Hconn as <-. exists c1, c2. unfold component_of.
    cbn [nodeHeap with_ccHeap]. rewrite Ho1, Ho2.
    cbn [fmap option_fmap option_map].
    rewrite Hc1, Hc2. split; [done|]. split; [done|].
    erewrite canReach_Some;
      [|cbn [ccHeap with_ccHeap]; rewrite lookup_insert_ne by done;
        apply lookup_insert_eq].
    rewrite canReach_linked; [done|].
    cbn [ConnectedComponent.insert_reachableTo ConnectedComponent.reachableTo_].
    set_solver.
Qed.

(** Property X7.
    [addEdge] on nodes of the roadmap returns a new edge from [n1] to
    [n2], last of the edges of the roadmap, of the outgoing edges of
    [n1] and of the incoming edges of [n2]; the nodes are those before
    the call, and the component of [n1] can now reach that of [n2]. *)
Theorem addEdge_connects n1 n2 (path : Path) s :
  wf s -> n1 ∈ nodes_ (roadmap s) -> n2 ∈ nodes_ (roadmap s) ->
  ∃ e s',
    addEdge n1 n2 path s = Some (e, s')
    ∧ edgeHeap s !! e = None
    ∧ edgeHeap s' = <[e := mkEdge n1 n2 path]> (edgeHeap s)
    ∧ edges_ (roadmap s') = edges_ (roadmap s) ++ [e]
    ∧ nodes_ (roadmap s') = nodes_ (roadmap s)
    ∧ Node.outEdges_ <$> nodeHeap s' !! n1
      = (λ obj, Node.outEdges_ obj ++ [e]) <$> nodeHeap s !! n1
    ∧ Node.inEdges_ <$> nodeHeap s' !! n2
      = (λ obj, Node.inEdges_ obj ++ [e]) <$> nodeHeap s !! n2
    ∧ (∃ c1 c2, component_of s' n1 = Some c1 ∧ component_of s' n2 = Some c2
                ∧ canReach c1 c2 s' = Some (true, s'))
    ∧ (initNode_ (roadmap s) = Some n1 -> n2 ∈ goalNodes_ (roadmap s) ->
       (∀ g, g ∈ goalNodes_ (roadmap s) -> g ∈ nodes_ (roadmap s)) ->
       pathExists s' = Some (true, s'))
    ∧ wf s'.
Proof.
  intros Hwf Hn1 Hn2.
  destruct (wf_node s Hwf n1 Hn1) as (o1 & oc1 & Ho1 & Hin1 & Hoc1 & Hl1).
  destruct (wf_node s Hwf n2 Hn2) as (o2 & oc2 & Ho2 & Hin2 & Hoc2 & Hl2).
  set (e := new_ptr (edgeHeap s)).
  assert (∃ ob, <[n1 := Node.addOutEdge e o1]> (nodeHeap s) !! n2 = Some ob
                ∧ Node.connectedComponent_ ob = Node.connectedComponent_ o2
                ∧ Node.inEdges_ ob = Node.inEdges_ o2
                ∧ (n1 = n2 -> Node.outEdges_ ob = Node.outEdges_ o1 ++ [e]))
    as (ob & Hob & Hobc & Hobi & Hobo).
  { destruct (decide (n1 = n2)) as [<-|Hne].
    - eexists. rewrite lookup_insert_eq. split; [done|].
      rewrite Ho1 in Ho2. injection Ho2 as <-. done.
    - exists o2. by rewrite lookup_insert_ne. }
  pose proof (attach_eq n1 n2 path Node.addOutEdge Node.addInEdge n1 n2 s o1 ob
                Ho1 Hob) as Hatt. cbv zeta in Hatt. fold e in Hatt.
  set (s1 := mkState _ _ _ _) in Hatt.
  assert (Hsame : same_nodes s s1).
  { eapply attach_same; [apply addOutEdge_keeps | apply addInEdge_keeps | done]. }
  pose proof (wf_same_nodes s s1 Hsame Hwf) as Hwf1.
  assert (H1 : nodeHeap s1 !! n1
               = Some (if decide (n1 = n2) then Node.addInEdge e ob
                       else Node.addOutEdge e o1)).
  { unfold s1. cbn. destruct (decide (n1 = n2)) as [<-|Hne].
    - by rewrite lookup_insert_eq.
    - rewrite lookup_insert_ne by done. by rewrite lookup_insert_eq. }
  assert (H2 : nodeHeap s1 !! n2 = Some (Node.addInEdge e ob)).
  { unfold s1. cbn. by rewrite lookup_insert_eq. }
  assert (Hc1 : component_of s1 n1 = Some (Node.connectedComponent_ o1)).
  { apply (same_nodes_component s s1); [done|]. unfold component_of. by rewrite Ho1. }
  assert (Hc2 : component_of s1 n2 = Some (Node.connectedComponent_ o2)).
  { apply (same_nodes_component s s1); [done|]. unfold component_of. by rewrite Ho2. }
  destruct Hsame as (Hcch & Hccs & Hnodes & _).
  destruct (connect_wf (Node.connectedComponent_ o1) (Node.connectedComponent_ o2)
              s1 Hwf1) as (s' & Hconn & Hwf'); [by rewrite Hccs..|].
  pose proof (connect_same_graph _ _ _ _ _ Hconn) as (Hedges & Hroad & Hcontent).
  exists e, s'. split.
  { unfold addEdge. rewrite attach_bind. erewrite bind_eq; [|exact Hatt].
    erewrite bind_eq; [|by apply node_at_Some].
    erewrite bind_eq; [|by apply node_at_Some].
    unfold component_of in Hc1, Hc2. rewrite H1 in Hc1. rewrite H2 in Hc2.
    cbn [fmap option_fmap option_map] in Hc1, Hc2.
    injection Hc1 as Hc1. injection Hc2 as Hc2. rewrite Hc1.
    change (Node.connectedComponent_ (Node.addInEdge e ob))
      with (Node.connectedComponent_ ob). rewrite Hc2.
    erewrite bind_eq; [|exact Hconn]. done. }
  split; [apply new_ptr_fresh|]. split; [by rewrite Hedges|].
  split; [by rewrite Hroad|]. split; [by rewrite Hroad|].
  split.
  { pose proof (Hcontent n1) as Hn. rewrite H1 in Hn. rewrite Ho1. cbn in *.
    destruct (nodeHeap s' !! n1) as [o|]; [|done]. cbn in *.
    injection Hn as _ Hout _. rewrite Hout. f_equal.
    destruct (decide (n1 = n2)) as [Heq|]; [|done]. cbn. by apply Hobo. }
  split.
  { pose proof (Hcontent n2) as Hn. rewrite H2 in Hn. rewrite Ho2. cbn in *.
    destruct (nodeHeap s' !! n2) as [o|]; [|done]. cbn in *.
    injection Hn as _ _ Hin. rewrite Hin. f_equal. by rewrite Hobi. }
  pose proof (connect_reaches n1 n2 _ _ s1 s' Hwf1 Hn1 Hn2 Hc1 Hc2 Hconn Hwf')
    as (c1 & c2 & Hcomp1 & Hcomp2 & Hreach).
  split; [by exists c1, c2|]. split; [|done].
  intros Hinit Hgoal Hgoals.
  destruct (pathExists_run s' n1 Hwf') as (b & cI & Hrun & HcI & Hb).
  { by rewrite Hroad. }
  { by rewrite Hroad. }
  { rewrite Hroad. exact Hgoals. }
  rewrite Hrun. do 2 f_equal. apply Hb. exists n2, c2.
  split; [by rewrite Hroad|]. split; [done|]. congruence.
Qed.


(** *** Creating nodes *)

(** Property X9.
    [addNode] on a configuration no node of the roadmap has: a new
    node, in a new component of its own. *)
Theorem addNode_creates q s :
  wf s ->
  (∀ m mobj, m ∈ nodes_ (roadmap s) -> nodeHeap s !! m = Some mobj ->
     config_eqb (Node.configuration_ mobj) q = false) ->
  ∃ n c s',
    addNode q s = Some (n, s')
    ∧ (n ∉ nodes_ (roadmap s))
    ∧ (c ∉ connectedComponents_ (roadmap s))
    ∧ nodes_ (roadmap s') = nodes_ (roadmap s) ++ [n]
    ∧ connectedComponents_ (roadmap s')
      = {[c]} ∪ connectedComponents_ (roadmap s)
    ∧ nodeHeap s' = <[n := Node.create q c]> (nodeHeap s)
    ∧ ccHeap s' !! c = Some (ConnectedComponent.mk [n] ∅ ∅)
    ∧ (∀ c', c' ≠ c -> ccHeap s' !! c' = ccHeap s !! c')
    ∧ edges_ (roadmap s') = edges_ (roadmap s)
    ∧ edgeHeap s' = edgeHeap s
    ∧ wf s'.
Proof.
  intros Hwf Hnew.
  exists (new_ptr (nodeHeap s)), (new_ptr (ccHeap s)), (added s q).
  split.
  { rewrite addNode_eq by done.
    destruct (nodes_ (roadmap s)) as [|n0 l] eqn:Hnodes; [done|].
    destruct (nearestNode_found q s Hwf) as (n & obj & Hnear & Hn & Hobj & _);
      [by rewrite Hnodes|].
    rewrite nearestNode_eq in Hnear. injection Hnear as Hnear.
    rewrite Hnear. cbn [fst]. rewrite Hobj.
    by rewrite (Hnew n obj) by (done || by rewrite <- Hnodes). }
  split.
  { intros Hin. destruct (wf_node s Hwf _ Hin) as (obj & _ & Hobj & _).
    by rewrite new_ptr_fresh in Hobj. }
  split.
  { intros Hin. destruct (wf_cc s Hwf _ Hin) as (cobj & Hcobj & _).
    by rewrite new_ptr_fresh in Hcobj. }
  cbn. repeat (split; [done|]). split; [by rewrite lookup_insert_eq|].
  split; [|repeat (split; [done|]); by apply wf_added].
  intros c' Hc'. by rewrite !lookup_insert_ne.
Qed.

(** *** Searches within a component *)

Lemma nearestNode_in_eq q cc s cobj :
  ccHeap s !! cc = Some cobj ->
  nearestNode_in q cc s
  = if (length (ConnectedComponent.nodes_ cobj) =? 0)%nat then None
    else Some (KDTree.search (nodeHeap s) (kdTree_ (roadmap s)) q cc, s).
Proof.
  intros Hc. unfold nearestNode_in.
  erewrite bind_eq; [|by apply cc_at_Some].
  by destruct (length _ =? 0)%nat.
Qed.

Lemma search_in_component q cc s m mobj :
  wf s -> m ∈ nodes_ (roadmap s) -> nodeHeap s !! m = Some mobj ->
  Node.connectedComponent_ mobj = cc ->
  ∃ n obj,
    KDTree.search (nodeHeap s) (kdTree_ (roadmap s)) q cc
    = (Some n, Finite (distance_ (roadmap s) q (Node.configuration_ obj)))
    ∧ n ∈ nodes_ (roadmap s) ∧ nodeHeap s !! n = Some obj
    ∧ Node.connectedComponent_ obj = cc
    ∧ ∀ m' mobj', m' ∈ nodes_ (roadmap s) -> nodeHeap s !! m' = Some mobj' ->
        Node.connectedComponent_ mobj' = cc ->
        distance_ (roadmap s) q (Node.configuration_ obj)
        <= distance_ (roadmap s) q (Node.configuration_ mobj').
Proof.
  intros Hwf Hm Hmobj Hcc. unfold KDTree.search.
  rewrite (wf_kd_nodes s Hwf), (wf_kd_distance s Hwf).
  destruct (scan_from_scratch (nodeHeap s) (distance_ (roadmap s)) q
              (KDTree.in_component cc) (nodes_ (roadmap s))) as [Hcand Hmin].
  cbv zeta in Hcand, Hmin.
  set (r := fold_left _ _ _) in *.
  assert (Hkeep : ∀ o, KDTree.in_component cc o = true
                       <-> Node.connectedComponent_ o = cc).
  { intros o. unfold KDTree.in_component. by rewrite bool_decide_eq_true. }
  destruct Hcand as [Hnone | (n & obj & Hr & Hn & Hobj & Hk)].
  { specialize (Hmin m mobj Hm Hmobj (proj2 (Hkeep mobj) Hcc)).
    by rewrite Hnone in Hmin. }
  exists n, obj. split; [done|]. split; [done|]. split; [done|].
  split; [by apply Hkeep|].
  intros m' mobj' Hm' Hmobj' Hcc'.
  specialize (Hmin m' mobj' Hm' Hmobj' (proj2 (Hkeep mobj') Hcc')).
  by rewrite Hr in Hmin.
Qed.

(** Property X12.
    [nearestNode] within a component: the assertion stops the call on
    a component without node; on the component of a node of the
    roadmap the call returns, without writing, a node of the component
    that no node of the component beats. *)
Theorem nearestNode_in_is_nearest q cc s :
  wf s ->
  (nodes_of s cc = [] -> nearestNode_in q cc s = None)
  ∧ (∀ m, m ∈ nodes_ (roadmap s) -> component_of s m = Some cc ->
     ∃ n obj d,
       nearestNode_in q cc s = Some ((Some n, Finite d), s)
       ∧ n ∈ nodes_ (roadmap s) ∧ nodeHeap s !! n = Some obj
       ∧ Node.connectedComponent_ obj = cc
       ∧ d = distance_ (roadmap s) q (Node.configuration_ obj)
       ∧ ∀ m' mobj', m' ∈ nodes_ (roadmap s) -> nodeHeap s !! m' = Some mobj' ->
           Node.connectedComponent_ mobj' = cc ->
           d <= distance_ (roadmap s) q (Node.configuration_ mobj')).
Proof.
  intros Hwf. split.
  - unfold nodes_of. destruct (ccHeap s !! cc) as [cobj|] eqn:Hc.
    + intros Hnil. by rewrite (nearestNode_in_eq q cc s cobj Hc), Hnil.
    + intros _. unfold nearestNode_in, cc_at. rewrite bind_assoc, bind_get.
      cbv beta. by rewrite Hc.
  - intros m Hm Hcomp.
    destruct (wf_node s Hwf m Hm) as (mobj & cobj & Hmobj & _ & Hcobj & Hlisted).
    unfold component_of in Hcomp. rewrite Hmobj in Hcomp. injection Hcomp as Hcc.
    rewrite Hcc in Hcobj.
    destruct (search_in_component q cc s m mobj Hwf Hm Hmobj Hcc)
      as (n & obj & Hsearch & Hn & Hobj & Hobjcc & Hmin).
    exists n, obj, (distance_ (roadmap s) q (Node.configuration_ obj)).
    rewrite (nearestNode_in_eq q cc s cobj Hcobj), Hsearch.
    destruct (ConnectedComponent.nodes_ cobj); [by apply elem_of_nil in Hlisted|].
    done.
Qed.


(** [addNode] within a component, as the equation the call obeys. *)
Lemma addNode_in_eq q cc s cobj :
  ccHeap s !! cc = Some cobj ->
  addNode_in q cc s
  = match nodes_ (roadmap s) with
    | [] => Some (new_ptr (nodeHeap s), added_in s q cc cobj)
    | _ :: _ =>
        if (length (ConnectedComponent.nodes_ cobj) =? 0)%nat then None
        else
          match fst (KDTree.search (nodeHeap s) (kdTree_ (roadmap s)) q cc) with
          | Some n =>
              match nodeHeap s !! n with
              | Some obj =>
                  if config_eqb (Node.configuration_ obj) q
                  then Some (n, s)
                  else Some (new_ptr (nodeHeap s), added_in s q cc cobj)
              | None => None
              end
          | None => None
          end
    end.
Proof.
  intros Hc.
  assert (Hcreate :
    bind (new_Node_in q cc)
      (λ node,
         bind (modify (with_roadmap (λ r, set_nodes (nodes_ r ++ [node]) r)))
           (λ _, bind (update_cc cc (ConnectedComponent.addNode node))
              (λ _, bind (kdTree_addNode node) (λ _, ret node)))) s
    = Some (new_ptr (nodeHeap s), added_in s q cc cobj)).
  { unfold new_Node_in. rewrite bind_assoc, bind_get. cbv beta.
    rewrite bind_assoc, bind_modify. cbv beta. rewrite bind_ret. cbv beta.
    rewrite bind_modify. cbv beta.
    erewrite bind_eq; [|by apply update_cc_Some].
    unfold kdTree_addNode. rewrite bind_modify. done. }
  unfold addNode_in. rewrite bind_get. cbv beta.
  destruct (nodes_ (roadmap s)) as [|n0 l] eqn:Hnodes.
  - simpl negb. cbv iota. rewrite bind_ret. cbv beta iota. exact Hcreate.
  - simpl negb. cbv iota. rewrite !bind_assoc.
    unfold bind at 1. rewrite (nearestNode_in_eq q cc s cobj Hc).
    destruct (length _ =? 0)%nat; [done|].
    destruct (KDTree.search _ _ _ _) as [[n|] d]; simpl fst; cbv beta iota.
    + rewrite bind_assoc. unfold nonnull at 1. rewrite bind_ret. cbv beta.
      rewrite bind_assoc.
      destruct (nodeHeap s !! n) as [obj|] eqn:Hobj.
      * erewrite bind_eq; [|by apply node_at_Some]. cbv beta.
        destruct (config_eqb _ _); rewrite bind_ret; cbv beta iota; [done|].
        exact Hcreate.
      * unfold bind at 1. unfold node_at, bind, get, nonnull. by rewrite Hobj.
    + rewrite bind_assoc. done.
Qed.


(** The two ways [addNode] within a component returns, on the
    component of a node of the roadmap. *)
Lemma addNode_in_run q cc s m :
  wf s -> m ∈ nodes_ (roadmap s) -> component_of s m = Some cc ->
  ∃ cobj n obj,
    ccHeap s !! cc = Some cobj
    ∧ KDTree.search (nodeHeap s) (kdTree_ (roadmap s)) q cc
      = (Some n, Finite (distance_ (roadmap s) q (Node.configuration_ obj)))
    ∧ n ∈ nodes_ (roadmap s) ∧ nodeHeap s !! n = Some obj
    ∧ Node.connectedComponent_ obj = cc
    ∧ (∀ m' mobj', m' ∈ nodes_ (roadmap s) -> nodeHeap s !! m' = Some mobj' ->
         Node.connectedComponent_ mobj' = cc ->
         distance_ (roadmap s) q (Node.configuration_ obj)
         <= distance_ (roadmap s) q (Node.configuration_ mobj'))
    ∧ addNode_in q cc s
      = if config_eqb (Node.configuration_ obj) q
        then Some (n, s)
        else Some (new_ptr (nodeHeap s), added_in s q cc cobj).
Proof.
  intros Hwf Hm Hcomp.
  destruct (wf_node s Hwf m Hm) as (mobj & cobj & Hmobj & _ & Hcobj & Hlisted).
  unfold component_of in Hcomp. rewrite Hmobj in Hcomp. injection Hcomp as Hcc.
  rewrite Hcc in Hcobj.
  destruct (search_in_component q cc s m mobj Hwf Hm Hmobj Hcc)
    as (n & obj & Hsearch & Hn & Hobj & Hobjcc & Hmin).
  exists cobj, n, obj. repeat (split; [done|]).
  rewrite (addNode_in_eq q cc s cobj Hcobj), Hsearch. cbn [fst]. rewrite Hobj.
  destruct (nodes_ (roadmap s)); [by apply elem_of_nil in Hm|].
  destruct (ConnectedComponent.nodes_ cobj); [by apply elem_of_nil in Hlisted|].
  done.
Qed.

(** Property X10.
    [addNode] within the component of a node of the roadmap returns a
    node of that component with the configuration asked for: the
    nearest one of the component when it has this configuration, else
    a new node, last of the roadmap and of the component.  The
    components of the roadmap, the edges and the other nodes are as
    before; with a distance that separates configurations, no second
    node with the configuration joins the component. *)
Theorem addNode_in_joins_component q cc s m :
  wf s -> m ∈ nodes_ (roadmap s) -> component_of s m = Some cc ->
  ∃ n s' obj,
    addNode_in q cc s = Some (n, s')
    ∧ n ∈ nodes_ (roadmap s')
    ∧ nodeHeap s' !! n = Some obj
    ∧ Node.connectedComponent_ obj = cc
    ∧ config_eqb (Node.configuration_ obj) q = true
    ∧ n ∈ nodes_of s' cc
    ∧ connectedComponents_ (roadmap s') = connectedComponents_ (roadmap s)
    ∧ edges_ (roadmap s') = edges_ (roadmap s)
    ∧ edgeHeap s' = edgeHeap s
    ∧ (∀ m', m' ∈ nodes_ (roadmap s) -> nodeHeap s' !! m' = nodeHeap s !! m')
    ∧ (s' = s
       ∨ (n ∉ nodes_ (roadmap s))
         ∧ nodes_ (roadmap s') = nodes_ (roadmap s) ++ [n]
         ∧ nodes_of s' cc = nodes_of s cc ++ [n]
         ∧ obj = Node.create q cc)
    ∧ (metric (distance_ (roadmap s)) ->
       (∃ m' mobj', m' ∈ nodes_ (roadmap s) ∧ nodeHeap s !! m' = Some mobj'
                    ∧ Node.connectedComponent_ mobj' = cc
                    ∧ config_eqb (Node.configuration_ mobj') q = true) ->
       s' = s)
    ∧ wf s'.
Proof.
  intros Hwf Hm Hcomp.
  destruct (addNode_in_run q cc s m Hwf Hm Hcomp)
    as (cobj & n & obj & Hcobj & Hsearch & Hn & Hobj & Hcc & Hmin & Hrun).
  assert (Hin : cc ∈ connectedComponents_ (roadmap s)).
  { destruct (wf_node s Hwf n Hn) as (obj' & _ & Hobj' & Hin & _).
    rewrite Hobj in Hobj'. injection Hobj' as <-. by rewrite <- Hcc. }
  destruct (config_eqb (Node.configuration_ obj) q) eqn:Heq.
  - exists n, s, obj. repeat (split; [done|]). split.
    { destruct (wf_node s Hwf n Hn) as (obj' & cobj' & Hobj' & _ & Hcobj' & Hl).
      rewrite Hobj in Hobj'. injection Hobj' as <-. unfold nodes_of.
      by rewrite <- Hcc, Hcobj'. }
    repeat (split; [done|]). split; [by left|]. done.
  - assert (Hfresh : new_ptr (nodeHeap s) ∉ nodes_ (roadmap s)).
    { intros Hf. destruct (wf_node s Hwf _ Hf) as (obj' & _ & Hobj' & _).
      by rewrite new_ptr_fresh in Hobj'. }
    exists (new_ptr (nodeHeap s)), (added_in s q cc cobj), (Node.create q cc).
    split; [done|]. cbn. split; [set_solver|].
    split; [by rewrite lookup_insert_eq|]. split; [done|].
    split; [apply config_eqb_refl|].
    unfold nodes_of. cbn. rewrite lookup_insert_eq, Hcobj. cbn.
    split; [set_solver|]. repeat (split; [done|]).
    split.
    { intros m' Hm'. rewrite lookup_insert_ne; [done|]. by intros <-. }
    split; [right; done|]. split; [|by apply wf_added_in].
    intros Hmetric (m' & mobj' & Hm' & Hmobj' & Hcc' & Heq').
    rewrite (nearest_is_equal q s m' mobj' obj Hmetric Hmobj' Heq') in Heq;
      [done|]. by apply (Hmin m' mobj').
Qed.


(** *** Edges in both directions *)

Lemma addEdges_attach from to (path : Path) s :
  addEdges from to path s
  = bind (attach from to path Node.addOutEdge Node.addInEdge from to)
      (λ _, bind (attach to from (reverse path) Node.addInEdge Node.addOutEdge
                    from to)
              (λ _, ret tt)) s.
Proof.
  unfold addEdges. rewrite attach_bind. apply bind_ext. intros e s1 _.
  unfold attach, bind.
  destruct (new_Edge to from (reverse path) s1) as [[e2 t1]|]; [|done].
  destruct (update_node from (Node.addInEdge e2) t1) as [[u2 t2]|]; [|done].
  destruct (update_node to (Node.addOutEdge e2) t2) as [[u3 t3]|]; [|done].
  by destruct (edges_push_back e2 t3) as [[[] t4]|].
Qed.

(** [addEdges] between two nodes that exist: the two edges, and the
    nodes they are registered in. *)
Lemma addEdges_run from to (path : Path) s :
  is_Some (nodeHeap s !! from) -> is_Some (nodeHeap s !! to) ->
  ∃ s' e1 e2,
    addEdges from to path s = Some (tt, s')
    ∧ edgeHeap s !! e1 = None ∧ edgeHeap s !! e2 = None ∧ e1 ≠ e2
    ∧ edgeHeap s'
      = <[e2 := mkEdge to from (reverse path)]>
          (<[e1 := mkEdge from to path]> (edgeHeap s))
    ∧ edges_ (roadmap s') = edges_ (roadmap s) ++ [e1; e2]
    ∧ initNode_ (roadmap s') = initNode_ (roadmap s)
    ∧ goalNodes_ (roadmap s') = goalNodes_ (roadmap s)
    ∧ same_nodes s s'
    ∧ (from ≠ to ->
       nodeHeap s' !! from
       = (λ o, Node.addInEdge e2 (Node.addOutEdge e1 o)) <$> nodeHeap s !! from
       ∧ nodeHeap s' !! to
         = (λ o, Node.addOutEdge e2 (Node.addInEdge e1 o)) <$> nodeHeap s !! to)
    ∧ (∀ m, m ≠ from -> m ≠ to -> nodeHeap s' !! m = nodeHeap s !! m).
Proof.
  intros [o1 Ho1] [o2 Ho2].
  set (e1 := new_ptr (edgeHeap s)).
  assert (∃ ob, <[from := Node.addOutEdge e1 o1]> (nodeHeap s) !! to = Some ob
                ∧ (from ≠ to -> ob = o2)) as (ob & Hob & Hob').
  { destruct (decide (from = to)) as [<-|Hne].
    - eexists. by rewrite lookup_insert_eq.
    - exists o2. by rewrite lookup_insert_ne. }
  pose proof (attach_eq from to path Node.addOutEdge Node.addInEdge from to s
                o1 ob Ho1 Hob) as Hatt1. cbv zeta in Hatt1. fold e1 in Hatt1.
  set (s1 := mkState _ _ _ _) in Hatt1.
  set (e2 := new_ptr (edgeHeap s1)).
  assert (∃ oa, nodeHeap s1 !! from = Some oa
                ∧ (from ≠ to -> oa = Node.addOutEdge e1 o1)) as (oa & Hoa & Hoa').
  { unfold s1. cbn. destruct (decide (from = to)) as [<-|Hne].
    - eexists. by rewrite lookup_insert_eq.
    - eexists. rewrite lookup_insert_ne by done. by rewrite lookup_insert_eq. }
  assert (∃ oc, <[from := Node.addInEdge e2 oa]> (nodeHeap s1) !! to = Some oc
                ∧ (from ≠ to -> oc = Node.addInEdge e1 ob)) as (oc & Hoc & Hoc').
  { destruct (decide (from = to)) as [<-|Hne].
    - eexists. by rewrite lookup_insert_eq.
    - eexists. rewrite lookup_insert_ne by done. unfold s1. cbn.
      by rewrite lookup_insert_eq. }
  pose proof (attach_eq to from (reverse path) Node.addInEdge Node.addOutEdge
                from to s1 oa oc Hoa Hoc) as Hatt2.
  cbv zeta in Hatt2. fold e2 in Hatt2.
  set (s2 := mkState _ _ _ _) in Hatt2.
  assert (He2 : edgeHeap s1 !! e2 = None) by apply new_ptr_fresh.
  assert (Hne : e1 ≠ e2).
  { intros Heq. rewrite <- Heq in He2. unfold s1 in He2. cbn in He2.
    by rewrite lookup_insert_eq in He2. }
  exists s2, e1, e2. split.
  { rewrite addEdges_attach. erewrite bind_eq; [|exact Hatt1].
    erewrite bind_eq; [|exact Hatt2]. done. }
  split; [apply new_ptr_fresh|]. split.
  { unfold s1 in He2. cbn in He2. by rewrite lookup_insert_ne in He2. }
  split; [done|]. split; [done|]. split; [cbn; by rewrite <- app_assoc|].
  split; [done|]. split; [done|]. split.
  { eapply same_nodes_trans.
    - eapply attach_same; [apply addOutEdge_keeps | apply addInEdge_keeps | done].
    - eapply attach_same; [apply addInEdge_keeps | apply addOutEdge_keeps | done]. }
  split.
  - intros Hft. rewrite Ho1, Ho2. cbn.
    rewrite lookup_insert_ne by done. rewrite lookup_insert_eq.
    rewrite lookup_insert_eq. rewrite (Hoa' Hft), (Hoc' Hft), (Hob' Hft). done.
  - intros m Hm1 Hm2. cbn. by rewrite !lookup_insert_ne.
Qed.

(** [pathExists] reads the init node, the goal nodes, the component
    each of them points to and the components. *)
Lemma pathExists_loop_transfer s s' cI (l : list NodePtr_t) acc b s1 :
  ccHeap s' = ccHeap s ->
  (∀ n, component_of s' n = component_of s n) ->
  for_each l acc
    (λ itGoal (found : bool),
       if found then ret true
       else bind (node_at itGoal)
              (λ goal_obj, canReach cI (Node.connectedComponent_ goal_obj))) s
  = Some (b, s1) ->
  s1 = s
  ∧ for_each l acc
      (λ itGoal (found : bool),
         if found then ret true
         else bind (node_at itGoal)
                (λ goal_obj, canReach cI (Node.connectedComponent_ goal_obj))) s'
    = Some (b, s').
Proof.
  intros Hcc Hcomp. revert acc.
  induction l as [|g l IH]; intros acc; cbn [for_each].
  { by intros [= <- <-]. }
  intros Hrun. apply bind_Some in Hrun as (acc' & t & Hbody & Hrun).
  destruct acc.
  - injection Hbody as <- <-. rewrite bind_ret. by apply IH.
  - apply bind_Some in Hbody as (gobj & t1 & Hg & Hreach).
    apply node_at_inv in Hg as [Hg ->].
    apply canReach_inv in Hreach as (cobj & Hcobj & -> & ->).
    pose proof (Hcomp g) as Hg'. unfold component_of in Hg'. rewrite Hg in Hg'.
    destruct (nodeHeap s' !! g) as [gobj'|] eqn:Hgobj'; [|done].
    injection Hg' as Hg'.
    erewrite bind_eq; [by apply IH|].
    erewrite bind_eq; [|by apply node_at_Some].
    rewrite Hg'. rewrite (canReach_Some cI _ s' cobj) by (by rewrite Hcc).
    by rewrite Hcc.
Qed.

Lemma pathExists_transfer s s' b :
  ccHeap s' = ccHeap s ->
  initNode_ (roadmap s') = initNode_ (roadmap s) ->
  goalNodes_ (roadmap s') = goalNodes_ (roadmap s) ->
  (∀ n, component_of s' n = component_of s n) ->
  pathExists s = Some (b, s) -> pathExists s' = Some (b, s').
Proof.
  intros Hcc Hinit Hgoal Hcomp. unfold pathExists. rewrite !bind_get. cbv beta.
  rewrite Hinit, Hgoal. destruct (initNode_ (roadmap s)) as [init|]; [|done].
  cbn [nonnull]. rewrite !bind_ret. cbv beta. intros Hrun.
  apply bind_Some in Hrun as (iobj & t & Hi & Hrun).
  apply node_at_inv in Hi as [Hi ->].
  pose proof (Hcomp init) as Hi'. unfold component_of in Hi'. rewrite Hi in Hi'.
  destruct (nodeHeap s' !! init) as [iobj'|] eqn:Hiobj'; [|done].
  injection Hi' as Hi'.
  erewrite bind_eq; [|by apply node_at_Some]. rewrite Hi'.
  by apply (pathExists_loop_transfer s s') in Hrun as [_ Hrun].
Qed.

(** Property X8.
    [addEdges] between two nodes that exist returns and appends two
    new edges, the path and its reverse, registered in the two nodes.
    It never connects: the components of the roadmap, their
    reachability sets and the component of every node are as before,
    and [pathExists] answers as it did. *)
Theorem addEdges_never_connects from to (path : Path) s :
  is_Some (nodeHeap s !! from) -> is_Some (nodeHeap s !! to) ->
  ∃ s' e1 e2,
    addEdges from to path s = Some (tt, s')
    ∧ edgeHeap s !! e1 = None ∧ edgeHeap s !! e2 = None ∧ e1 ≠ e2
    ∧ edgeHeap s'
      = <[e2 := mkEdge to from (reverse path)]>
          (<[e1 := mkEdge from to path]> (edgeHeap s))
    ∧ edges_ (roadmap s') = edges_ (roadmap s) ++ [e1; e2]
    ∧ (from ≠ to ->
       nodeHeap s' !! from
       = (λ o, Node.addInEdge e2 (Node.addOutEdge e1 o)) <$> nodeHeap s !! from
       ∧ nodeHeap s' !! to
         = (λ o, Node.addOutEdge e2 (Node.addInEdge e1 o)) <$> nodeHeap s !! to)
    ∧ nodes_ (roadmap s') = nodes_ (roadmap s)
    ∧ connectedComponents_ (roadmap s') = connectedComponents_ (roadmap s)
    ∧ ccHeap s' = ccHeap s
    ∧ (∀ n, component_of s' n = component_of s n)
    ∧ (∀ b, pathExists s = Some (b, s) -> pathExists s' = Some (b, s')).
Proof.
  intros Hfrom Hto.
  destruct (addEdges_run from to path s Hfrom Hto)
    as (s' & e1 & e2 & Hrun & He1 & He2 & Hne & Heh & Hedges & Hinit & Hgoal
        & Hsame & Hlists & Hother).
  pose proof Hsame as (Hcch & Hccs & Hnodes & _ & _ & Hobjs).
  assert (Hcomp : ∀ n, component_of s' n = component_of s n).
  { intros n. unfold component_of.
    destruct (nodeHeap s !! n) as [obj|] eqn:Hobj.
    - destruct (Hobjs n obj Hobj) as (obj' & -> & Hc & _). cbn. by rewrite Hc.
    - rewrite Hother, Hobj; [done| |]; intros ->.
      + destruct Hfrom as [? Hfrom]. congruence.
      + destruct Hto as [? Hto]. congruence. }
  exists s', e1, e2. repeat (split; [done|]).
  intros b. by apply pathExists_transfer.
Qed.

(** Property X11.
    [addNodeAndEdges] from a node of the roadmap returns a node of the
    component of [from] with the configuration asked for, joined to
    [from] by two new edges, the path and its reverse, last of the
    edges of the roadmap.  The components of the roadmap and their
    reachability sets are as before. *)
Theorem addNodeAndEdges_extends_component from q (path : Path) s :
  wf s -> from ∈ nodes_ (roadmap s) ->
  ∃ n s' e1 e2 cc obj,
    addNodeAndEdges from q path s = Some (n, s')
    ∧ component_of s from = Some cc
    ∧ component_of s' from = Some cc
    ∧ n ∈ nodes_ (roadmap s')
    ∧ nodeHeap s' !! n = Some obj
    ∧ Node.connectedComponent_ obj = cc
    ∧ config_eqb (Node.configuration_ obj) q = true
    ∧ (nodes_ (roadmap s') = nodes_ (roadmap s)
       ∨ (n ∉ nodes_ (roadmap s))
         ∧ nodes_ (roadmap s') = nodes_ (roadmap s) ++ [n])
    ∧ connectedComponents_ (roadmap s') = connectedComponents_ (roadmap s)
    ∧ (∀ c, reachableTo s' c = reachableTo s c)
    ∧ edgeHeap s !! e1 = None ∧ edgeHeap s !! e2 = None ∧ e1 ≠ e2
    ∧ edgeHeap s'
      = <[e2 := mkEdge n from (reverse path)]>
          (<[e1 := mkEdge from n path]> (edgeHeap s))
    ∧ edges_ (roadmap s') = edges_ (roadmap s) ++ [e1; e2]
    ∧ wf s'.
Proof.
  intros Hwf Hfrom.
  destruct (wf_node s Hwf from Hfrom) as (fobj & _ & Hfobj & Hin & _).
  set (cc := Node.connectedComponent_ fobj) in *.
  assert (Hcomp : component_of s from = Some cc).
  { unfold component_of. by rewrite Hfobj. }
  destruct (addNode_in_run q cc s from Hwf Hfrom Hcomp)
    as (cobj & n0 & obj0 & Hcobj & _ & Hn0 & Hobj0 & Hcc0 & _ & Hadd).
  assert (∃ n s1 obj,
            addNode_in q cc s = Some (n, s1)
            ∧ nodeHeap s1 !! n = Some obj
            ∧ Node.connectedComponent_ obj = cc
            ∧ config_eqb (Node.configuration_ obj) q = true
            ∧ n ∈ nodes_ (roadmap s1)
            ∧ (nodes_ (roadmap s1) = nodes_ (roadmap s)
               ∨ (n ∉ nodes_ (roadmap s))
                 ∧ nodes_ (roadmap s1) = nodes_ (roadmap s) ++ [n])
            ∧ connectedComponents_ (roadmap s1) = connectedComponents_ (roadmap s)
            ∧ (∀ c, reachableTo s1 c = reachableTo s c)
            ∧ edgeHeap s1 = edgeHeap s
            ∧ edges_ (roadmap s1) = edges_ (roadmap s)
            ∧ nodeHeap s1 !! from = Some fobj
            ∧ wf s1)
    as (n & s1 & obj & Hrun1 & Hobj & Hcc & Hq & Hn & Hnodes & Hccs & Hreach
        & Heh & Hedges & Hfobj1 & Hwf1).
  { destruct (config_eqb (Node.configuration_ obj0) q) eqn:Heq.
    - exists n0, s, obj0. repeat (split; [done|]). split; [by left|]. done.
    - assert (Hfresh : new_ptr (nodeHeap s) ∉ nodes_ (roadmap s)).
      { intros Hf. destruct (wf_node s Hwf _ Hf) as (obj' & _ & Hobj' & _).
        by rewrite new_ptr_fresh in Hobj'. }
      exists (new_ptr (nodeHeap s)), (added_in s q cc cobj), (Node.create q cc).
      split; [done|]. cbn. split; [by rewrite lookup_insert_eq|].
      split; [done|]. split; [apply config_eqb_refl|]. split; [set_solver|].
      split; [by right|]. split; [done|]. split.
      { intros c. unfold reachableTo. cbn. destruct (decide (c = cc)) as [->|Hc].
        - by rewrite lookup_insert_eq, Hcobj.
        - by rewrite lookup_insert_ne. }
      split; [done|]. split; [done|]. split; [|by apply wf_added_in].
      rewrite lookup_insert_ne; [done|]. intros Heq'. by rewrite <- Heq' in Hfrom. }
  destruct (addEdges_run from n path s1)
    as (s' & e1 & e2 & Hrun2 & He1 & He2 & Hne & Heh' & Hedges' & _ & _
        & Hsame & _); [done..|].
  pose proof (wf_same_nodes s1 s' Hsame Hwf1) as Hwf'.
  pose proof Hsame as (Hcch & Hccs' & Hnodes' & _ & _ & Hobjs).
  destruct (Hobjs n obj Hobj) as (obj' & Hobj' & Hcc' & Hcfg').
  exists n, s', e1, e2, cc, obj'. split.
  { unfold addNodeAndEdges. erewrite bind_eq; [|by apply node_at_Some].
    fold cc. erewrite bind_eq; [|exact Hrun1].
    erewrite bind_eq; [|exact Hrun2]. done. }
  split; [done|]. split.
  { apply (same_nodes_component s1 s'); [done|]. unfold component_of.
    by rewrite Hfobj1. }
  split; [by rewrite Hnodes'|]. split; [done|]. split; [congruence|].
  split; [congruence|]. split; [by rewrite Hnodes'|].
  split; [congruence|]. split.
  { intros c. unfold reachableTo. rewrite Hcch. apply Hreach. }
  rewrite <- Heh. repeat (split; [done|]). split; [by rewrite Hedges', Hedges|].
  done.
Qed.


(** *** Clearing *)

Lemma delete_all_lookup {A} (l : list positive) (h : gmap positive A) k :
  foldr (λ n h', delete n h') h l !! k
  = if bool_decide (k ∈ l) then None else h !! k.
Proof.
  induction l as [|x l IH]; cbn [foldr].
  - by rewrite bool_decide_eq_false_2 by apply not_elem_of_nil.
  - destruct (decide (k = x)) as [->|Hne].
    + rewrite lookup_delete_eq. by rewrite bool_decide_eq_true_2 by set_solver.
    + rewrite lookup_delete_ne by done. rewrite IH.
      rewrite (bool_decide_ext (k ∈ x :: l) (k ∈ l)); [done|set_solver].
Qed.

(** Property X15.
    [clear] always returns and leaves an empty roadmap with the same
    distance: no node, edge, component or goal, no init node, an empty
    tree; the nodes and edges it held are deleted.  On what it leaves
    a second [clear] changes nothing, [nearestNode] finds nothing and
    [pathExists] goes through the null init node. *)
Theorem clear_empties s :
  ∃ s',
    clear s = Some (tt, s')
    ∧ nodes_ (roadmap s') = []
    ∧ edges_ (roadmap s') = []
    ∧ connectedComponents_ (roadmap s') = ∅
    ∧ goalNodes_ (roadmap s') = []
    ∧ initNode_ (roadmap s') = None
    ∧ KDTree.nodes_ (kdTree_ (roadmap s')) = []
    ∧ distance_ (roadmap s') = distance_ (roadmap s)
    ∧ (∀ n, n ∈ nodes_ (roadmap s) -> nodeHeap s' !! n = None)
    ∧ (∀ e, e ∈ edges_ (roadmap s) -> edgeHeap s' !! e = None)
    ∧ clear s' = Some (tt, s')
    ∧ (∀ q, nearestNode q s' = Some ((None, Infinity), s'))
    ∧ pathExists s' = None.
Proof.
  eexists. split; [reflexivity|].
  repeat (split; [done|]). split.
  { intros n Hn. cbn. rewrite delete_all_lookup. by rewrite bool_decide_eq_true_2. }
  split.
  { intros e He. cbn. rewrite delete_all_lookup. by rewrite bool_decide_eq_true_2. }
  split; [done|]. split; [|done].
  intros q. rewrite nearestNode_eq. cbn. by rewrite elements_empty.
Qed.

(** *** The assertion of merge *)

Lemma merge_loop_aborts cc1 (l : list ConnectedComponentPtr_t) s c :
  c ∈ l -> c ≠ cc1 -> c ∉ connectedComponents_ (roadmap s) ->
  for_each l tt
    (λ itcc _,
       if negb (bool_decide (itcc = cc1))
       then bind (cc_merge cc1 itcc)
              (λ _, bind (connectedComponents_erase itcc)
                      (λ nb, assert (nb =? 1)%nat))
       else ret tt) s = None.
Proof.
  intros Hc Hne. revert s. induction l as [|x l IH]; intros s Hout.
  { by apply elem_of_nil in Hc. }
  cbn [for_each].
  match goal with |- ?run = None => destruct run as [[u s']|] eqn:Hrun end;
    [exfalso|done].
  apply bind_Some in Hrun as ([] & s1 & Hbody & Hrun).
  apply merge_body_inv in Hbody as [-> Hx].
  apply elem_of_cons in Hc as [->|Hc].
  { destruct (Hx Hne) as [Hin _]. done. }
  rewrite IH in Hrun; [done..|]. case_bool_decide as Hx1; [done|].
  destruct (Hx Hx1) as [_ [[nodes ccs] Hm]]. unfold absorb. rewrite Hm. cbn.
  set_solver.
Qed.

(** Property X16.
    [Roadmap::merge] on components of the roadmap returns, erases
    them all but [cc1] and moves their nodes to [cc1]; with a
    component that is not in the roadmap among those to merge, the
    assertion on the number of erased components stops the program. *)
Theorem merge_absorbs_or_asserts cc1 (ccs : gset ConnectedComponentPtr_t) s :
  wf s -> cc1 ∈ connectedComponents_ (roadmap s) ->
  (ccs ⊆ connectedComponents_ (roadmap s) ->
   ∃ s', merge cc1 ccs s = Some (tt, s')
         ∧ connectedComponents_ (roadmap s')
           = connectedComponents_ (roadmap s) ∖ (ccs ∖ {[cc1]})
         ∧ (∀ n c, n ∈ nodes_ (roadmap s) -> component_of s n = Some c ->
              c ∈ ccs ∨ c = cc1 -> component_of s' n = Some cc1)
         ∧ nodes_ (roadmap s') = nodes_ (roadmap s)
         ∧ edges_ (roadmap s') = edges_ (roadmap s)
         ∧ wf s')
  ∧ (∀ c, c ∈ ccs -> c ∉ connectedComponents_ (roadmap s) ->
       merge cc1 ccs s = None).
Proof.
  intros Hwf H1. split.
  - intros Hsub.
    destruct (merge_eq cc1 (elements ccs) s Hwf H1) as (Hrun & Hwf' & Hccs).
    { apply NoDup_elements. }
    { intros c Hc%elem_of_elements. by apply Hsub. }
    destruct (absorb_all_nodes cc1 (elements ccs) s Hwf H1) as (_ & Hkeep & Hmove).
    { apply NoDup_elements. }
    { intros c Hc%elem_of_elements. by apply Hsub. }
    rewrite list_to_set_elements_L in Hccs.
    pose proof (same_graph_absorb_all cc1 (elements ccs) s) as (_ & Hroad & _).
    exists (absorb_all cc1 (elements ccs) s). split; [done|]. split; [done|].
    split; [|by rewrite Hroad].
    intros n c Hn Hcomp Hc'.
    destruct (wf_node s Hwf n Hn) as (obj & cobj & Hobj & _ & Hcobj & Hl).
    pose proof Hcomp as Hcomp'. unfold component_of in Hcomp'.
    rewrite Hobj in Hcomp'. injection Hcomp' as Hc. rewrite Hc in Hcobj.
    destruct (decide (c = cc1)) as [->|Hne]; [by apply Hkeep|].
    destruct Hc' as [Hin|]; [|done].
    destruct (Hmove c n) as [_ Hpt]; try done.
    + by apply elem_of_elements.
    + unfold nodes_of. by rewrite Hcobj.
    + apply Hpt. by exists obj.
  - intros c Hc Hout. unfold merge. apply (merge_loop_aborts cc1 _ s c).
    + by apply elem_of_elements.
    + by intros ->.
    + done.
Qed.


(** *** The graph of a roadmap in use *)

Lemma graph_wf_same_graph s s' : same_graph s s' -> graph_wf s -> graph_wf s'.
Proof.
  intros (He & Hr & Hn) [H1 H2 H3 H4 H5 H6 H7].
  assert (Hnodes : nodes_ (roadmap s') = nodes_ (roadmap s)) by by rewrite Hr.
  assert (Hedges : edges_ (roadmap s') = edges_ (roadmap s)) by by rewrite Hr.
  assert (Hinit : initNode_ (roadmap s') = initNode_ (roadmap s)) by by rewrite Hr.
  assert (Hgoal : goalNodes_ (roadmap s') = goalNodes_ (roadmap s)) by by rewrite Hr.
  split; rewrite ?Hnodes, ?Hedges, ?Hinit, ?Hgoal, ?He; try done.
  - intros n obj' e Hin Hobj'. specialize (Hn n). rewrite Hobj' in Hn.
    destruct (nodeHeap s !! n) as [obj|] eqn:Hobj; [|done].
    injection Hn as _ Hout _. rewrite Hout. by apply H6.
  - intros n obj' e Hin Hobj'. specialize (Hn n). rewrite Hobj' in Hn.
    destruct (nodeHeap s !! n) as [obj|] eqn:Hobj; [|done].
    injection Hn as _ _ Hinn. rewrite Hinn. by apply H7.
Qed.

(** A state with one more node, without edge. *)
Lemma graph_wf_new_node s s' q c :
  let n := new_ptr (nodeHeap s) in
  wf s -> graph_wf s ->
  nodes_ (roadmap s') = nodes_ (roadmap s) ++ [n] ->
  edges_ (roadmap s') = edges_ (roadmap s) ->
  initNode_ (roadmap s') = initNode_ (roadmap s) ->
  goalNodes_ (roadmap s') = goalNodes_ (roadmap s) ->
  edgeHeap s' = edgeHeap s ->
  nodeHeap s' = <[n := Node.create q c]> (nodeHeap s) ->
  graph_wf s'.
Proof.
  intros n Hwf [H1 H2 H3 H4 H5 H6 H7] Hnodes Hedges Hinit Hgoal He Hn.
  assert (Hfresh : n ∉ nodes_ (roadmap s)).
  { intros Hf. destruct (wf_node s Hwf _ Hf) as (obj' & _ & Hobj' & _).
    unfold n in Hobj'. by rewrite new_ptr_fresh in Hobj'. }
  clearbody n.
  assert (Hnone : ∀ e x, e ∈ edges_ (roadmap s) ->
                    x <$> edgeHeap s !! e = Some n ->
                    (∀ ed, edgeHeap s !! e = Some ed -> x ed ∈ nodes_ (roadmap s)) ->
                    False).
  { intros e x _ Hx Hin. destruct (edgeHeap s !! e) as [ed|]; [|done].
    injection Hx as Hx. apply Hfresh. rewrite <- Hx. by apply Hin. }
  split; rewrite ?Hnodes, ?Hedges, ?Hinit, ?Hgoal, ?He, ?Hn; try done.
  - apply NoDup_app. split; [done|]. split; [|apply NoDup_singleton].
    intros x Hx Hx'. apply list_elem_of_singleton in Hx' as ->. done.
  - intros m Hm. apply elem_of_app. left. by apply H3.
  - intros g Hg. apply elem_of_app. left. by apply H4.
  - intros e Hin. destruct (H5 e Hin) as (ed & Hed & Hf & Ht). exists ed.
    split; [done|]. split; apply elem_of_app; by left.
  - intros m obj e Hm. apply elem_of_app in Hm as [Hm|Hm].
    + rewrite lookup_insert_ne by (by intros <-). by apply H6.
    + apply list_elem_of_singleton in Hm as ->. rewrite lookup_insert_eq.
      intros [= <-]. cbn. split; [by intros ?%elem_of_nil|].
      intros [Hin Hx]. exfalso. apply (Hnone e from_ Hin Hx).
      intros ed Hed. destruct (H5 e Hin) as (ed' & Hed' & Hf & _). congruence.
  - intros m obj e Hm. apply elem_of_app in Hm as [Hm|Hm].
    + rewrite lookup_insert_ne by (by intros <-). by apply H7.
    + apply list_elem_of_singleton in Hm as ->. rewrite lookup_insert_eq.
      intros [= <-]. cbn. split; [by intros ?%elem_of_nil|].
      intros [Hin Hx]. exfalso. apply (Hnone e to_ Hin Hx).
      intros ed Hed. destruct (H5 e Hin) as (ed' & Hed' & _ & Ht). congruence.
Qed.

(** The edge lists of the nodes after an edge is attached. *)
Lemma attach_edge_lists from to (path : Path) s e s' n :
  attach from to path Node.addOutEdge Node.addInEdge from to s = Some (e, s') ->
  Node.outEdges_ <$> nodeHeap s' !! n
  = (λ o, Node.outEdges_ o ++ if bool_decide (n = from) then [e] else [])
      <$> nodeHeap s !! n
  ∧ Node.inEdges_ <$> nodeHeap s' !! n
    = (λ o, Node.inEdges_ o ++ if bool_decide (n = to) then [e] else [])
        <$> nodeHeap s !! n.
Proof.
  intros Hrun. apply attach_inv in Hrun as (oa & ob & Ha & Hb & _ & ->). cbn.
  destruct (decide (n = to)) as [->|Hto].
  - rewrite lookup_insert_eq. rewrite (bool_decide_eq_true_2 (to = to)) by done.
    destruct (decide (to = from)) as [->|Hft].
    + rewrite lookup_insert_eq in Hb. injection Hb as <-. rewrite Ha. cbn.
      by rewrite bool_decide_eq_true_2.
    + rewrite lookup_insert_ne in Hb by done. rewrite Hb. cbn.
      rewrite bool_decide_eq_false_2 by done. by rewrite app_nil_r.
  - rewrite lookup_insert_ne by done.
    rewrite (bool_decide_eq_false_2 (n = to)) by done.
    destruct (decide (n = from)) as [->|Hfrom].
    + rewrite lookup_insert_eq, Ha. cbn. rewrite bool_decide_eq_true_2 by done.
      by rewrite app_nil_r.
    + rewrite lookup_insert_ne by done. rewrite bool_decide_eq_false_2 by done.
      destruct (nodeHeap s !! n); cbn; [|done]. by rewrite !app_nil_r.
Qed.

Lemma graph_wf_attach from to (path : Path) s e s' :
  graph_wf s -> from ∈ nodes_ (roadmap s) -> to ∈ nodes_ (roadmap s) ->
  attach from to path Node.addOutEdge Node.addInEdge from to s = Some (e, s') ->
  graph_wf s'.
Proof.
  intros [H1 H2 H3 H4 H5 H6 H7] Hfrom Hto Hrun.
  pose proof (λ n, attach_edge_lists from to path s e s' n Hrun) as Hlists.
  apply attach_inv in Hrun as (oa & ob & Ha & Hb & He & Hs').
  assert (Hfresh : e ∉ edges_ (roadmap s)).
  { intros Hin. destruct (H5 e Hin) as (ed & Hed & _).
    by rewrite He, new_ptr_fresh in Hed. }
  assert (Hnodes : nodes_ (roadmap s') = nodes_ (roadmap s)) by by rewrite Hs'.
  assert (Hedges : edges_ (roadmap s') = edges_ (roadmap s) ++ [e]) by by rewrite Hs'.
  assert (Hinit : initNode_ (roadmap s') = initNode_ (roadmap s)) by by rewrite Hs'.
  assert (Hgoal : goalNodes_ (roadmap s') = goalNodes_ (roadmap s)) by by rewrite Hs'.
  assert (Heh : edgeHeap s' = <[e := mkEdge from to path]> (edgeHeap s))
    by by rewrite Hs'.
  assert (Hold : ∀ e', e' ∈ edges_ (roadmap s) ->
                   edgeHeap s' !! e' = edgeHeap s !! e').
  { intros e' Hin. rewrite Heh. apply lookup_insert_ne. by intros <-. }
  clear Hs'.
  split; rewrite ?Hnodes, ?Hedges, ?Hinit, ?Hgoal; try done.
  - apply NoDup_app. split; [done|]. split; [|apply NoDup_singleton].
    intros x Hx Hx'. apply list_elem_of_singleton in Hx' as ->. done.
  - intros e' Hin. apply elem_of_app in Hin as [Hin|Hin].
    + rewrite (Hold e' Hin). by apply H5.
    + apply list_elem_of_singleton in Hin as ->. rewrite Heh, lookup_insert_eq.
      by eexists.
  - intros n obj' e' Hn Hobj'. destruct (Hlists n) as [Hout _].
    rewrite Hobj' in Hout. destruct (nodeHeap s !! n) as [obj|] eqn:Hobj; [|done].
    injection Hout as ->. rewrite !elem_of_app, (H6 n obj e' Hn Hobj).
    split.
    + intros [[Hin Hf]|Hnew].
      * split; [by left|]. by rewrite (Hold e' Hin).
      * case_bool_decide as Hnf; [|by apply elem_of_nil in Hnew].
        apply list_elem_of_singleton in Hnew as ->. split; [set_solver|].
        rewrite Heh, lookup_insert_eq. cbn. by rewrite Hnf.
    + intros [[Hin|Hnew] Hf].
      * left. split; [done|]. by rewrite <- (Hold e' Hin).
      * apply list_elem_of_singleton in Hnew as ->. right.
        rewrite Heh, lookup_insert_eq in Hf. injection Hf as <-.
        rewrite bool_decide_eq_true_2 by done. set_solver.
  - intros n obj' e' Hn Hobj'. destruct (Hlists n) as [_ Hinn].
    rewrite Hobj' in Hinn. destruct (nodeHeap s !! n) as [obj|] eqn:Hobj; [|done].
    injection Hinn as ->. rewrite !elem_of_app, (H7 n obj e' Hn Hobj).
    split.
    + intros [[Hin Hf]|Hnew].
      * split; [by left|]. by rewrite (Hold e' Hin).
      * case_bool_decide as Hnf; [|by apply elem_of_nil in Hnew].
        apply list_elem_of_singleton in Hnew as ->. split; [set_solver|].
        rewrite Heh, lookup_insert_eq. cbn. by rewrite Hnf.
    + intros [[Hin|Hnew] Hf].
      * left. split; [done|]. by rewrite <- (Hold e' Hin).
      * apply list_elem_of_singleton in Hnew as ->. right.
        rewrite Heh, lookup_insert_eq in Hf. injection Hf as <-.
        rewrite bool_decide_eq_true_2 by done. set_solver.
Qed.


Lemma addNode_graph_wf q s n s1 :
  wf s -> graph_wf s -> addNode q s = Some (n, s1) ->
  graph_wf s1 ∧ n ∈ nodes_ (roadmap s1).
Proof.
  intros Hwf Hg. rewrite addNode_eq by done.
  assert (Hadded : graph_wf (added s q)
                   ∧ new_ptr (nodeHeap s) ∈ nodes_ (roadmap (added s q))).
  { split; [by eapply (graph_wf_new_node s)|]. cbn. set_solver. }
  destruct (nodes_ (roadmap s)) as [|n0 l] eqn:Hnodes; [by intros [= <- <-]|].
  destruct (nearestNode_found q s Hwf) as (m & obj & Hnear & Hm & Hobj & _);
    [by rewrite Hnodes|].
  rewrite nearestNode_eq in Hnear. injection Hnear as Hnear.
  rewrite Hnear. cbn [fst]. rewrite Hobj.
  destruct (config_eqb _ _); intros [= <- <-]; [|done].
  done.
Qed.

Lemma addNode_in_graph_wf q cc s n s1 :
  wf s -> graph_wf s -> cc ∈ connectedComponents_ (roadmap s) ->
  addNode_in q cc s = Some (n, s1) ->
  graph_wf s1 ∧ n ∈ nodes_ (roadmap s1)
  ∧ ∀ m, m ∈ nodes_ (roadmap s) -> m ∈ nodes_ (roadmap s1).
Proof.
  intros Hwf Hg Hcc. destruct (wf_cc s Hwf cc Hcc) as (cobj & Hcobj & _).
  rewrite (addNode_in_eq q cc s cobj Hcobj).
  assert (Hadded : graph_wf (added_in s q cc cobj)
                   ∧ new_ptr (nodeHeap s) ∈ nodes_ (roadmap (added_in s q cc cobj))
                   ∧ ∀ m, m ∈ nodes_ (roadmap s) ->
                       m ∈ nodes_ (roadmap (added_in s q cc cobj))).
  { split; [by eapply (graph_wf_new_node s)|]. cbn. set_solver. }
  destruct (nodes_ (roadmap s)) as [|n0 l] eqn:Hnodes; [by intros [= <- <-]|].
  destruct (length _ =? 0)%nat; [done|].
  destruct (scan_from_scratch (nodeHeap s) (KDTree.distance_ (kdTree_ (roadmap s)))
              q (KDTree.in_component cc) (KDTree.nodes_ (kdTree_ (roadmap s))))
    as [Hcand _]. cbv zeta in Hcand. fold (KDTree.search (nodeHeap s)
      (kdTree_ (roadmap s)) q cc) in Hcand.
  destruct Hcand as [-> | (m & obj & -> & Hm & Hobj & _)]; [done|].
  cbn [fst]. rewrite Hobj.
  destruct (config_eqb _ _); intros [= <- <-]; [|done].
  split; [done|]. split; [|by rewrite Hnodes]. by rewrite <- (wf_kd_nodes s Hwf).
Qed.

Lemma addEdges_graph_wf from to (path : Path) s u s' :
  graph_wf s -> from ∈ nodes_ (roadmap s) -> to ∈ nodes_ (roadmap s) ->
  addEdges from to path s = Some (u, s') -> graph_wf s'.
Proof.
  intros Hg Hfrom Hto. rewrite addEdges_attach. intros Hrun.
  apply bind_Some in Hrun as (e1 & s1 & H1 & Hrun).
  apply bind_Some in Hrun as (e2 & s2 & H2 & Hrun). injection Hrun as _ <-.
  rewrite (attach_swap to from (reverse path) Node.addInEdge Node.addOutEdge
             from to s1) in H2 by done.
  pose proof (attach_same _ _ _ _ _ _ _ _ _ _ addOutEdge_keeps addInEdge_keeps H1)
    as (_ & _ & Hnodes & _).
  apply (graph_wf_attach to from (reverse path) s1 e2 _);
    [|by rewrite Hnodes|by rewrite Hnodes|exact H2].
  exact (graph_wf_attach from to path s e1 s1 Hg Hfrom Hto H1).
Qed.

Lemma addEdge_graph_wf n1 n2 (path : Path) s e s' :
  graph_wf s -> n1 ∈ nodes_ (roadmap s) -> n2 ∈ nodes_ (roadmap s) ->
  addEdge n1 n2 path s = Some (e, s') -> graph_wf s'.
Proof.
  intros Hg Hn1 Hn2. unfold addEdge. rewrite attach_bind. intros Hrun.
  apply bind_Some in Hrun as (e1 & s1 & Hatt & Hrun).
  apply bind_Some in Hrun as (o1 & t1 & Ho1 & Hrun).
  apply node_at_inv in Ho1 as [_ ->].
  apply bind_Some in Hrun as (o2 & t2 & Ho2 & Hrun).
  apply node_at_inv in Ho2 as [_ ->].
  apply bind_Some in Hrun as (u & t3 & Hconn & Hrun). injection Hrun as _ <-.
  eapply graph_wf_same_graph; [by eapply connect_same_graph|].
  exact (graph_wf_attach n1 n2 path s e1 s1 Hg Hn1 Hn2 Hatt).
Qed.

Lemma addNodeAndEdges_graph_wf from q (path : Path) s n s' :
  wf s -> graph_wf s -> from ∈ nodes_ (roadmap s) ->
  addNodeAndEdges from q path s = Some (n, s') -> graph_wf s'.
Proof.
  intros Hwf Hg Hfrom. unfold addNodeAndEdges. intros Hrun.
  apply bind_Some in Hrun as (obj & t1 & Hobj & Hrun).
  apply node_at_inv in Hobj as [Hobj ->].
  apply bind_Some in Hrun as (nodeTo & s1 & Hadd & Hrun).
  apply bind_Some in Hrun as (u & s2 & Hedges & Hrun). injection Hrun as _ <-.
  assert (Hcc : Node.connectedComponent_ obj ∈ connectedComponents_ (roadmap s)).
  { destruct (wf_node s Hwf from Hfrom) as (obj' & _ & Hobj' & Hc & _).
    rewrite Hobj in Hobj'. by injection Hobj' as <-. }
  pose proof (addNode_in_graph_wf _ _ _ _ _ Hwf Hg Hcc Hadd) as (Hg1 & Hto & Hmono).
  exact (addEdges_graph_wf from nodeTo path s1 u s2 Hg1 (Hmono from Hfrom) Hto
           Hedges).
Qed.

Lemma addGoalNode_graph_wf q s u s' :
  wf s -> graph_wf s -> addGoalNode q s = Some (u, s') -> graph_wf s'.
Proof.
  intros Hwf Hg. unfold addGoalNode. intros Hrun.
  apply bind_Some in Hrun as (n & s1 & Hadd & Hrun). injection Hrun as _ <-.
  destruct (addNode_graph_wf q s n s1 Hwf Hg Hadd) as [[H1 H2 H3 H4 H5 H6 H7] Hn].
  split; try done. cbn. intros g Hgoal. apply elem_of_app in Hgoal as [Hgoal|Hgoal].
  - by apply H4.
  - by apply list_elem_of_singleton in Hgoal as ->.
Qed.

Lemma initNode_graph_wf n s u s' :
  graph_wf s -> n ∈ nodes_ (roadmap s) -> initNode n s = Some (u, s') ->
  graph_wf s'.
Proof.
  intros [H1 H2 H3 H4 H5 H6 H7] Hn [= _ <-]. split; try done.
  cbn. by intros m [= <-].
Qed.

Lemma create_graph_wf distance : graph_wf (create (Path:=Path) distance).
Proof.
  split; cbn; try apply NoDup_nil_2; try done;
    intros; by match goal with H : _ ∈ [] |- _ => apply elem_of_nil in H end.
Qed.

Lemma clear_graph_wf s u s' : clear s = Some (u, s') -> graph_wf s'.
Proof.
  intros [= _ <-].
  split; cbn; try apply NoDup_nil_2; try done;
    intros; by match goal with H : _ ∈ [] |- _ => apply elem_of_nil in H end.
Qed.

Lemma reachable_graph s : reachable s -> graph_wf s.
Proof.
  intros Hreach.
  induction Hreach as
    [ distance
    | s s' Hr IH Hrun
    | s q n s' Hr IH Hrun
    | s q cc n s' Hr IH Hcc Hrun
    | s n1 n2 path e s' Hr IH Hn1 Hn2 Hrun
    | s from to path s' Hr IH Hfrom Hto Hrun
    | s from to path n s' Hr IH Hfrom Hrun
    | s q s' Hr IH Hrun
    | s n s' Hr IH Hn Hrun ].
  - apply create_graph_wf.
  - exact (clear_graph_wf s tt s' Hrun).
  - exact (proj1 (addNode_graph_wf q s n s' (reachable_wf s Hr) IH Hrun)).
  - exact (proj1 (addNode_in_graph_wf q cc s n s' (reachable_wf s Hr) IH Hcc
                    Hrun)).
  - exact (addEdge_graph_wf n1 n2 path s e s' IH Hn1 Hn2 Hrun).
  - exact (addEdges_graph_wf from to path s tt s' IH Hfrom Hto Hrun).
  - exact (addNodeAndEdges_graph_wf from to path s n s' (reachable_wf s Hr) IH
             Hfrom Hrun).
  - exact (addGoalNode_graph_wf q s tt s' (reachable_wf s Hr) IH Hrun).
  - exact (initNode_graph_wf n s tt s' IH Hn Hrun).
Qed.


(** Property X17.
    Every state a client can reach has a well-formed graph: no node
    or edge is listed twice, the init node and the goal nodes are
    nodes of the roadmap, every edge joins nodes of the roadmap, and
    the edge lists of the nodes are the edges that leave and reach
    them.  So every edge of the roadmap is an outgoing edge of the
    node it leaves and an incoming edge of the node it reaches. *)
Theorem reachable_graph_wf s :
  reachable s ->
  graph_wf s
  ∧ ∀ e, e ∈ edges_ (roadmap s) ->
      ∃ ed fobj tobj,
        edgeHeap s !! e = Some ed
        ∧ nodeHeap s !! from_ ed = Some fobj ∧ e ∈ Node.outEdges_ fobj
        ∧ nodeHeap s !! to_ ed = Some tobj ∧ e ∈ Node.inEdges_ tobj.
Proof.
  intros Hreach. pose proof (reachable_wf s Hreach) as Hwf.
  pose proof (reachable_graph s Hreach) as Hg. split; [done|].
  intros e He. destruct (gw_edge s Hg e He) as (ed & Hed & Hf & Ht).
  destruct (wf_node s Hwf _ Hf) as (fobj & _ & Hfobj & _).
  destruct (wf_node s Hwf _ Ht) as (tobj & _ & Htobj & _).
  exists ed, fobj, tobj. split; [done|]. split; [done|]. split.
  { apply (gw_out s Hg (from_ ed) fobj e Hf Hfobj). by rewrite Hed. }
  split; [done|].
  apply (gw_in s Hg (to_ ed) tobj e Ht Htobj). by rewrite Hed.
Qed.

(** *** The components of a roadmap in use *)

Lemma components_wf_same_nodes s s' :
  same_nodes s s' -> components_wf s -> components_wf s'.
Proof.
  intros Hsame [H1 H2 H3 H4 H5].
  pose proof Hsame as (Hcch & Hccs & Hnodes & _).
  assert (Hof : ∀ c, nodes_of s' c = nodes_of s c)
    by (intros c; unfold nodes_of; by rewrite Hcch).
  assert (Hto : ∀ c, reachableTo s' c = reachableTo s c)
    by (intros c; unfold reachableTo; by rewrite Hcch).
  assert (Hfrom : ∀ c, reachableFrom s' c = reachableFrom s c)
    by (intros c; unfold reachableFrom; by rewrite Hcch).
  split; rewrite ?Hccs; intros c.
  - rewrite Hof. apply H1.
  - intros n Hc Hn. rewrite Hof in Hn. destruct (H2 c n Hc Hn) as [Hin Hcomp].
    split; [by rewrite Hnodes|]. by apply (same_nodes_component s s').
  - rewrite Hof. apply H3.
  - intros c2. rewrite Hto, Hfrom. apply H4.
  - rewrite Hto, Hfrom. apply H5.
Qed.

Lemma components_wf_new_component s q :
  wf s -> components_wf s -> components_wf (added s q).
Proof.
  intros Hwf [H1 H2 H3 H4 H5].
  set (c0 := new_ptr (ccHeap s)). set (n0 := new_ptr (nodeHeap s)).
  assert (Hc0 : c0 ∉ connectedComponents_ (roadmap s)).
  { intros Hin. destruct (wf_cc s Hwf _ Hin) as (cobj & Hcobj & _).
    unfold c0 in Hcobj. by rewrite new_ptr_fresh in Hcobj. }
  assert (Hn0 : n0 ∉ nodes_ (roadmap s)).
  { intros Hin. destruct (wf_node s Hwf _ Hin) as (obj & _ & Hobj & _).
    unfold n0 in Hobj. by rewrite new_ptr_fresh in Hobj. }
  assert (Hof0 : nodes_of (added s q) c0 = [n0]).
  { unfold nodes_of. cbn. by rewrite lookup_insert_eq. }
  assert (Hof : ∀ c, c ≠ c0 -> nodes_of (added s q) c = nodes_of s c).
  { intros c Hc. unfold nodes_of. cbn. by rewrite !lookup_insert_ne. }
  assert (Hto0 : reachableTo (added s q) c0 = ∅).
  { unfold reachableTo. cbn. by rewrite lookup_insert_eq. }
  assert (Hfrom0 : reachableFrom (added s q) c0 = ∅).
  { unfold reachableFrom. cbn. by rewrite lookup_insert_eq. }
  assert (Hto : ∀ c, c ≠ c0 -> reachableTo (added s q) c = reachableTo s c).
  { intros c Hc. unfold reachableTo. cbn. by rewrite !lookup_insert_ne. }
  assert (Hfrom : ∀ c, c ≠ c0 -> reachableFrom (added s q) c = reachableFrom s c).
  { intros c Hc. unfold reachableFrom. cbn. by rewrite !lookup_insert_ne. }
  assert (Hin0 : ∀ c, c ∈ connectedComponents_ (roadmap s) ->
                   (c0 ∉ reachableTo s c) ∧ (c0 ∉ reachableFrom s c)).
  { intros c Hc. destruct (wf_cc s Hwf c Hc) as (cobj & Hcobj & Hsub & Hsub').
    unfold reachableTo, reachableFrom. rewrite Hcobj. set_solver. }
  assert (Hcases : ∀ c, c ∈ connectedComponents_ (roadmap (added s q)) ->
                     c = c0 ∨ c ≠ c0 ∧ c ∈ connectedComponents_ (roadmap s)).
  { intros c Hc. cbn in Hc. destruct (decide (c = c0)); set_solver. }
  split.
  - intros c [->|[Hne Hc]]%Hcases; [by rewrite Hof0|].
    rewrite Hof by done. by apply H1.
  - intros c n [->|[Hne Hc]]%Hcases.
    + rewrite Hof0. intros ->%list_elem_of_singleton. cbn. split; [set_solver|].
      unfold component_of. cbn. by rewrite lookup_insert_eq.
    + rewrite Hof by done. intros Hn. destruct (H2 c n Hc Hn) as [Hin Hcomp].
      cbn. split; [set_solver|]. unfold component_of. cbn.
      rewrite lookup_insert_ne; [done|]. by intros <-.
  - intros c [->|[Hne Hc]]%Hcases; [rewrite Hof0; apply NoDup_singleton|].
    rewrite Hof by done. by apply H3.
  - intros c1 c2 [->|[Hne1 Hc1]]%Hcases [->|[Hne2 Hc2]]%Hcases.
    + by rewrite Hto0, Hfrom0.
    + rewrite Hto0, Hfrom by done. destruct (Hin0 c2 Hc2). set_solver.
    + rewrite Hfrom0, Hto by done. destruct (Hin0 c1 Hc1). set_solver.
    + rewrite Hto, Hfrom by done. by apply H4.
  - intros c [->|[Hne Hc]]%Hcases; [rewrite Hto0, Hfrom0; set_solver|].
    rewrite Hto, Hfrom by done. by apply H5.
Qed.

Lemma components_wf_new_member s q cc cobj :
  wf s -> components_wf s -> cc ∈ connectedComponents_ (roadmap s) ->
  ccHeap s !! cc = Some cobj -> components_wf (added_in s q cc cobj).
Proof.
  intros Hwf [H1 H2 H3 H4 H5] Hcc Hcobj.
  set (n0 := new_ptr (nodeHeap s)).
  assert (Hn0 : n0 ∉ nodes_ (roadmap s)).
  { intros Hin. destruct (wf_node s Hwf _ Hin) as (obj & _ & Hobj & _).
    unfold n0 in Hobj. by rewrite new_ptr_fresh in Hobj. }
  assert (Hof0 : nodes_of (added_in s q cc cobj) cc = nodes_of s cc ++ [n0]).
  { unfold nodes_of. cbn. by rewrite lookup_insert_eq, Hcobj. }
  assert (Hof : ∀ c, c ≠ cc -> nodes_of (added_in s q cc cobj) c = nodes_of s c).
  { intros c Hc. unfold nodes_of. cbn. by rewrite !lookup_insert_ne. }
  assert (Hto : ∀ c, reachableTo (added_in s q cc cobj) c = reachableTo s c).
  { intros c. unfold reachableTo. cbn. destruct (decide (c = cc)) as [->|Hc].
    - by rewrite lookup_insert_eq, Hcobj.
    - by rewrite lookup_insert_ne. }
  assert (Hfrom : ∀ c, reachableFrom (added_in s q cc cobj) c = reachableFrom s c).
  { intros c. unfold reachableFrom. cbn. destruct (decide (c = cc)) as [->|Hc].
    - by rewrite lookup_insert_eq, Hcobj.
    - by rewrite lookup_insert_ne. }
  assert (Hold : ∀ n c, n ∈ nodes_ (roadmap s) -> component_of s n = Some c ->
                   component_of (added_in s q cc cobj) n = Some c).
  { intros n c Hn Hc. unfold component_of. cbn.
    rewrite lookup_insert_ne; [done|]. by intros <-. }
  split; cbn [connectedComponents_ roadmap added_in].
  - intros c Hc. destruct (decide (c = cc)) as [->|Hne].
    + rewrite Hof0. by destruct (nodes_of s cc).
    + rewrite Hof by done. by apply H1.
  - intros c n Hc. destruct (decide (c = cc)) as [->|Hne].
    + rewrite Hof0. intros [Hn|Hn]%elem_of_app.
      * destruct (H2 cc n Hc Hn) as [Hin Hcomp]. split; [set_solver|].
        by apply Hold.
      * apply list_elem_of_singleton in Hn as ->.
        split; [set_solver|]. unfold component_of. cbn.
        by rewrite lookup_insert_eq.
    + rewrite Hof by done. intros Hn. destruct (H2 c n Hc Hn) as [Hin Hcomp].
      split; [set_solver|]. by apply Hold.
  - intros c Hc. destruct (decide (c = cc)) as [->|Hne].
    + rewrite Hof0. apply NoDup_app. split; [by apply H3|].
      split; [|apply NoDup_singleton].
      intros n Hn ->%list_elem_of_singleton. by destruct (H2 cc n0 Hc Hn).
    + rewrite Hof by done. by apply H3.
  - intros c1 c2. rewrite Hto, Hfrom. apply H4.
  - intros c. rewrite Hto, Hfrom. apply H5.
Qed.

Lemma absorb_reachable cc1 c s o1 oc :
  c ≠ cc1 -> ccHeap s !! cc1 = Some o1 -> ccHeap s !! c = Some oc ->
  reachableTo (absorb cc1 s c) cc1
  = (reachableTo s cc1 ∪ reachableTo s c) ∖ {[cc1; c]}
  ∧ reachableFrom (absorb cc1 s c) cc1
    = (reachableFrom s cc1 ∪ reachableFrom s c) ∖ {[cc1; c]}
  ∧ (∀ x, x ≠ cc1 -> x ≠ c ->
       reachableTo (absorb cc1 s c) x
       = ConnectedComponent.replace_cc c cc1 (reachableTo s x)
       ∧ reachableFrom (absorb cc1 s c) x
         = ConnectedComponent.replace_cc c cc1 (reachableFrom s x)).
Proof.
  intros Hne Ho1 Hoc.
  unfold reachableTo, reachableFrom, absorb, ConnectedComponent.merge.
  rewrite Ho1, Hoc. cbn. rewrite lookup_insert_eq. split; [done|]. split; [done|].
  intros x Hx1 Hxc. rewrite lookup_insert_ne by done.
  rewrite lookup_insert_ne by done. rewrite lookup_fmap.
  destruct (ccHeap s !! x); cbn; [done|].
  unfold ConnectedComponent.replace_cc. by rewrite !decide_False by set_solver.
Qed.

Lemma elem_of_replace_cc old new (X : gset ConnectedComponentPtr_t) y :
  y ∈ ConnectedComponent.replace_cc old new X
  <-> (y = new ∧ old ∈ X) ∨ (y ≠ old ∧ y ∈ X).
Proof.
  unfold ConnectedComponent.replace_cc. case_decide as Hd.
  - rewrite elem_of_union, elem_of_singleton, elem_of_difference, elem_of_singleton.
    naive_solver.
  - split; [|naive_solver]. intros Hy. right. split; [|done]. by intros ->.
Qed.

Lemma components_wf_absorb cc1 c s :
  wf s -> components_wf s -> cc1 ∈ connectedComponents_ (roadmap s) ->
  c ∈ connectedComponents_ (roadmap s) -> c ≠ cc1 ->
  components_wf (absorb cc1 s c).
Proof.
  intros Hwf [H1 H2 H3 H4 H5] Hcc1 Hc Hne.
  destruct (wf_cc s Hwf cc1 Hcc1) as (o1 & Ho1 & _).
  destruct (wf_cc s Hwf c Hc) as (oc & Hoc & _).
  pose proof (absorb_components cc1 c s (mk_is_Some _ _ Ho1) (mk_is_Some _ _ Hoc))
    as Hccs.
  destruct (absorb_nodes_of cc1 c s o1 oc Hne Ho1 Hoc) as (Hof1 & Hof & Hcomp).
  destruct (absorb_reachable cc1 c s o1 oc Hne Ho1 Hoc) as (Hto1 & Hfrom1 & Hreach).
  pose proof (same_graph_absorb cc1 c s) as (_ & Hroad & _).
  assert (Hnodes : nodes_ (roadmap (absorb cc1 s c)) = nodes_ (roadmap s))
    by by rewrite Hroad.
  assert (Hdisj : ∀ n x, x ∈ connectedComponents_ (roadmap s) -> x ≠ c ->
                    n ∈ nodes_of s x -> n ∉ nodes_of s c).
  { intros n x Hx Hxc Hn Hn'. destruct (H2 x n Hx Hn) as [_ Hcx].
    destruct (H2 c n Hc Hn') as [_ Hcc]. congruence. }
  split; rewrite ?Hccs.
  - intros x [Hx Hxc]%elem_of_difference.
    destruct (decide (x = cc1)) as [->|Hx1].
    + rewrite Hof1. specialize (H1 cc1 Hcc1). by destruct (nodes_of s cc1).
    + rewrite Hof by set_solver. by apply H1.
  - intros x n [Hx Hxc]%elem_of_difference. rewrite Hnodes, Hcomp.
    destruct (decide (x = cc1)) as [->|Hx1].
    + rewrite Hof1. intros [Hn|Hn]%elem_of_app.
      * destruct (H2 cc1 n Hcc1 Hn) as [Hin Hc1]. split; [done|].
        by rewrite bool_decide_eq_false_2 by by apply (Hdisj n cc1).
      * destruct (H2 c n Hc Hn) as [Hin Hcn]. split; [done|].
        rewrite bool_decide_eq_true_2 by done. unfold component_of in Hcn.
        by destruct (nodeHeap s !! n).
    + rewrite Hof by set_solver. intros Hn.
      destruct (H2 x n Hx Hn) as [Hin Hcx]. split; [done|].
      rewrite bool_decide_eq_false_2; [done|]. apply (Hdisj n x); set_solver.
  - intros x [Hx Hxc]%elem_of_difference.
    destruct (decide (x = cc1)) as [->|Hx1].
    + rewrite Hof1. apply NoDup_app. split; [by apply H3|]. split; [|by apply H3].
      intros n Hn. by apply (Hdisj n cc1).
    + rewrite Hof by set_solver. by apply H3.
  - intros x1 x2 [Hx1 Hx1c]%elem_of_difference [Hx2 Hx2c]%elem_of_difference.
    assert (Hc1 : x1 ≠ c) by (intros ->; apply Hx1c; by apply elem_of_singleton).
    assert (Hc2 : x2 ≠ c) by (intros ->; apply Hx2c; by apply elem_of_singleton).
    pose proof (H4 x1 x2 Hx1 Hx2) as Ha. pose proof (H4 x1 c Hx1 Hc) as Hb.
    pose proof (H4 c x2 Hc Hx2) as Hd. pose proof (H4 x1 cc1 Hx1 Hcc1) as He.
    pose proof (H4 cc1 x2 Hcc1 Hx2) as Hf.
    destruct (decide (x1 = cc1)) as [->|Hn1], (decide (x2 = cc1)) as [->|Hn2].
    + rewrite Hto1, Hfrom1.
      rewrite !elem_of_difference, !elem_of_union, !elem_of_singleton.
      clear. naive_solver.
    + rewrite Hto1. destruct (Hreach x2) as [_ ->]; [done..|].
      rewrite elem_of_replace_cc, !elem_of_difference, !elem_of_union,
        !elem_of_singleton.
      clear -Hd Hf Hn2 Hc2 Hne. naive_solver.
    + rewrite Hfrom1. destruct (Hreach x1) as [-> _]; [done..|].
      rewrite elem_of_replace_cc, !elem_of_difference, !elem_of_union,
        !elem_of_singleton.
      clear -Hb He Hn1 Hc1 Hne. naive_solver.
    + destruct (Hreach x1) as [-> _]; [done..|].
      destruct (Hreach x2) as [_ ->]; [done..|].
      rewrite !elem_of_replace_cc.
      clear -Ha Hb Hd He Hf Hn1 Hn2 Hc1 Hc2 Hne. naive_solver.
  - intros x [Hx Hxc]%elem_of_difference.
    assert (Hxc' : x ≠ c) by (intros ->; apply Hxc; by apply elem_of_singleton).
    destruct (H5 x Hx) as [Hi1 Hi2].
    destruct (decide (x = cc1)) as [->|Hx1].
    + rewrite Hto1, Hfrom1.
      rewrite !elem_of_difference, !elem_of_union, !elem_of_singleton.
      clear. naive_solver.
    + destruct (Hreach x) as [-> ->]; [done..|].
      rewrite !elem_of_replace_cc. clear -Hi1 Hi2 Hx1 Hxc'. naive_solver.
Qed.

Lemma components_wf_absorb_all cc1 (ccs : list ConnectedComponentPtr_t) s :
  wf s -> components_wf s -> cc1 ∈ connectedComponents_ (roadmap s) ->
  NoDup ccs -> (∀ c, c ∈ ccs -> c ∈ connectedComponents_ (roadmap s)) ->
  components_wf (absorb_all cc1 ccs s).
Proof.
  intros Hwf Hcw H1 Hnd Hall. revert s Hwf Hcw H1 Hall.
  induction Hnd as [|c l Hc Hnd IH]; intros s Hwf Hcw H1 Hall; [done|].
  change (absorb_all cc1 (c :: l) s)
    with (absorb_all cc1 l (if bool_decide (c = cc1) then s else absorb cc1 s c)).
  case_bool_decide as Hcc.
  - apply IH; try done. intros c' Hc'. apply Hall. set_solver.
  - assert (c ∈ connectedComponents_ (roadmap s)) as Hcin by (apply Hall; set_solver).
    destruct (wf_cc s Hwf cc1 H1) as (o1 & Ho1 & _).
    destruct (wf_cc s Hwf c Hcin) as (oc & Hoc & _).
    pose proof (absorb_components cc1 c s (mk_is_Some _ _ Ho1) (mk_is_Some _ _ Hoc))
      as Hcs.
    apply IH.
    + by apply wf_absorb.
    + by apply components_wf_absorb.
    + rewrite Hcs. set_solver.
    + intros c' Hc'. rewrite Hcs. apply elem_of_difference. split.
      * apply Hall. set_solver.
      * intros ->%elem_of_singleton. done.
Qed.

Lemma components_wf_connect cc1 cc2 s u s' :
  wf s -> components_wf s ->
  cc1 ∈ connectedComponents_ (roadmap s) ->
  cc2 ∈ connectedComponents_ (roadmap s) ->
  connect cc1 cc2 s = Some (u, s') -> components_wf s'.
Proof.
  intros Hwf Hcw H1 H2.
  destruct (wf_cc s Hwf cc1 H1) as (o1 & Ho1 & _).
  destruct (wf_cc s Hwf cc2 H2) as (o2 & Ho2 & _).
  rewrite (connect_eq cc1 cc2 s o1 o2 Ho1 Ho2).
  destruct (ConnectedComponent.canReach (ccHeap s) cc1 o1 cc2) eqn:H12; [by intros [= _ <-]|].
  assert (cc1 ≠ cc2) as Hne by (intros ->; by rewrite canReach_self in H12).
  destruct (ConnectedComponent.canReach (ccHeap s) cc2 o2 cc1) eqn:H21.
  - intros Hrun. apply merge_loop_inv in Hrun as ->.
    apply components_wf_absorb_all; try done; [apply NoDup_elements|].
    intros c Hc%elem_of_elements.
    by apply (between_subseteq s cc1 cc2 o2 Hwf H2 Ho2).
  - intros [= _ <-]. destruct Hcw as [G1 G2 G3 G4 G5].
    set (s' := with_ccHeap _ s).
    assert (Hof : ∀ c, nodes_of s' c = nodes_of s c).
    { intros c. unfold nodes_of, s'. cbn.
      destruct (decide (c = cc2)) as [->|Hc2]; [by rewrite lookup_insert_eq, Ho2|].
      rewrite lookup_insert_ne by done.
      destruct (decide (c = cc1)) as [->|Hc1]; [by rewrite lookup_insert_eq, Ho1|].
      by rewrite lookup_insert_ne. }
    assert (Hto : ∀ c, reachableTo s' c
                       = if bool_decide (c = cc1) then {[cc2]} ∪ reachableTo s c
                         else reachableTo s c).
    { intros c. unfold reachableTo, s'. cbn. case_bool_decide as Hc1.
      - subst c. rewrite lookup_insert_ne by done.
        by rewrite lookup_insert_eq, Ho1.
      - destruct (decide (c = cc2)) as [->|Hc2]; [by rewrite lookup_insert_eq, Ho2|].
        by rewrite !lookup_insert_ne. }
    assert (Hfrom : ∀ c, reachableFrom s' c
                         = if bool_decide (c = cc2) then {[cc1]} ∪ reachableFrom s c
                           else reachableFrom s c).
    { intros c. unfold reachableFrom, s'. cbn. case_bool_decide as Hc2.
      - subst c. by rewrite lookup_insert_eq, Ho2.
      - rewrite lookup_insert_ne by done.
        destruct (decide (c = cc1)) as [->|Hc1]; [by rewrite lookup_insert_eq, Ho1|].
        by rewrite !lookup_insert_ne. }
    split; cbn [connectedComponents_ roadmap s' with_ccHeap].
    + intros c. rewrite Hof. apply G1.
    + intros c n. rewrite Hof. apply G2.
    + intros c. rewrite Hof. apply G3.
    + intros c1 c2 Hc1 Hc2. rewrite Hto, Hfrom. specialize (G4 c1 c2 Hc1 Hc2).
      repeat case_bool_decide; set_solver.
    + intros c Hc. rewrite Hto, Hfrom. specialize (G5 c Hc).
      repeat case_bool_decide; set_solver.
Qed.

Lemma addNode_in_cases q cc s n s1 :
  wf s -> cc ∈ connectedComponents_ (roadmap s) ->
  addNode_in q cc s = Some (n, s1) ->
  s1 = s ∨ ∃ cobj, ccHeap s !! cc = Some cobj ∧ s1 = added_in s q cc cobj.
Proof.
  intros Hwf Hcc. destruct (wf_cc s Hwf cc Hcc) as (cobj & Hcobj & _).
  rewrite (addNode_in_eq q cc s cobj Hcobj).
  assert (Hright : added_in s q cc cobj = s
                   ∨ ∃ cobj', ccHeap s !! cc = Some cobj'
                              ∧ added_in s q cc cobj = added_in s q cc cobj')
    by (right; by exists cobj).
  destruct (nodes_ (roadmap s)); [by intros [= _ <-]|].
  destruct (length _ =? 0)%nat; [done|].
  destruct (fst _); [|done]. destruct (nodeHeap s !! _); [|done].
  destruct (config_eqb _ _); intros [= _ <-]; [by left|done].
Qed.

Lemma addNode_components_wf q s n s1 :
  wf s -> components_wf s -> addNode q s = Some (n, s1) -> components_wf s1.
Proof.
  intros Hwf Hcw Hrun. destruct (addNode_cases q s n s1 Hwf Hrun) as [->| ->];
    [done | by apply components_wf_new_component].
Qed.

Lemma addNode_in_components_wf q cc s n s1 :
  wf s -> components_wf s -> cc ∈ connectedComponents_ (roadmap s) ->
  addNode_in q cc s = Some (n, s1) -> components_wf s1.
Proof.
  intros Hwf Hcw Hcc Hrun.
  destruct (addNode_in_cases q cc s n s1 Hwf Hcc Hrun) as [->|(cobj & Hcobj & ->)];
    [done | by apply components_wf_new_member].
Qed.

Lemma addEdge_components_wf n1 n2 (path : Path) s e s' :
  wf s -> components_wf s ->
  n1 ∈ nodes_ (roadmap s) -> n2 ∈ nodes_ (roadmap s) ->
  addEdge n1 n2 path s = Some (e, s') -> components_wf s'.
Proof.
  intros Hwf Hcw Hn1 Hn2. unfold addEdge. rewrite attach_bind. intros Hrun.
  apply bind_Some in Hrun as (e1 & s1 & Hatt & Hrun).
  pose proof (attach_same _ _ _ _ _ _ _ _ _ _ addOutEdge_keeps addInEdge_keeps Hatt)
    as Hsame.
  pose proof (wf_same_nodes s s1 Hsame Hwf) as Hwf1.
  pose proof (components_wf_same_nodes s s1 Hsame Hcw) as Hcw1.
  destruct Hsame as (_ & _ & Hnodes & _).
  apply bind_Some in Hrun as (o1 & t1 & Ho1 & Hrun).
  apply node_at_inv in Ho1 as [Ho1 ->].
  apply bind_Some in Hrun as (o2 & t2 & Ho2 & Hrun).
  apply node_at_inv in Ho2 as [Ho2 ->].
  apply bind_Some in Hrun as (u & t3 & Hconn & Hrun). injection Hrun as _ <-.
  destruct (wf_node s1 Hwf1 n1) as (o1' & _ & Ho1' & Hc1 & _); [by rewrite Hnodes|].
  destruct (wf_node s1 Hwf1 n2) as (o2' & _ & Ho2' & Hc2 & _); [by rewrite Hnodes|].
  rewrite Ho1 in Ho1'. injection Ho1' as <-.
  rewrite Ho2 in Ho2'. injection Ho2' as <-.
  exact (components_wf_connect _ _ s1 u t3 Hwf1 Hcw1 Hc1 Hc2 Hconn).
Qed.

Lemma addNodeAndEdges_components_wf from q (path : Path) s n s' :
  wf s -> components_wf s -> from ∈ nodes_ (roadmap s) ->
  addNodeAndEdges from q path s = Some (n, s') -> components_wf s'.
Proof.
  intros Hwf Hcw Hfrom. unfold addNodeAndEdges. intros Hrun.
  apply bind_Some in Hrun as (obj & t1 & Hobj & Hrun).
  apply node_at_inv in Hobj as [Hobj ->].
  apply bind_Some in Hrun as (nodeTo & s1 & Hadd & Hrun).
  apply bind_Some in Hrun as (u & s2 & Hedges & Hrun). injection Hrun as _ <-.
  assert (Hcc : Node.connectedComponent_ obj ∈ connectedComponents_ (roadmap s)).
  { destruct (wf_node s Hwf from Hfrom) as (obj' & _ & Hobj' & Hc & _).
    rewrite Hobj in Hobj'. by injection Hobj' as <-. }
  apply (components_wf_same_nodes s1 s2); [by eapply addEdges_same|].
  exact (addNode_in_components_wf q _ s nodeTo s1 Hwf Hcw Hcc Hadd).
Qed.

Lemma reachable_components s : reachable s -> components_wf s.
Proof.
  intros Hreach.
  induction Hreach as
    [ distance
    | s s' Hr IH Hrun
    | s q n s' Hr IH Hrun
    | s q cc n s' Hr IH Hcc Hrun
    | s n1 n2 path e s' Hr IH Hn1 Hn2 Hrun
    | s from to path s' Hr IH Hfrom Hto Hrun
    | s from to path n s' Hr IH Hfrom Hrun
    | s q s' Hr IH Hrun
    | s n s' Hr IH Hn Hrun ].
  - split; cbn; intros; by match goal with
                           | H : _ ∈ ∅ |- _ => apply elem_of_empty in H
                           end.
  - injection Hrun as <-.
    split; cbn; intros; by match goal with
                           | H : _ ∈ ∅ |- _ => apply elem_of_empty in H
                           end.
  - exact (addNode_components_wf q s n s' (reachable_wf s Hr) IH Hrun).
  - exact (addNode_in_components_wf q cc s n s' (reachable_wf s Hr) IH Hcc Hrun).
  - exact (addEdge_components_wf n1 n2 path s e s' (reachable_wf s Hr) IH Hn1 Hn2
             Hrun).
  - exact (components_wf_same_nodes s s' (addEdges_same from to path s tt s' Hrun)
             IH).
  - exact (addNodeAndEdges_components_wf from to path s n s' (reachable_wf s Hr)
             IH Hfrom Hrun).
  - unfold addGoalNode in Hrun.
    apply bind_Some in Hrun as (n & s1 & Hadd & Hrun). injection Hrun as <-.
    destruct (addNode_components_wf q s n s1 (reachable_wf s Hr) IH Hadd)
      as [H1 H2 H3 H4 H5]. by split.
  - injection Hrun as <-. destruct IH as [H1 H2 H3 H4 H5]. by split.
Qed.

(** Property X18.
    In every state a client can reach, each node of the roadmap is
    listed by exactly one component of the roadmap, the one it points
    to; no component of the roadmap is empty, so the assertion of
    [nearestNode] within a component holds and the call returns a
    node; the reachability sets mirror each other and no component is
    in its own. *)
Theorem reachable_components_wf s :
  reachable s ->
  components_wf s
  ∧ (∀ n, n ∈ nodes_ (roadmap s) ->
       ∃ c, c ∈ connectedComponents_ (roadmap s)
            ∧ component_of s n = Some c ∧ n ∈ nodes_of s c
            ∧ ∀ c', c' ∈ connectedComponents_ (roadmap s) ->
                n ∈ nodes_of s c' -> c' = c)
  ∧ (∀ q cc, cc ∈ connectedComponents_ (roadmap s) ->
       ∃ n d, nearestNode_in q cc s = Some ((Some n, Finite d), s)
              ∧ n ∈ nodes_of s cc).
Proof.
  intros Hreach. pose proof (reachable_wf s Hreach) as Hwf.
  pose proof (reachable_components s Hreach) as Hcw.
  split; [done|]. split.
  - intros n Hn.
    destruct (wf_node s Hwf n Hn) as (obj & cobj & Hobj & Hc & Hcobj & Hl).
    exists (Node.connectedComponent_ obj). split; [done|].
    split; [unfold component_of; by rewrite Hobj|].
    split; [unfold nodes_of; by rewrite Hcobj|].
    intros c' Hc' Hn'. destruct (cw_listed s Hcw c' n Hc' Hn') as [_ Hcomp].
    unfold component_of in Hcomp. rewrite Hobj in Hcomp. by injection Hcomp.
  - intros q cc Hcc. pose proof (cw_nonempty s Hcw cc Hcc) as Hne.
    destruct (nodes_of s cc) as [|m l] eqn:Hof; [done|].
    destruct (cw_listed s Hcw cc m Hcc) as [Hm Hcomp]; [rewrite Hof; set_solver|].
    unfold component_of in Hcomp.
    destruct (nodeHeap s !! m) as [mobj|] eqn:Hmobj; [|done].
    injection Hcomp as Hcomp.
    destruct (search_in_component q cc s m mobj Hwf Hm Hmobj Hcomp)
      as (n & obj & Hsearch & Hn & Hobj & Hobjcc & _).
    destruct (wf_node s Hwf n Hn) as (obj' & cobj & Hobj' & _ & Hcobj & Hl).
    rewrite Hobj in Hobj'. injection Hobj' as <-. rewrite Hobjcc in Hcobj.
    exists n, (distance_ (roadmap s) q (Node.configuration_ obj)).
    rewrite (nearestNode_in_eq q cc s cobj Hcobj), Hsearch.
    unfold nodes_of in Hof. rewrite Hcobj in Hof. rewrite Hof. cbn.
    split; [done|]. by rewrite <- Hof.
Qed.

(** [addNode] returns on a well-formed state, one of two ways. *)
Lemma addNode_run q s :
  wf s ->
  ∃ n s1 obj,
    addNode q s = Some (n, s1)
    ∧ (s1 = s ∧ n ∈ nodes_ (roadmap s) ∨ s1 = added s q ∧ n = new_ptr (nodeHeap s))
    ∧ n ∈ nodes_ (roadmap s1)
    ∧ nodeHeap s1 !! n = Some obj
    ∧ config_eqb (Node.configuration_ obj) q = true.
Proof.
  intros Hwf. rewrite addNode_eq by done.
  assert (Hnew : ∃ n s1 obj,
            Some (new_ptr (nodeHeap s), added s q) = Some (n, s1)
            ∧ (s1 = s ∧ n ∈ nodes_ (roadmap s)
               ∨ s1 = added s q ∧ n = new_ptr (nodeHeap s))
            ∧ n ∈ nodes_ (roadmap s1)
            ∧ nodeHeap s1 !! n = Some obj
            ∧ config_eqb (Node.configuration_ obj) q = true).
  { eexists _, _, _. split; [done|]. split; [by right|]. cbn.
    split; [set_solver|]. rewrite lookup_insert_eq. split; [done|].
    apply config_eqb_refl. }
  destruct (nodes_ (roadmap s)) as [|n0 l] eqn:Hnodes; [done|].
  destruct (nearestNode_found q s Hwf) as (m & obj & Hnear & Hm & Hobj & _);
    [by rewrite Hnodes|].
  rewrite nearestNode_eq in Hnear. injection Hnear as Hnear.
  rewrite Hnear. cbn [fst]. rewrite Hobj.
  destruct (config_eqb _ _) eqn:Heq; [|done].
  exists m, s, obj. split; [done|].
  split; [left; split; [done|by rewrite <- Hnodes]|]. by repeat split.
Qed.

(** Property X13.
    [addGoalNode] returns on a well-formed state and appends one node
    to the goal nodes: the node [addNode] gives for the configuration,
    a node of the roadmap with this configuration, created if the
    nearest node does not have it.  The init node, the edges and the
    other goal nodes are as before; no check is made for a goal given
    twice. *)
Theorem addGoalNode_appends q s :
  wf s ->
  ∃ n s' obj,
    addGoalNode q s = Some (tt, s')
    ∧ goalNodes_ (roadmap s') = goalNodes_ (roadmap s) ++ [n]
    ∧ n ∈ nodes_ (roadmap s')
    ∧ nodeHeap s' !! n = Some obj
    ∧ config_eqb (Node.configuration_ obj) q = true
    ∧ (nodes_ (roadmap s') = nodes_ (roadmap s)
       ∨ (n ∉ nodes_ (roadmap s))
         ∧ nodes_ (roadmap s') = nodes_ (roadmap s) ++ [n])
    ∧ initNode_ (roadmap s') = initNode_ (roadmap s)
    ∧ edges_ (roadmap s') = edges_ (roadmap s)
    ∧ edgeHeap s' = edgeHeap s
    ∧ wf s'.
Proof.
  intros Hwf.
  destruct (addNode_run q s Hwf) as (n & s1 & obj & Hrun & Hcases & Hn & Hobj & Hq).
  exists n, (with_roadmap (λ r, set_goalNodes (goalNodes_ r ++ [n]) r) s1), obj.
  split.
  { unfold addGoalNode. erewrite bind_eq; [|exact Hrun]. done. }
  assert (Hwf1 : wf s1) by exact (addNode_wf q s n s1 Hwf Hrun).
  assert (Hfresh : new_ptr (nodeHeap s) ∉ nodes_ (roadmap s)).
  { intros Hf. destruct (wf_node s Hwf _ Hf) as (obj' & _ & Hobj' & _).
    by rewrite new_ptr_fresh in Hobj'. }
  destruct Hcases as [[-> Hin]|[-> ->]]; cbn.
  - repeat (split; [done|]). split; [by left|].
    repeat (split; [done|]). destruct Hwf as [H1 H2 H3 H4]. by split.
  - split; [done|]. split; [set_solver|]. split; [done|]. split; [done|].
    split; [by right|]. repeat (split; [done|]).
    destruct Hwf1 as [H1 H2 H3 H4]. by split.
Qed.

(** Property X14.
    [pathExists] in a state a client can reach: without init node the
    call goes through a null pointer; with one it returns, without
    writing, whether the component of the init node can reach the
    component of one of the goal nodes. *)
Theorem pathExists_decides s :
  reachable s ->
  (initNode_ (roadmap s) = None -> pathExists s = None)
  ∧ (∀ init, initNode_ (roadmap s) = Some init ->
     ∃ b cI,
       pathExists s = Some (b, s)
       ∧ component_of s init = Some cI
       ∧ (b = true
          <-> ∃ g cg, g ∈ goalNodes_ (roadmap s) ∧ component_of s g = Some cg
                      ∧ canReach cI cg s = Some (true, s))).
Proof.
  intros Hreach. pose proof (reachable_wf s Hreach) as Hwf.
  pose proof (reachable_graph s Hreach) as Hg. split.
  { intros Hnone. unfold pathExists. rewrite bind_get. cbv beta.
    by rewrite Hnone. }
  intros init Hinit.
  apply (pathExists_run s init Hwf Hinit (gw_init s Hg init Hinit) (gw_goal s Hg)).
Qed.

End Properties.

(** *** On the examples *)

Import Examples.


Lemma wf_two_nodes : wf two_nodes.
Proof. apply reachable_wf, reachable_two_nodes. Qed.

Lemma wf_three_nodes : wf three_nodes.
Proof. apply reachable_wf, reachable_three_nodes. Qed.

Lemma reachable_queried : reachable (with_query two_edges).
Proof.
  apply (reachable_addGoalNode (after (initNode 1) two_edges) qB).
  - apply (reachable_initNode two_edges 1%positive).
    + apply reachable_two_edges.
    + apply in_list. vm_compute. reflexivity.
    + vm_compute. reflexivity.
  - vm_compute. reflexivity.
Qed.

Lemma addEdge_connects_witness :
  ∃ e s',
    addEdge 1 2 pAB two_nodes = Some (e, s')
    ∧ edgeHeap two_nodes !! e = None
    ∧ edgeHeap s' = <[e := mkEdge 1%positive 2%positive pAB]> (edgeHeap two_nodes)
    ∧ edges_ (roadmap s') = edges_ (roadmap two_nodes) ++ [e]
    ∧ nodes_ (roadmap s') = nodes_ (roadmap two_nodes)
    ∧ Node.outEdges_ <$> nodeHeap s' !! 1%positive
      = (λ obj, Node.outEdges_ obj ++ [e]) <$> nodeHeap two_nodes !! 1%positive
    ∧ Node.inEdges_ <$> nodeHeap s' !! 2%positive
      = (λ obj, Node.inEdges_ obj ++ [e]) <$> nodeHeap two_nodes !! 2%positive
    ∧ (∃ c1 c2, component_of s' 1 = Some c1 ∧ component_of s' 2 = Some c2
                ∧ canReach c1 c2 s' = Some (true, s'))
    ∧ (initNode_ (roadmap two_nodes) = Some 1%positive ->
       2%positive ∈ goalNodes_ (roadmap two_nodes) ->
       (∀ g, g ∈ goalNodes_ (roadmap two_nodes) -> g ∈ nodes_ (roadmap two_nodes)) ->
       pathExists s' = Some (true, s'))
    ∧ wf s'.
Proof.
  apply (addEdge_connects 1 2 pAB two_nodes).
  - apply wf_two_nodes.
  - apply in_list. vm_compute. reflexivity.
  - apply in_list. vm_compute. reflexivity.
Defined.

Lemma two_nodes_lookup m mobj :
  m ∈ nodes_ (roadmap two_nodes) -> nodeHeap two_nodes !! m = Some mobj ->
  (m = 1%positive ∧ mobj = Node.mk qA 1 [] [])
  ∨ (m = 2%positive ∧ mobj = Node.mk qB 2 [] []).
Proof.
  assert (Hnodes : nodes_ (roadmap two_nodes) = [1%positive; 2%positive])
    by (vm_compute; reflexivity).
  assert (H1 : nodeHeap two_nodes !! 1%positive = Some (Node.mk qA 1 [] []))
    by (vm_compute; reflexivity).
  assert (H2 : nodeHeap two_nodes !! 2%positive = Some (Node.mk qB 2 [] []))
    by (vm_compute; reflexivity).
  rewrite Hnodes. intros Hm Hobj.
  apply elem_of_cons in Hm as [->|Hm]; [left; split; [done|congruence]|].
  apply list_elem_of_singleton in Hm as ->. right. split; [done|congruence].
Qed.

Lemma addNode_creates_witness :
  ∃ n c s',
    addNode qC two_nodes = Some (n, s')
    ∧ (n ∉ nodes_ (roadmap two_nodes))
    ∧ (c ∉ connectedComponents_ (roadmap two_nodes))
    ∧ nodes_ (roadmap s') = nodes_ (roadmap two_nodes) ++ [n]
    ∧ connectedComponents_ (roadmap s')
      = {[c]} ∪ connectedComponents_ (roadmap two_nodes)
    ∧ nodeHeap s' = <[n := Node.create qC c]> (nodeHeap two_nodes)
    ∧ ccHeap s' !! c = Some (ConnectedComponent.mk [n] ∅ ∅)
    ∧ (∀ c', c' ≠ c -> ccHeap s' !! c' = ccHeap two_nodes !! c')
    ∧ edges_ (roadmap s') = edges_ (roadmap two_nodes)
    ∧ edgeHeap s' = edgeHeap two_nodes
    ∧ wf s'.
Proof.
  apply (addNode_creates qC two_nodes).
  - apply wf_two_nodes.
  - intros m mobj Hm Hobj.
    destruct (two_nodes_lookup m mobj Hm Hobj) as [[-> ->]|[-> ->]];
      vm_compute; reflexivity.
Defined.

Lemma nearestNode_in_is_nearest_witness :
  (nodes_of three_nodes 2 = [] -> nearestNode_in [2; 1] 2 three_nodes = None)
  ∧ (∀ m, m ∈ nodes_ (roadmap three_nodes) ->
     component_of three_nodes m = Some 2%positive ->
     ∃ n obj d,
       nearestNode_in [2; 1] 2 three_nodes = Some ((Some n, Finite d), three_nodes)
       ∧ n ∈ nodes_ (roadmap three_nodes) ∧ nodeHeap three_nodes !! n = Some obj
       ∧ Node.connectedComponent_ obj = 2%positive
       ∧ d = distance_ (roadmap three_nodes) [2; 1] (Node.configuration_ obj)
       ∧ ∀ m' mobj', m' ∈ nodes_ (roadmap three_nodes) ->
           nodeHeap three_nodes !! m' = Some mobj' ->
           Node.connectedComponent_ mobj' = 2%positive ->
           d <= distance_ (roadmap three_nodes) [2; 1] (Node.configuration_ mobj')).
Proof.
  apply (nearestNode_in_is_nearest [2; 1] 2 three_nodes). apply wf_three_nodes.
Defined.

Lemma addNode_in_joins_component_witness :
  ∃ n s' obj,
    addNode_in qC 1 two_nodes = Some (n, s')
    ∧ n ∈ nodes_ (roadmap s')
    ∧ nodeHeap s' !! n = Some obj
    ∧ Node.connectedComponent_ obj = 1%positive
    ∧ config_eqb (Node.configuration_ obj) qC = true
    ∧ n ∈ nodes_of s' 1
    ∧ connectedComponents_ (roadmap s') = connectedComponents_ (roadmap two_nodes)
    ∧ edges_ (roadmap s') = edges_ (roadmap two_nodes)
    ∧ edgeHeap s' = edgeHeap two_nodes
    ∧ (∀ m', m' ∈ nodes_ (roadmap two_nodes) ->
         nodeHeap s' !! m' = nodeHeap two_nodes !! m')
    ∧ (s' = two_nodes
       ∨ (n ∉ nodes_ (roadmap two_nodes))
         ∧ nodes_ (roadmap s') = nodes_ (roadmap two_nodes) ++ [n]
         ∧ nodes_of s' 1 = nodes_of two_nodes 1 ++ [n]
         ∧ obj = Node.create qC 1)
    ∧ (metric (distance_ (roadmap two_nodes)) ->
       (∃ m' mobj', m' ∈ nodes_ (roadmap two_nodes)
                    ∧ nodeHeap two_nodes !! m' = Some mobj'
                    ∧ Node.connectedComponent_ mobj' = 1%positive
                    ∧ config_eqb (Node.configuration_ mobj') qC = true) ->
       s' = two_nodes)
    ∧ wf s'.
Proof.
  apply (addNode_in_joins_component qC 1 two_nodes 1).
  - apply wf_two_nodes.
  - apply in_list. vm_compute. reflexivity.
  - vm_compute. reflexivity.
Defined.

Lemma addEdges_never_connects_witness :
  ∃ s' e1 e2,
    addEdges 1 2 pAB two_nodes = Some (tt, s')
    ∧ edgeHeap two_nodes !! e1 = None ∧ edgeHeap two_nodes !! e2 = None ∧ e1 ≠ e2
    ∧ edgeHeap s'
      = <[e2 := mkEdge 2%positive 1%positive (reverse pAB)]>
          (<[e1 := mkEdge 1%positive 2%positive pAB]> (edgeHeap two_nodes))
    ∧ edges_ (roadmap s') = edges_ (roadmap two_nodes) ++ [e1; e2]
    ∧ (1%positive ≠ 2%positive ->
       nodeHeap s' !! 1%positive
       = (λ o, Node.addInEdge e2 (Node.addOutEdge e1 o))
           <$> nodeHeap two_nodes !! 1%positive
       ∧ nodeHeap s' !! 2%positive
         = (λ o, Node.addOutEdge e2 (Node.addInEdge e1 o))
             <$> nodeHeap two_nodes !! 2%positive)
    ∧ nodes_ (roadmap s') = nodes_ (roadmap two_nodes)
    ∧ connectedComponents_ (roadmap s') = connectedComponents_ (roadmap two_nodes)
    ∧ ccHeap s' = ccHeap two_nodes
    ∧ (∀ n, component_of s' n = component_of two_nodes n)
    ∧ (∀ b, pathExists two_nodes = Some (b, two_nodes) ->
         pathExists s' = Some (b, s')).
Proof.
  apply (addEdges_never_connects 1 2 pAB two_nodes).
  - eexists. vm_compute. reflexivity.
  - eexists. vm_compute. reflexivity.
Defined.

Lemma addNodeAndEdges_extends_component_witness :
  ∃ n s' e1 e2 cc obj,
    addNodeAndEdges 1 qC pAB two_nodes = Some (n, s')
    ∧ component_of two_nodes 1 = Some cc
    ∧ component_of s' 1 = Some cc
    ∧ n ∈ nodes_ (roadmap s')
    ∧ nodeHeap s' !! n = Some obj
    ∧ Node.connectedComponent_ obj = cc
    ∧ config_eqb (Node.configuration_ obj) qC = true
    ∧ (nodes_ (roadmap s') = nodes_ (roadmap two_nodes)
       ∨ (n ∉ nodes_ (roadmap two_nodes))
         ∧ nodes_ (roadmap s') = nodes_ (roadmap two_nodes) ++ [n])
    ∧ connectedComponents_ (roadmap s') = connectedComponents_ (roadmap two_nodes)
    ∧ (∀ c, reachableTo s' c = reachableTo two_nodes c)
    ∧ edgeHeap two_nodes !! e1 = None ∧ edgeHeap two_nodes !! e2 = None ∧ e1 ≠ e2
    ∧ edgeHeap s'
      = <[e2 := mkEdge n 1%positive (reverse pAB)]>
          (<[e1 := mkEdge 1%positive n pAB]> (edgeHeap two_nodes))
    ∧ edges_ (roadmap s') = edges_ (roadmap two_nodes) ++ [e1; e2]
    ∧ wf s'.
Proof.
  apply (addNodeAndEdges_extends_component 1 qC pAB two_nodes).
  - apply wf_two_nodes.
  - apply in_list. vm_compute. reflexivity.
Defined.

Lemma merge_absorbs_or_asserts_witness :
  ({[2%positive]} ⊆ connectedComponents_ (roadmap three_nodes) ->
   ∃ s', merge 1 {[2%positive]} three_nodes = Some (tt, s')
         ∧ connectedComponents_ (roadmap s')
           = connectedComponents_ (roadmap three_nodes)
               ∖ ({[2%positive]} ∖ {[1%positive]})
         ∧ (∀ n c, n ∈ nodes_ (roadmap three_nodes) ->
              component_of three_nodes n = Some c ->
              c ∈ ({[2%positive]} : gset positive) ∨ c = 1%positive ->
              component_of s' n = Some 1%positive)
         ∧ nodes_ (roadmap s') = nodes_ (roadmap three_nodes)
         ∧ edges_ (roadmap s') = edges_ (roadmap three_nodes)
         ∧ wf s')
  ∧ (∀ c, c ∈ ({[2%positive]} : gset positive) ->
       c ∉ connectedComponents_ (roadmap three_nodes) ->
       merge 1 {[2%positive]} three_nodes = None).
Proof.
  apply (merge_absorbs_or_asserts 1 {[2%positive]} three_nodes).
  - apply wf_three_nodes.
  - apply in_gset. vm_compute. reflexivity.
Defined.

Lemma reachable_graph_wf_witness :
  graph_wf two_edges
  ∧ ∀ e, e ∈ edges_ (roadmap two_edges) ->
      ∃ ed fobj tobj,
        edgeHeap two_edges !! e = Some ed
        ∧ nodeHeap two_edges !! from_ ed = Some fobj ∧ e ∈ Node.outEdges_ fobj
        ∧ nodeHeap two_edges !! to_ ed = Some tobj ∧ e ∈ Node.inEdges_ tobj.
Proof. apply (reachable_graph_wf two_edges). apply reachable_two_edges. Defined.

Lemma reachable_components_wf_witness :
  components_wf two_edges
  ∧ (∀ n, n ∈ nodes_ (roadmap two_edges) ->
       ∃ c, c ∈ connectedComponents_ (roadmap two_edges)
            ∧ component_of two_edges n = Some c ∧ n ∈ nodes_of two_edges c
            ∧ ∀ c', c' ∈ connectedComponents_ (roadmap two_edges) ->
                n ∈ nodes_of two_edges c' -> c' = c)
  ∧ (∀ q cc, cc ∈ connectedComponents_ (roadmap two_edges) ->
       ∃ n d, nearestNode_in q cc two_edges = Some ((Some n, Finite d), two_edges)
              ∧ n ∈ nodes_of two_edges cc).
Proof. apply (reachable_components_wf two_edges). apply reachable_two_edges. Defined.

Lemma addGoalNode_appends_witness :
  ∃ n s' obj,
    addGoalNode qB two_nodes = Some (tt, s')
    ∧ goalNodes_ (roadmap s') = goalNodes_ (roadmap two_nodes) ++ [n]
    ∧ n ∈ nodes_ (roadmap s')
    ∧ nodeHeap s' !! n = Some obj
    ∧ config_eqb (Node.configuration_ obj) qB = true
    ∧ (nodes_ (roadmap s') = nodes_ (roadmap two_nodes)
       ∨ (n ∉ nodes_ (roadmap two_nodes))
         ∧ nodes_ (roadmap s') = nodes_ (roadmap two_nodes) ++ [n])
    ∧ initNode_ (roadmap s') = initNode_ (roadmap two_nodes)
    ∧ edges_ (roadmap s') = edges_ (roadmap two_nodes)
    ∧ edgeHeap s' = edgeHeap two_nodes
    ∧ wf s'.
Proof. apply (addGoalNode_appends qB two_nodes). apply wf_two_nodes. Defined.

Lemma pathExists_decides_witness :
  (initNode_ (roadmap (with_query two_edges)) = None ->
   pathExists (with_query two_edges) = None)
  ∧ (∀ init, initNode_ (roadmap (with_query two_edges)) = Some init ->
     ∃ b cI,
       pathExists (with_query two_edges) = Some (b, with_query two_edges)
       ∧ component_of (with_query two_edges) init = Some cI
       ∧ (b = true
          <-> ∃ g cg, g ∈ goalNodes_ (roadmap (with_query two_edges))
                      ∧ component_of (with_query two_edges) g = Some cg
                      ∧ canReach cI cg (with_query two_edges)
                        = Some (true, with_query two_edges))).
Proof. apply (pathExists_decides (with_query two_edges)). apply reachable_queried. Defined.

End RoadmapProperties.

(* ===================================================================== *)
(** ** Cycles of components *)
(* ===================================================================== *)

Module CycleFacts.
Import Roadmap RoadmapFacts Invariants RoadmapProperties.
Local Open Scope Q_scope.

Section Facts.
Context {Path : Type} {PathOps : PathClass Path}.
Implicit Types (s : State Path).

Lemma chain_in s c c' :
  wf s -> c ∈ connectedComponents_ (roadmap s) -> chain s c c' ->
  c' ∈ connectedComponents_ (roadmap s).
Proof.
  intros Hwf Hc Hchain. unfold chain in Hchain. revert c' Hchain.
  apply rtc_ind_r; [done|]. intros x y _ Hxy Hx.
  destruct (wf_cc s Hwf x Hx) as (o & Ho & Hto & _).
  unfold link, reachableTo in Hxy. rewrite Ho in Hxy. by apply Hto.
Qed.

Lemma chain_fewer_links s s' x y :
  wf s ->
  connectedComponents_ (roadmap s) ⊆ connectedComponents_ (roadmap s') ->
  (∀ c, c ∈ connectedComponents_ (roadmap s') ->
     (c ∈ connectedComponents_ (roadmap s) ∧ reachableTo s' c = reachableTo s c)
     ∨ reachableTo s' c = ∅) ->
  x ∈ connectedComponents_ (roadmap s') -> chain s' x y ->
  x = y ∨ (x ∈ connectedComponents_ (roadmap s) ∧ chain s x y).
Proof.
  intros Hwf Hsub Hlinks Hx Hchain. unfold chain in Hchain.
  induction Hchain as [x|x y z Hxy Hyz IH]; [by left|]. right.
  unfold link in Hxy.
  destruct (Hlinks x Hx) as [[Hxs Hto]|Hempty]; [|rewrite Hempty in Hxy; set_solver].
  rewrite Hto in Hxy. split; [done|].
  assert (Hy : y ∈ connectedComponents_ (roadmap s)).
  { apply (chain_in s x y Hwf Hxs). by apply rtc_once. }
  destruct (IH (Hsub y Hy)) as [<-|[_ Hc]]; [by apply rtc_once|].
  by eapply rtc_l.
Qed.

Lemma acyclic_fewer_links s s' :
  wf s ->
  connectedComponents_ (roadmap s) ⊆ connectedComponents_ (roadmap s') ->
  (∀ c, c ∈ connectedComponents_ (roadmap s') ->
     (c ∈ connectedComponents_ (roadmap s) ∧ reachableTo s' c = reachableTo s c)
     ∨ reachableTo s' c = ∅) ->
  acyclic s -> acyclic s'.
Proof.
  intros Hwf Hsub Hlinks Hac x y Hx Hy Hxy Hyx.
  destruct (chain_fewer_links s s' x y Hwf Hsub Hlinks Hx Hxy) as [|[Hxs Hxy']];
    [done|].
  destruct (chain_fewer_links s s' y x Hwf Hsub Hlinks Hy Hyx) as [|[Hys Hyx']];
    [done|].
  by apply Hac.
Qed.

Lemma via_trans s cc1 cc2 a b c :
  via s cc1 cc2 a b -> via s cc1 cc2 b c -> via s cc1 cc2 a c.
Proof.
  unfold via, chain.
  intros [Hab|[Ha Hb]] [Hbc|[Hb' Hc]].
  - left. by etrans.
  - right. split; [by etrans|done].
  - right. split; [done|by etrans].
  - right. by split.
Qed.

Lemma chain_new_link s s' cc1 cc2 x y :
  (∀ c, reachableTo s' c
        ⊆ if bool_decide (c = cc1) then {[cc2]} ∪ reachableTo s c
          else reachableTo s c) ->
  chain s' x y -> via s cc1 cc2 x y.
Proof.
  intros Hto Hchain. unfold chain in Hchain. revert y Hchain. apply rtc_ind_r.
  { left. apply rtc_refl. }
  intros y z _ Hyz IH. apply (via_trans s cc1 cc2 x y z IH).
  unfold link in Hyz. apply Hto in Hyz. case_bool_decide as Hy.
  - subst y. apply elem_of_union in Hyz as [->%elem_of_singleton|Hz].
    + right. split; apply rtc_refl.
    + left. by apply rtc_once.
  - left. by apply rtc_once.
Qed.

Lemma acyclic_new_link s s' cc1 cc2 :
  connectedComponents_ (roadmap s') = connectedComponents_ (roadmap s) ->
  (∀ c, reachableTo s' c
        ⊆ if bool_decide (c = cc1) then {[cc2]} ∪ reachableTo s c
          else reachableTo s c) ->
  ¬ chain s cc2 cc1 -> acyclic s -> acyclic s'.
Proof.
  intros Hccs Hto Hno Hac x y Hx Hy Hxy Hyx. rewrite Hccs in Hx, Hy.
  apply (chain_new_link s s' cc1 cc2) in Hxy; [|done].
  apply (chain_new_link s s' cc1 cc2) in Hyx; [|done].
  unfold chain in *.
  destruct Hxy as [Hxy|[Hx1 H2y]], Hyx as [Hyx|[Hy1 H2x]].
  - by apply Hac.
  - exfalso. apply Hno. etrans; [exact H2x|]. by etrans.
  - exfalso. apply Hno. etrans; [exact H2y|]. by etrans.
  - exfalso. apply Hno. by etrans.
Qed.

(** A link between components that remain after [merge] comes from a
    link before it, between the components themselves or those that
    [cc1] has absorbed. *)
Lemma absorb_all_link cc1 (l : list ConnectedComponentPtr_t) s x z :
  wf s -> cc1 ∈ connectedComponents_ (roadmap s) ->
  NoDup l -> (∀ c, c ∈ l -> c ∈ connectedComponents_ (roadmap s)) ->
  x ∈ connectedComponents_ (roadmap (absorb_all cc1 l s)) ->
  link (absorb_all cc1 l s) x z ->
  ∃ x0 z0, link s x0 z0 ∧ (x0 = x ∨ x = cc1 ∧ x0 ∈ l)
           ∧ (z0 = z ∨ z = cc1 ∧ z0 ∈ l).
Proof.
  intros Hwf H1 Hnd Hl. revert s Hwf H1 Hl.
  induction Hnd as [|c l Hc Hnd IH]; intros s Hwf H1 Hl Hx Hxz.
  { exists x, z. split; [done|]. by split; left. }
  change (absorb_all cc1 (c :: l) s)
    with (absorb_all cc1 l (if bool_decide (c = cc1) then s else absorb cc1 s c))
    in Hx, Hxz.
  case_bool_decide as Hc1.
  { destruct (IH s Hwf H1) as (x0 & z0 & Hlink & Hfx & Hfz); [set_solver|done..|].
    exists x0, z0. split; [done|]. set_solver. }
  assert (Hcin : c ∈ connectedComponents_ (roadmap s)) by set_solver.
  destruct (wf_cc s Hwf cc1 H1) as (o1 & Ho1 & _).
  destruct (wf_cc s Hwf c Hcin) as (oc & Hoc & _).
  pose proof (wf_absorb cc1 c s Hwf H1 Hcin Hc1) as Hwf1.
  pose proof (absorb_components cc1 c s (mk_is_Some _ _ Ho1) (mk_is_Some _ _ Hoc))
    as Hccs1.
  set (s1 := absorb cc1 s c) in *.
  assert (H11 : cc1 ∈ connectedComponents_ (roadmap s1)) by (rewrite Hccs1; set_solver).
  assert (Hl1 : ∀ c', c' ∈ l -> c' ∈ connectedComponents_ (roadmap s1)).
  { intros c' Hc'. rewrite Hccs1. set_solver. }
  destruct (merge_eq cc1 l s1 Hwf1 H11 Hnd Hl1) as (_ & _ & Hfinal).
  destruct (IH s1 Hwf1 H11 Hl1 Hx Hxz) as (x1 & z1 & Hlink & Hfx & Hfz).
  assert (Hx1 : x1 ≠ c).
  { destruct Hfx as [->|[_ Hin]]; [|by intros ->].
    rewrite Hfinal, Hccs1 in Hx. set_solver. }
  destruct (absorb_reachable cc1 c s o1 oc Hc1 Ho1 Hoc) as (Hto1 & _ & Hother).
  unfold link in Hlink. destruct (decide (x1 = cc1)) as [->|Hx1'].
  - assert (x = cc1) as -> by (by destruct Hfx as [|[]]).
    fold s1 in Hto1. rewrite Hto1 in Hlink.
    apply elem_of_difference in Hlink as [[Hz|Hz]%elem_of_union _].
    + exists cc1, z1. split; [done|]. split; [by left|]. set_solver.
    + exists c, z1. split; [done|]. split; [right; set_solver|]. set_solver.
  - destruct (Hother x1 Hx1' Hx1) as [Hto _]. fold s1 in Hto. rewrite Hto in Hlink.
    apply elem_of_replace_cc in Hlink as [[-> Hin]|[Hz Hin]].
    + exists x1, c. split; [done|]. split; [set_solver|].
      right. split; [by destruct Hfz as [|[]]|set_solver].
    + exists x1, z1. split; [done|]. set_solver.
Qed.

(** A chain between components that remain after [merge] of the
    components between [cc2] and [cc1] comes from a chain before it,
    through the edge from [cc1] to [cc2] where it needs it. *)
Lemma absorb_all_chain cc1 cc2 (l : list ConnectedComponentPtr_t) s x y :
  wf s -> cc1 ∈ connectedComponents_ (roadmap s) ->
  cc2 ∈ connectedComponents_ (roadmap s) ->
  NoDup l -> chain s cc2 cc1 ->
  (∀ c, c ∈ l -> chain s cc2 c ∧ chain s c cc1) ->
  x ∈ connectedComponents_ (roadmap (absorb_all cc1 l s)) ->
  chain (absorb_all cc1 l s) x y ->
  ∀ x0 y0, (x0 = x ∨ x = cc1 ∧ x0 ∈ l) -> (y0 = y ∨ y = cc1 ∧ y0 ∈ l) ->
           via s cc1 cc2 x0 y0.
Proof.
  intros Hwf H1 H2 Hnd Hback Hl Hx Hchain.
  assert (Hin : ∀ c, c ∈ l -> c ∈ connectedComponents_ (roadmap s)).
  { intros c Hc. apply (chain_in s cc2 c Hwf H2). by apply Hl. }
  destruct (merge_eq cc1 l s Hwf H1 Hnd Hin) as (_ & Hwf' & _).
  assert (Hfib : ∀ a b c, (a = c ∨ c = cc1 ∧ a ∈ l) -> (b = c ∨ c = cc1 ∧ b ∈ l) ->
                          via s cc1 cc2 a b).
  { intros a b c Ha Hb.
    assert (Hrep : ∀ a, (a = c ∨ c = cc1 ∧ a ∈ l) -> c = cc1 ->
                        chain s cc2 a ∧ chain s a cc1).
    { intros a' [->|[_ Ha']] Hc; [|by apply Hl]. subst c.
      split; [done|apply rtc_refl]. }
    destruct Ha as [->|[-> Ha]].
    - destruct Hb as [->|[-> Hb]]; [left; apply rtc_refl|].
      right. split; [apply rtc_refl|]. by apply Hl.
    - right. split; [by apply Hl|].
      by apply (Hrep b Hb). }
  unfold chain in Hchain. revert y Hchain.
  apply (rtc_ind_r
           (λ y, ∀ x0 y0, (x0 = x ∨ x = cc1 ∧ x0 ∈ l) ->
                          (y0 = y ∨ y = cc1 ∧ y0 ∈ l) -> via s cc1 cc2 x0 y0)).
  { intros x0 y0 Hx0 Hy0. by apply (Hfib x0 y0 x). }
  intros y z Hxy Hyz IH x0 z0 Hx0 Hz0.
  assert (Hy : y ∈ connectedComponents_ (roadmap (absorb_all cc1 l s))).
  { by apply (chain_in _ x y Hwf' Hx). }
  destruct (absorb_all_link cc1 l s y z Hwf H1 Hnd Hin Hy Hyz)
    as (y1 & z1 & Hlink & Hy1 & Hz1).
  apply (via_trans s cc1 cc2 x0 y1 z0); [by apply IH|].
  apply (via_trans s cc1 cc2 y1 z1 z0); [left; by apply rtc_once|].
  by apply (Hfib z1 z0 z).
Qed.

Lemma acyclic_absorb_all cc1 cc2 (l : list ConnectedComponentPtr_t) s :
  wf s -> cc1 ∈ connectedComponents_ (roadmap s) ->
  cc2 ∈ connectedComponents_ (roadmap s) ->
  NoDup l -> chain s cc2 cc1 ->
  (∀ c, c ∈ l <-> chain s cc2 c ∧ chain s c cc1) ->
  acyclic s -> acyclic (absorb_all cc1 l s).
Proof.
  intros Hwf H1 H2 Hnd Hback Hl Hac x y Hx Hy Hxy Hyx.
  assert (Hin : ∀ c, c ∈ l -> c ∈ connectedComponents_ (roadmap s)).
  { intros c Hc. apply (chain_in s cc2 c Hwf H2). by apply Hl. }
  destruct (merge_eq cc1 l s Hwf H1 Hnd Hin) as (_ & _ & Hccs).
  assert (Hkept : ∀ c, c ∈ connectedComponents_ (roadmap (absorb_all cc1 l s)) ->
                       chain s cc2 c -> chain s c cc1 -> c = cc1).
  { intros c Hc Hto Hfrom. rewrite Hccs in Hc.
    assert (Hcl : c ∈ l) by by apply Hl.
    apply elem_of_difference in Hc as [_ Hnot].
    destruct (decide (c = cc1)) as [|Hne]; [done|]. exfalso. apply Hnot.
    apply elem_of_difference. split; [by apply elem_of_list_to_set|].
    by intros ?%elem_of_singleton. }
  assert (Hl' : ∀ c, c ∈ l -> chain s cc2 c ∧ chain s c cc1) by (intros c; apply Hl).
  pose proof (absorb_all_chain cc1 cc2 l s x y Hwf H1 H2 Hnd Hback Hl' Hx Hxy x y)
    as Hxy'.
  pose proof (absorb_all_chain cc1 cc2 l s y x Hwf H1 H2 Hnd Hback Hl' Hy Hyx y x)
    as Hyx'.
  specialize (Hxy' (or_introl eq_refl) (or_introl eq_refl)).
  specialize (Hyx' (or_introl eq_refl) (or_introl eq_refl)).
  assert (Hxs : x ∈ connectedComponents_ (roadmap s)) by (rewrite Hccs in Hx; set_solver).
  assert (Hys : y ∈ connectedComponents_ (roadmap s)) by (rewrite Hccs in Hy; set_solver).
  unfold chain in *.
  destruct Hxy' as [Hxy'|[Hx1 H2y]], Hyx' as [Hyx'|[Hy1 H2x]].
  - by apply Hac.
  - rewrite (Hkept x Hx); [|done|by etrans]. rewrite (Hkept y Hy); [done| |done].
    etrans; [exact H2x|done].
  - rewrite (Hkept x Hx); [|by etrans|done]. rewrite (Hkept y Hy); [done|done|].
    by etrans.
  - rewrite (Hkept x Hx); [|done|done]. by rewrite (Hkept y Hy).
Qed.

Lemma acyclic_connect cc1 cc2 s u s' :
  wf s -> acyclic s ->
  cc1 ∈ connectedComponents_ (roadmap s) ->
  cc2 ∈ connectedComponents_ (roadmap s) ->
  connect cc1 cc2 s = Some (u, s') -> acyclic s'.
Proof.
  intros Hwf Hac H1 H2.
  destruct (wf_cc s Hwf cc1 H1) as (o1 & Ho1 & _).
  destruct (wf_cc s Hwf cc2 H2) as (o2 & Ho2 & _).
  rewrite (connect_eq cc1 cc2 s o1 o2 Ho1 Ho2).
  destruct (ConnectedComponent.canReach (ccHeap s) cc1 o1 cc2) eqn:H12;
    [by intros [= _ <-]|].
  assert (cc1 ≠ cc2) as Hne by (intros ->; by rewrite canReach_self in H12).
  destruct (ConnectedComponent.canReach (ccHeap s) cc2 o2 cc1) eqn:H21.
  - intros Hrun. apply merge_loop_inv in Hrun as ->.
    apply (acyclic_absorb_all cc1 cc2); try done; [apply NoDup_elements| |].
    + apply (downward_chain s cc2 o2 cc1 Ho2).
      unfold ConnectedComponent.canReach in H21. by apply bool_decide_eq_true in H21.
    + intros c. rewrite elem_of_elements.
      pose proof (cycle_of_chain s cc1 cc2 c Hwf H2) as Hcycle.
      unfold cycle_of in Hcycle. by rewrite Ho2 in Hcycle.
  - intros [= _ <-]. apply (acyclic_new_link s _ cc1 cc2); [done| | |done].
    + intros c. unfold reachableTo. cbn [ccHeap with_ccHeap]. case_bool_decide as Hc1.
      * subst c. rewrite lookup_insert_ne by done.
        by rewrite lookup_insert_eq, Ho1.
      * destruct (decide (c = cc2)) as [->|Hc2]; [by rewrite lookup_insert_eq, Ho2|].
        by rewrite !lookup_insert_ne.
    + intros Hchain. apply (chain_downward s cc2 o2 cc1 Hwf H2 Ho2) in Hchain.
      unfold ConnectedComponent.canReach in H21.
      by apply bool_decide_eq_false in H21.
Qed.

Lemma acyclic_same_nodes s s' :
  wf s -> same_nodes s s' -> acyclic s -> acyclic s'.
Proof.
  intros Hwf (Hcch & Hccs & _). apply (acyclic_fewer_links s s' Hwf).
  - by rewrite Hccs.
  - intros c Hc. left. rewrite <- Hccs. split; [done|].
    unfold reachableTo. by rewrite Hcch.
Qed.

Lemma acyclic_new_component s q : wf s -> acyclic s -> acyclic (added s q).
Proof.
  intros Hwf. apply (acyclic_fewer_links s _ Hwf); cbn; [set_solver|].
  intros c Hc. set (c0 := new_ptr (ccHeap s)) in *.
  destruct (decide (c = c0)) as [->|Hc0].
  - right. unfold reachableTo. cbn. by rewrite lookup_insert_eq.
  - left. split; [set_solver|]. unfold reachableTo. cbn.
    by rewrite !lookup_insert_ne.
Qed.

Lemma acyclic_new_member s q cc cobj :
  wf s -> ccHeap s !! cc = Some cobj -> acyclic s -> acyclic (added_in s q cc cobj).
Proof.
  intros Hwf Hcobj. apply (acyclic_fewer_links s _ Hwf); cbn; [done|].
  intros c Hc. left. split; [done|]. unfold reachableTo. cbn.
  destruct (decide (c = cc)) as [->|Hne]; [by rewrite lookup_insert_eq, Hcobj|].
  by rewrite lookup_insert_ne.
Qed.

Lemma addEdge_acyclic n1 n2 (path : Path) s e s' :
  wf s -> acyclic s ->
  n1 ∈ nodes_ (roadmap s) -> n2 ∈ nodes_ (roadmap s) ->
  addEdge n1 n2 path s = Some (e, s') -> acyclic s'.
Proof.
  intros Hwf Hac Hn1 Hn2. unfold addEdge. rewrite attach_bind. intros Hrun.
  apply bind_Some in Hrun as (e1 & s1 & Hatt & Hrun).
  pose proof (attach_same _ _ _ _ _ _ _ _ _ _ addOutEdge_keeps addInEdge_keeps Hatt)
    as Hsame.
  pose proof (wf_same_nodes s s1 Hsame Hwf) as Hwf1.
  pose proof (acyclic_same_nodes s s1 Hwf Hsame Hac) as Hac1.
  destruct Hsame as (_ & _ & Hnodes & _).
  apply bind_Some in Hrun as (o1 & t1 & Ho1 & Hrun).
  apply node_at_inv in Ho1 as [Ho1 ->].
  apply bind_Some in Hrun as (o2 & t2 & Ho2 & Hrun).
  apply node_at_inv in Ho2 as [Ho2 ->].
  apply bind_Some in Hrun as (u & t3 & Hconn & Hrun). injection Hrun as _ <-.
  destruct (wf_node s1 Hwf1 n1) as (o1' & _ & Ho1' & Hc1 & _); [by rewrite Hnodes|].
  destruct (wf_node s1 Hwf1 n2) as (o2' & _ & Ho2' & Hc2 & _); [by rewrite Hnodes|].
  rewrite Ho1 in Ho1'. injection Ho1' as <-.
  rewrite Ho2 in Ho2'. injection Ho2' as <-.
  exact (acyclic_connect _ _ s1 u t3 Hwf1 Hac1 Hc1 Hc2 Hconn).
Qed.

Lemma addNode_acyclic q s n s1 :
  wf s -> acyclic s -> addNode q s = Some (n, s1) -> acyclic s1.
Proof.
  intros Hwf Hac Hrun. destruct (addNode_cases q s n s1 Hwf Hrun) as [->| ->];
    [done | by apply acyclic_new_component].
Qed.

Lemma addNode_in_acyclic q cc s n s1 :
  wf s -> acyclic s -> cc ∈ connectedComponents_ (roadmap s) ->
  addNode_in q cc s = Some (n, s1) -> acyclic s1.
Proof.
  intros Hwf Hac Hcc Hrun.
  destruct (addNode_in_cases q cc s n s1 Hwf Hcc Hrun) as [->|(cobj & Hcobj & ->)];
    [done | by apply acyclic_new_member].
Qed.

(** In every state a client can reach, no two components of the
    roadmap reach each other. *)
Lemma reachable_acyclic s : reachable s -> acyclic s.
Proof.
  intros Hreach.
  induction Hreach as
    [ distance
    | s s' Hr IH Hrun
    | s q n s' Hr IH Hrun
    | s q cc n s' Hr IH Hcc Hrun
    | s n1 n2 path e s' Hr IH Hn1 Hn2 Hrun
    | s from to path s' Hr IH Hfrom Hto Hrun
    | s from to path n s' Hr IH Hfrom Hrun
    | s q s' Hr IH Hrun
    | s n s' Hr IH Hn Hrun ].
  - intros c c' Hc. by apply elem_of_empty in Hc.
  - injection Hrun as <-. intros c c' Hc. by apply elem_of_empty in Hc.
  - exact (addNode_acyclic q s n s' (reachable_wf s Hr) IH Hrun).
  - exact (addNode_in_acyclic q cc s n s' (reachable_wf s Hr) IH Hcc Hrun).
  - exact (addEdge_acyclic n1 n2 path s e s' (reachable_wf s Hr) IH Hn1 Hn2 Hrun).
  - exact (acyclic_same_nodes s s' (reachable_wf s Hr)
             (addEdges_same from to path s tt s' Hrun) IH).
  - unfold addNodeAndEdges in Hrun.
    apply bind_Some in Hrun as (obj & t1 & Hobj & Hrun).
    apply node_at_inv in Hobj as [Hobj ->].
    apply bind_Some in Hrun as (nodeTo & s1 & Hadd & Hrun).
    apply bind_Some in Hrun as (u & s2 & Hedges & Hrun). injection Hrun as _ <-.
    assert (Hcc : Node.connectedComponent_ obj ∈ connectedComponents_ (roadmap s)).
    { destruct (wf_node s (reachable_wf s Hr) from Hfrom) as (obj' & _ & Hobj' & Hc & _).
      rewrite Hobj in Hobj'. by injection Hobj' as <-. }
    apply (acyclic_same_nodes s1 s2); [|by eapply addEdges_same|].
    + exact (addNode_in_wf to _ s nodeTo s1 (reachable_wf s Hr) Hcc Hadd).
    + exact (addNode_in_acyclic to _ s nodeTo s1 (reachable_wf s Hr) IH Hcc Hadd).
  - unfold addGoalNode in Hrun.
    apply bind_Some in Hrun as (n & s1 & Hadd & Hrun). injection Hrun as <-.
    exact (addNode_acyclic q s n s1 (reachable_wf s Hr) IH Hadd).
  - injection Hrun as <-. exact IH.
Qed.

(** Claim C3. In a state a client can reach, when [cc2] can reach
    [cc1], through any number of links, [connect cc1 cc2] returns.
    [canReach] answers yes from [cc2] to [cc1] and, unless the two
    are one component, no from [cc1] to [cc2], so the call goes on to
    [merge].  The set it merges is the set [R]: every component that
    [cc2] can reach and that can reach [cc1].  The components of the
    roadmap are those before the call less the components of [R]
    other than [cc1], so none of the cycle remains and [cc1] does; the
    nodes those components listed are listed by [cc1] and point to
    it.  After the call no two components of the roadmap reach each
    other. *)
Theorem connect_merges_the_cycle cc1 cc2 s :
  reachable s ->
  cc1 ∈ connectedComponents_ (roadmap s) ->
  cc2 ∈ connectedComponents_ (roadmap s) ->
  chain s cc2 cc1 ->
  ∃ s', connect cc1 cc2 s = Some (tt, s')
        ∧ canReach cc2 cc1 s = Some (true, s)
        ∧ (cc1 ≠ cc2 -> canReach cc1 cc2 s = Some (false, s))
        ∧ (∀ c, c ∈ cycle_of s cc1 cc2 <-> chain s cc2 c ∧ chain s c cc1)
        ∧ connectedComponents_ (roadmap s')
          = connectedComponents_ (roadmap s) ∖ (cycle_of s cc1 cc2 ∖ {[cc1]})
        ∧ (∀ c, chain s cc2 c -> chain s c cc1 -> c ≠ cc1 ->
             c ∉ connectedComponents_ (roadmap s'))
        ∧ cc1 ∈ connectedComponents_ (roadmap s')
        ∧ (∀ c n, chain s cc2 c -> chain s c cc1 -> c ≠ cc1 ->
             n ∈ nodes_of s c ->
             n ∈ nodes_of s' cc1
             ∧ (n ∈ nodes_ (roadmap s) -> component_of s' n = Some cc1))
        ∧ wf s' ∧ acyclic s'.
Proof.
  intros Hreach H1 H2 Hback.
  pose proof (reachable_wf s Hreach) as Hwf.
  pose proof (reachable_acyclic s Hreach) as Hac.
  pose proof (λ c, cycle_of_chain s cc1 cc2 c Hwf H2) as Hcycle.
  destruct (decide (cc1 = cc2)) as [<-|Hne].
  - assert (Honly : ∀ c, chain s cc1 c -> chain s c cc1 -> c = cc1).
    { intros c Hto Hfrom. symmetry. apply Hac; try done.
      by apply (chain_in s cc1 c Hwf H1). }
    destruct (wf_cc s Hwf cc1 H1) as (o1 & Ho1 & _).
    exists s. rewrite (connect_eq cc1 cc1 s o1 o1 Ho1 Ho1).
    rewrite (canReach_Some cc1 cc1 s o1 Ho1), canReach_self.
    split; [done|]. split; [done|]. split; [done|]. split; [done|]. split.
    { apply set_eq. intros c. rewrite elem_of_difference. split; [|by intros []].
      intros Hc. split; [done|]. rewrite elem_of_difference, Hcycle.
      intros [[Hto Hfrom] Hnot]. apply Hnot, elem_of_singleton. by apply Honly. }
    split; [intros c Hto Hfrom Hc; by destruct Hc; apply Honly|].
    split; [done|].
    split; [intros c n Hto Hfrom Hc; by destruct Hc; apply Honly|].
    by split.
  - assert (Hno : ¬ chain s cc1 cc2).
    { intros Hto. by apply Hne, Hac. }
    destruct (connect_cycle cc1 cc2 s Hwf H1 H2 Hno Hback)
      as (s' & Hrun & Hnot & Hreached & Hccs & Hgone & Hroot & Hnodes & Hwf').
    exists s'. repeat (split; [done|]).
    by apply (acyclic_connect cc1 cc2 s tt s').
Qed.

End Facts.

Import Examples.

(** On three nodes where the second component reaches the first
    through the third, connecting the first to the second: the
    components of the second and of the third node are merged. *)
Lemma connect_merges_the_cycle_witness :
  ∃ s', connect 1 2 chained = Some (tt, s')
        ∧ canReach 2 1 chained = Some (true, chained)
        ∧ (1%positive ≠ 2%positive -> canReach 1 2 chained = Some (false, chained))
        ∧ (∀ c, c ∈ cycle_of chained 1 2
                <-> chain chained 2%positive c ∧ chain chained c 1%positive)
        ∧ connectedComponents_ (roadmap s')
          = connectedComponents_ (roadmap chained)
              ∖ (cycle_of chained 1 2 ∖ {[1%positive]})
        ∧ (∀ c, chain chained 2%positive c -> chain chained c 1%positive ->
             c ≠ 1%positive -> c ∉ connectedComponents_ (roadmap s'))
        ∧ 1%positive ∈ connectedComponents_ (roadmap s')
        ∧ (∀ c n, chain chained 2%positive c -> chain chained c 1%positive ->
             c ≠ 1%positive -> n ∈ nodes_of chained c ->
             n ∈ nodes_of s' 1
             ∧ (n ∈ nodes_ (roadmap chained) ->
                component_of s' n = Some 1%positive))
        ∧ wf s' ∧ acyclic s'.
Proof.
  apply (connect_merges_the_cycle 1 2 chained).
  - apply reachable_chained.
  - apply in_gset. vm_compute. reflexivity.
  - apply in_gset. vm_compute. reflexivity.
  - apply (chain_by_canReach chained 2 1 true).
    + apply reachable_chained.
    + vm_compute. reflexivity.
    + vm_compute. reflexivity.
Defined.

(** The edge from the first node to the second closes the chain of
    three components, and the ring of four: one component is left,
    which lists every node. *)
Lemma chained_closed :
  let s' := after (addEdge 1 2 pAB) chained in
  elements (connectedComponents_ (roadmap s')) = [1%positive]
  ∧ nodes_of s' 1 = [1; 3; 2]%positive
  ∧ fst <$> pathExists (with_query s') = Some true.
Proof. intros s'. split; [|split]; vm_compute; reflexivity. Qed.

Lemma ring_closed :
  let s' := after (addEdge 1 2 pAB) ring in
  size (connectedComponents_ (roadmap ring)) = 4%nat
  ∧ elements (connectedComponents_ (roadmap s')) = [1%positive]
  ∧ length (nodes_of s' 1) = 4%nat.
Proof. intros s'. split; [|split]; vm_compute; reflexivity. Qed.

End CycleFacts.

(* ===================================================================== *)
(** ** Properties of the dump *)
(* ===================================================================== *)

Module DumpFacts.
Import Roadmap RoadmapFacts Invariants RoadmapProperties Dump.
Local Open Scope Z_scope.

Lemma enumerate_from (l : list positive) (ids : gmap positive Z) count :
  NoDup l ->
  let r := fold_left number l (ids, count) in
  (∀ i x, l !! i = Some x -> fst r !! x = Some (count + Z.of_nat i))
  ∧ (∀ x, x ∉ l -> fst r !! x = ids !! x).
Proof.
  intros Hnd. revert ids count.
  induction Hnd as [|y l Hy Hnd IH]; intros ids count; cbn [fold_left].
  { split; [by intros i x ?|done]. }
  destruct (IH (<[y := count]> ids) (count + 1)) as [Hin Hout].
  cbv zeta in Hin, Hout.
  change (number (ids, count) y) with (<[y := count]> ids, count + 1). split.
  - intros [|i] x; cbn.
    + intros [= ->]. rewrite (Hout x Hy), lookup_insert_eq. f_equal. lia.
    + intros Hx. rewrite (Hin i x Hx). f_equal. lia.
  - intros x Hx. apply not_elem_of_cons in Hx as [Hxy Hx].
    by rewrite (Hout x Hx), lookup_insert_ne.
Qed.

Lemma enumerate_position (l : list positive) i x :
  NoDup l -> l !! i = Some x -> id_of (enumerate l) x = Z.of_nat i.
Proof.
  intros Hnd Hx. destruct (enumerate_from l ∅ 0 Hnd) as [Hin _].
  unfold id_of, enumerate. by rewrite (Hin i x Hx).
Qed.

Lemma enumerate_index (l : list positive) x :
  NoDup l -> x ∈ l -> l !! Z.to_nat (id_of (enumerate l) x) = Some x.
Proof.
  intros Hnd [i Hi]%list_elem_of_lookup.
  by rewrite (enumerate_position l i x Hnd Hi), Nat2Z.id.
Qed.

Section Facts.
Context {Path : Type} {PathOps : PathClass Path}.
Implicit Types (s : State Path).

(** Property X19.
    In a state a client can reach, the dump is produced, and every
    number in it stands for the object at that place: a node of the
    roadmap has its rank among the nodes and a component its rank
    among the components; the ends of every edge, the nodes a
    component lists and the components in its reachability sets are
    all numbered, so no number is the zero [std::map] gives for a key
    it does not hold. *)
Theorem dump_numbers_designate s :
  reachable s ->
  is_Some (dump s)
  ∧ (∀ i n, nodes_ (roadmap s) !! i = Some n ->
       id_of (nodeId s) n = Z.of_nat i)
  ∧ (∀ k c, elements (connectedComponents_ (roadmap s)) !! k = Some c ->
       id_of (ccId s) c = Z.of_nat k)
  ∧ (∀ e obj, e ∈ edges_ (roadmap s) -> edgeHeap s !! e = Some obj ->
       nodes_ (roadmap s) !! Z.to_nat (id_of (nodeId s) (from_ obj))
       = Some (from_ obj)
       ∧ nodes_ (roadmap s) !! Z.to_nat (id_of (nodeId s) (to_ obj))
         = Some (to_ obj))
  ∧ (∀ c n, c ∈ connectedComponents_ (roadmap s) -> n ∈ nodes_of s c ->
       nodes_ (roadmap s) !! Z.to_nat (id_of (nodeId s) n) = Some n)
  ∧ (∀ c c', c ∈ connectedComponents_ (roadmap s) ->
       c' ∈ reachableTo s c ∪ reachableFrom s c ->
       elements (connectedComponents_ (roadmap s))
         !! Z.to_nat (id_of (ccId s) c') = Some c').
Proof.
  intros Hreach. pose proof (reachable_wf s Hreach) as Hwf.
  pose proof (reachable_graph s Hreach) as Hg.
  pose proof (reachable_components s Hreach) as Hcw.
  pose proof (gw_nodes s Hg) as Hnd.
  assert (Hndc : NoDup (elements (connectedComponents_ (roadmap s))))
    by apply NoDup_elements.
  split.
  { unfold dump.
    destruct (mapM (node_line s) (nodes_ (roadmap s))) as [nl|] eqn:Hnl.
    2:{ exfalso. apply eq_None_not_Some in Hnl. apply Hnl, mapM_is_Some.
        apply Forall_forall. intros n Hn.
        destruct (wf_node s Hwf n Hn) as (obj & _ & Hobj & _).
        unfold compose, node_line. by rewrite Hobj. }
    destruct (mapM (edge_line s) (edges_ (roadmap s))) as [el|] eqn:Hel.
    2:{ exfalso. apply eq_None_not_Some in Hel. apply Hel, mapM_is_Some.
        apply Forall_forall. intros e He.
        destruct (gw_edge s Hg e He) as (obj & Hobj & _).
        unfold compose, edge_line. by rewrite Hobj. }
    destruct (mapM (component_lines s)
                (elements (connectedComponents_ (roadmap s)))) as [cl|] eqn:Hcl.
    2:{ exfalso. apply eq_None_not_Some in Hcl. apply Hcl, mapM_is_Some.
        apply Forall_forall. intros c Hc%elem_of_elements.
        destruct (wf_cc s Hwf c Hc) as (obj & Hobj & _).
        unfold compose, component_lines. by rewrite Hobj. }
    done. }
  split; [intros i n Hn; by apply enumerate_position|].
  split; [intros k c Hc; by apply enumerate_position|].
  split.
  { intros e obj He Hobj. destruct (gw_edge s Hg e He) as (obj' & Hobj' & Hf & Ht).
    rewrite Hobj in Hobj'. injection Hobj' as <-.
    split; by apply enumerate_index. }
  split.
  { intros c n Hc Hn. apply enumerate_index; [done|].
    by destruct (cw_listed s Hcw c n Hc Hn). }
  intros c c' Hc Hc'. apply enumerate_index; [done|]. apply elem_of_elements.
  destruct (wf_cc s Hwf c Hc) as (obj & Hobj & Hto & Hfrom).
  unfold reachableTo, reachableFrom in Hc'. rewrite Hobj in Hc'. set_solver.
Qed.

End Facts.

Import Examples.

Lemma dump_numbers_designate_witness :
  is_Some (dump two_edges)
  ∧ (∀ i n, nodes_ (roadmap two_edges) !! i = Some n ->
       id_of (nodeId two_edges) n = Z.of_nat i)
  ∧ (∀ k c, elements (connectedComponents_ (roadmap two_edges)) !! k = Some c ->
       id_of (ccId two_edges) c = Z.of_nat k)
  ∧ (∀ e obj, e ∈ edges_ (roadmap two_edges) -> edgeHeap two_edges !! e = Some obj ->
       nodes_ (roadmap two_edges) !! Z.to_nat (id_of (nodeId two_edges) (from_ obj))
       = Some (from_ obj)
       ∧ nodes_ (roadmap two_edges) !! Z.to_nat (id_of (nodeId two_edges) (to_ obj))
         = Some (to_ obj))
  ∧ (∀ c n, c ∈ connectedComponents_ (roadmap two_edges) ->
       n ∈ nodes_of two_edges c ->
       nodes_ (roadmap two_edges) !! Z.to_nat (id_of (nodeId two_edges) n) = Some n)
  ∧ (∀ c c', c ∈ connectedComponents_ (roadmap two_edges) ->
       c' ∈ reachableTo two_edges c ∪ reachableFrom two_edges c ->
       elements (connectedComponents_ (roadmap two_edges))
         !! Z.to_nat (id_of (ccId two_edges) c') = Some c').
Proof. apply (dump_numbers_designate two_edges). apply reachable_two_edges. Defined.

End DumpFacts.

(* ===================================================================== *)
(** ** Properties of the planner *)
(* ===================================================================== *)

Module PlannerFacts.
Import Planner.

Section Facts.

Context {Problem Robot Config Obstacle KwsPath : Type}.
Context {ProblemOps : ChppProblem Problem Robot Config Obstacle KwsPath}.
Implicit Types (p : ChppPlanner Problem Robot Obstacle).

Lemma removelast_snoc {A} (l : list A) x : removelast (l ++ [x]) = l.
Proof. by rewrite removelast_app, app_nil_r. Qed.

(** Property X20.
    [removeHppProblem] undoes [addHppProblem] on the problems, at
    either end, and empties the obstacles of the planner: a problem
    added next is built without obstacle.  On a planner without
    problem the two removals answer [KD_ERROR] and change nothing. *)
Theorem removeHppProblem_after_add robot p :
  removeHppProblem (addHppProblem robot p).2
  = (KD_OK, mkChppPlanner (hppProblemVector p) []
              (notified p ++ [ID_HPP_ADD_ROBOT robot]))
  ∧ removeHppProblemAtBeginning (addHppProblemAtBeginning robot p).2
    = (KD_OK, mkChppPlanner (hppProblemVector p) []
                (notified p ++ [ID_HPP_ADD_ROBOT robot]))
  ∧ (∀ robot',
       hppProblemVector
         (addHppProblem robot' (removeHppProblem (addHppProblem robot p).2).2).2
       = hppProblemVector p ++ [ChppProblem_new robot' []])
  ∧ (hppProblemVector p = [] ->
     removeHppProblem p = (KD_ERROR, p)
     ∧ removeHppProblemAtBeginning p = (KD_ERROR, p)).
Proof.
  assert (Hend : removeHppProblem (addHppProblem robot p).2
                 = (KD_OK, mkChppPlanner (hppProblemVector p) []
                             (notified p ++ [ID_HPP_ADD_ROBOT robot]))).
  { unfold removeHppProblem, addHppProblem. cbn.
    rewrite length_app, Nat.add_1_r. cbn. by rewrite removelast_snoc. }
  split; [done|]. split; [done|]. split.
  - intros robot'. by rewrite Hend.
  - intros Hempty. unfold removeHppProblem, removeHppProblemAtBeginning.
    by rewrite Hempty.
Qed.

Lemma update_problem_vector rank f p problem :
  hppProblemVector p !! rank = Some problem ->
  update_problem rank f p
  = mkChppPlanner (<[rank := f problem]> (hppProblemVector p)) (mObstacleList p)
      (notified p).
Proof. intros Hpb. unfold update_problem. by rewrite Hpb. Qed.

Lemma for_each_problem_from f (v : list Problem) obstacles notes k n :
  (k + n <= length v)%nat ->
  fold_left (λ p iProblem, update_problem iProblem f p) (seq k n)
    (mkChppPlanner ((f <$> take k v) ++ drop k v) obstacles notes)
  = mkChppPlanner ((f <$> take (k + n) v) ++ drop (k + n) v) obstacles notes.
Proof.
  revert k. induction n as [|n IH]; intros k Hk.
  - by rewrite Nat.add_0_r.
  - cbn [seq fold_left].
    destruct (lookup_lt_is_Some_2 v k) as [x Hx]; [lia|].
    rewrite (update_problem_vector k f _ x).
    2:{ cbn. rewrite lookup_app_r; rewrite length_fmap, length_take; [|lia].
        rewrite lookup_drop. replace (k `min` length v)%nat with k by lia.
        by rewrite Nat.sub_diag, Nat.add_0_r. }
    cbn [hppProblemVector mObstacleList notified].
    replace (<[k := f x]> ((f <$> take k v) ++ drop k v))
      with ((f <$> take (S k) v) ++ drop (S k) v).
    + rewrite IH by lia. by replace (S k + n)%nat with (k + S n)%nat by lia.
    + rewrite (take_S_r v k x Hx), fmap_app. cbn [fmap list_fmap].
      rewrite insert_app_r_alt; rewrite length_fmap, length_take; [|lia].
      replace (k - k `min` length v)%nat with 0%nat by lia.
      rewrite (drop_S v x k Hx). cbn. by rewrite <- app_assoc.
Qed.

Lemma for_each_problem_all f p :
  for_each_problem (length (hppProblemVector p)) f p
  = mkChppPlanner (f <$> hppProblemVector p) (mObstacleList p) (notified p).
Proof.
  unfold for_each_problem. destruct p as [v obstacles notes]. cbn.
  pose proof (for_each_problem_from f v obstacles notes 0 (length v)) as H.
  rewrite take_0, drop_0 in H. cbn in H. rewrite H by lia.
  by rewrite firstn_all, drop_all, app_nil_r.
Qed.

Section Sized.

Variable getNbHppProblems : ChppPlanner Problem Robot Obstacle -> nat.
Hypothesis getNbHppProblems_size :
  ∀ p, getNbHppProblems p = length (hppProblemVector p).

(** Property X21.
    With [getNbHppProblems] the number of problems stored,
    [obstacleList] and [addObstacle] reach every problem: the planner
    holds the new list and each problem has been given it, or the
    object; the problems are as many as before, and the notifications
    carry the new list. *)
Theorem obstacles_reach_every_problem collisionList object p :
  set_obstacleListOfPlanner getNbHppProblems collisionList p
  = (KD_OK,
     mkChppPlanner (set_obstacleList collisionList <$> hppProblemVector p)
       collisionList
       (notified p ++ [ID_HPP_REMOVE_OBSTACLES;
                       ID_HPP_SET_OBSTACLE_LIST collisionList]))
  ∧ addObstacle getNbHppProblems object p
    = (KD_OK,
       mkChppPlanner (problem_addObstacle object <$> hppProblemVector p)
         (mObstacleList p ++ [object])
         (notified p ++ [ID_HPP_ADD_OBSTACLE (mObstacleList p ++ [object])])).
Proof.
  unfold set_obstacleListOfPlanner, addObstacle.
  rewrite !getNbHppProblems_size. cbn [hppProblemVector set_mObstacleList notify].
  split.
  - rewrite (for_each_problem_all _
               (mkChppPlanner (hppProblemVector p) collisionList
                  (notified p ++ [ID_HPP_REMOVE_OBSTACLES]))).
    unfold notify. cbn. by rewrite <- app_assoc.
  - by rewrite (for_each_problem_all _
                  (mkChppPlanner (hppProblemVector p) (mObstacleList p ++ [object])
                     (notified p))).
Qed.

(** Property X22.
    With [getNbHppProblems] the number of problems stored and problems
    that hand back the configurations they are given: past the last
    problem the setters of the init and goal configurations answer
    [KD_ERROR] and change nothing, and the getters answer the null
    pointer; on a problem of the planner the setters answer [KD_OK],
    the getter then returns the configuration set, and the other
    problems, the obstacles and the notifications are as before. *)
Theorem configurations_checked_by_rank rank config p :
  (∀ c problem, initConfig (set_initConfig c problem) = c) ->
  (∀ c problem, goalConfig (set_goalConfig c problem) = c) ->
  ((length (hppProblemVector p) <= rank)%nat ->
   set_initConfIthProblem getNbHppProblems rank config p = (KD_ERROR, p)
   ∧ set_goalConfIthProblem getNbHppProblems rank config p = (KD_ERROR, p)
   ∧ initConfIthProblem getNbHppProblems rank p = None
   ∧ goalConfIthProblem getNbHppProblems rank p = None
   ∧ robotIthProblem getNbHppProblems rank p = None)
  ∧ ((rank < length (hppProblemVector p))%nat ->
     ∃ p1 p2,
       set_initConfIthProblem getNbHppProblems rank config p = (KD_OK, p1)
       ∧ set_goalConfIthProblem getNbHppProblems rank config p = (KD_OK, p2)
       ∧ initConfIthProblem getNbHppProblems rank p1 = config
       ∧ goalConfIthProblem getNbHppProblems rank p2 = config
       ∧ length (hppProblemVector p1) = length (hppProblemVector p)
       ∧ length (hppProblemVector p2) = length (hppProblemVector p)
       ∧ (∀ r, r ≠ rank ->
            hppProblemVector p1 !! r = hppProblemVector p !! r
            ∧ hppProblemVector p2 !! r = hppProblemVector p !! r)
       ∧ mObstacleList p1 = mObstacleList p ∧ notified p1 = notified p
       ∧ mObstacleList p2 = mObstacleList p ∧ notified p2 = notified p).
Proof.
  intros Hinit Hgoal. split.
  - intros Hrank.
    unfold set_initConfIthProblem, set_goalConfIthProblem, initConfIthProblem,
      goalConfIthProblem, robotIthProblem.
    rewrite getNbHppProblems_size.
    by rewrite (proj2 (Nat.ltb_ge rank (length (hppProblemVector p))) Hrank).
  - intros Hrank.
    destruct (lookup_lt_is_Some_2 (hppProblemVector p) rank Hrank) as [pb Hpb].
    pose proof (proj2 (Nat.ltb_lt rank (length (hppProblemVector p))) Hrank)
      as Hlt.
    exists (update_problem rank (set_initConfig config) p),
           (update_problem rank (set_goalConfig config) p).
    unfold set_initConfIthProblem, set_goalConfIthProblem, initConfIthProblem,
      goalConfIthProblem.
    rewrite !getNbHppProblems_size, Hlt.
    split; [done|]. split; [done|].
    rewrite !(update_problem_vector rank _ p pb Hpb).
    cbn [hppProblemVector mObstacleList notified]. rewrite !length_insert, Hlt.
    rewrite !list_lookup_insert_eq by done. cbn.
    split; [apply Hinit|]. split; [apply Hgoal|].
    repeat (split; [done|]). split; [|done].
    intros r Hr. by rewrite !list_lookup_insert_ne.
Qed.

End Sized.

End Facts.

Import PlannerExamples.

Lemma nbProblems_size p : nbProblems p = length (hppProblemVector p).
Proof. reflexivity. Qed.

Lemma configurations_checked_by_rank_witness :
  ((length (hppProblemVector two_problems) <= 1)%nat ->
   set_initConfIthProblem nbProblems 1 (Some [1%Q]) two_problems
   = (KD_ERROR, two_problems)
   ∧ set_goalConfIthProblem nbProblems 1 (Some [1%Q]) two_problems
     = (KD_ERROR, two_problems)
   ∧ initConfIthProblem nbProblems 1 two_problems = None
   ∧ goalConfIthProblem nbProblems 1 two_problems = None
   ∧ robotIthProblem nbProblems 1 two_problems = None)
  ∧ ((1 < length (hppProblemVector two_problems))%nat ->
     ∃ p1 p2,
       set_initConfIthProblem nbProblems 1 (Some [1%Q]) two_problems = (KD_OK, p1)
       ∧ set_goalConfIthProblem nbProblems 1 (Some [1%Q]) two_problems = (KD_OK, p2)
       ∧ initConfIthProblem nbProblems 1 p1 = Some [1%Q]
       ∧ goalConfIthProblem nbProblems 1 p2 = Some [1%Q]
       ∧ length (hppProblemVector p1) = length (hppProblemVector two_problems)
       ∧ length (hppProblemVector p2) = length (hppProblemVector two_problems)
       ∧ (∀ r, r ≠ 1%nat ->
            hppProblemVector p1 !! r = hppProblemVector two_problems !! r
            ∧ hppProblemVector p2 !! r = hppProblemVector two_problems !! r)
       ∧ mObstacleList p1 = mObstacleList two_problems
       ∧ notified p1 = notified two_problems
       ∧ mObstacleList p2 = mObstacleList two_problems
       ∧ notified p2 = notified two_problems).
Proof.
  apply (configurations_checked_by_rank nbProblems nbProblems_size 1 (Some [1%Q])
           two_problems).
  - reflexivity.
  - reflexivity.
Defined.

Lemma obstacles_reach_every_problem_witness :
  set_obstacleListOfPlanner nbProblems [8%nat; 9%nat] two_problems
  = (KD_OK,
     mkChppPlanner (set_obstacleList [8%nat; 9%nat] <$> hppProblemVector two_problems)
       [8%nat; 9%nat]
       (notified two_problems ++ [ID_HPP_REMOVE_OBSTACLES;
                                  ID_HPP_SET_OBSTACLE_LIST [8%nat; 9%nat]]))
  ∧ addObstacle nbProblems 8%nat two_problems
    = (KD_OK,
       mkChppPlanner (problem_addObstacle 8%nat <$> hppProblemVector two_problems)
         (mObstacleList two_problems ++ [8%nat])
         (notified two_problems
            ++ [ID_HPP_ADD_OBSTACLE (mObstacleList two_problems ++ [8%nat])])).
Proof.
  apply (obstacles_reach_every_problem nbProblems nbProblems_size).
Defined.

End PlannerFacts.
